(** * Dictionary (src/Dictionary.ts): a shallow embedding and its properties

    The class stores user data as own properties of the instance itself
    ([this[key] = value]), next to one non-enumerable own property
    [__private__] that holds the key cache.  The embedding therefore models
    the part of JavaScript's object semantics the class relies on: own
    properties in creation order, the prototype chain that supplies the
    methods, [Object.keys], [for ... in], strict and loose equality with
    [false], and the host's deferred-task queue ([process.nextTick]).

    Conventions.
    - The file is an ES module, hence strict code: a failed assignment or a
      failed [delete] throws a TypeError.
    - Class semantics of ES2015: methods live on [Dictionary.prototype] and
      are not enumerable; the field declaration [__private__:DictionaryInner]
      emits no code, so [Object.defineProperty] in the constructor creates
      the property non-enumerable, non-writable and non-configurable.
    - Keys are [null], [undefined] or strings; numbers are integer valued;
      a string is a sequence of code units below 256.
    - A callback is a closure with a state of its own.  It acts on the
      container by calling its methods, and does not catch what they throw.
    - An array returned by [getKeys()] is not modified by its receiver.
    - What a call does when it goes through a function value stored under
      the name of a member, or through a replaced prototype, is outside the
      embedding: such a call ends as [Unmodelled], and the statements about
      sequences of calls exclude by hypothesis the sequences that store a
      function under the name of a member. *)

From Stdlib Require Import List String Ascii Bool Arith ZArith NArith Lia.
From Stdlib Require Import DecimalString Permutation.
Import ListNotations.

Local Open Scope string_scope.
Local Open Scope list_scope.

(** ** JavaScript values *)

(** Objects a program can get hold of through a Dictionary. *)
Inductive JsObj : Type :=
| OInner                      (* the record held by [__private__] of the instance at
                                 hand, as a reference: its fields are not part
                                 of the value *)
| OPrototype                  (* [Dictionary.prototype] *)
| OFunction (name : string)   (* the function found under [name] on the prototype chain *)
| OPlain (id : nat).          (* a plain, non-callable object of the caller,
                                 without properties of its own, hence with the
                                 default [valueOf]/[toString] *)

Inductive JsVal : Type :=
| VUndefined
| VNull
| VBool (b : bool)
| VNum (z : Z)
| VStr (s : string)
| VObj (o : JsObj).

Inductive JsKey : Type :=
| KNull
| KUndefined
| KStr (s : string).

(** ToPropertyKey. *)
Definition ToPropertyKey (key : JsKey) : string :=
  match key with
  | KNull => "null"
  | KUndefined => "undefined"
  | KStr s => s
  end.

Definition callable (v : JsVal) : bool :=
  match v with
  | VObj (OFunction _) => true
  | _ => false
  end.

Definition is_object (v : JsVal) : bool :=
  match v with
  | VObj _ => true
  | _ => false
  end.

(** ** Strings *)

(** [hay.indexOf(needle)]: the position of the first occurrence, or -1. *)
Definition indexOf (hay needle : string) : Z :=
  match String.index 0 needle hay with
  | Some n => Z.of_nat n
  | None => (-1)%Z
  end.

Definition digit_of (c : ascii) : option N :=
  let n := N_of_ascii c in
  if ((48 <=? n) && (n <=? 57))%N then Some (n - 48)%N else None.

Definition is_digit (c : ascii) : bool :=
  match digit_of c with Some _ => true | None => false end.

(** Value of a run of decimal digits, most significant first. *)
Fixpoint digits_value (acc : N) (cs : list ascii) : option N :=
  match cs with
  | [] => Some acc
  | c :: cs' =>
      match digit_of c with
      | Some d => digits_value (10 * acc + d)%N cs'
      | None => None
      end
  end.

(** An array index is a canonical numeric string below 2^32 - 1; such keys
    are enumerated first, in ascending numeric order. *)
Definition array_index (s : string) : option N :=
  match list_ascii_of_string s with
  | [] => None
  | c :: cs =>
      if (N_of_ascii c =? 48)%N && negb (Nat.eqb (List.length cs) 0) then None
      else match digits_value 0 (c :: cs) with
           | Some n => if (n <? 4294967295)%N then Some n else None
           | None => None
           end
  end.

(** The decimal rendering of an array position ([for ... in] over an array
    yields its positions as strings). *)
Definition index_string (i : nat) : string :=
  NilZero.string_of_uint (Nat.to_uint i).

(** ** Equality with [false] *)

(** [v === false]. *)
Definition strict_eq_false (v : JsVal) : bool :=
  match v with
  | VBool false => true
  | _ => false
  end.

(** WhiteSpace and LineTerminator code units below 256. *)
Definition is_space (c : ascii) : bool :=
  let n := nat_of_ascii c in
  Nat.eqb n 9 || Nat.eqb n 10 || Nat.eqb n 11 || Nat.eqb n 12
  || Nat.eqb n 13 || Nat.eqb n 32 || Nat.eqb n 160.

Fixpoint drop_space (cs : list ascii) : list ascii :=
  match cs with
  | c :: cs' => if is_space c then drop_space cs' else cs
  | [] => []
  end.

Definition trim (cs : list ascii) : list ascii :=
  rev (drop_space (rev (drop_space cs))).

(** Leading run of characters accepted by [p], and the rest. *)
Fixpoint span (p : ascii -> bool) (cs : list ascii) : list ascii * list ascii :=
  match cs with
  | c :: cs' =>
      if p c then let (a, b) := span p cs' in (c :: a, b) else ([], cs)
  | [] => ([], [])
  end.

(** What StringToNumber makes of a string, as far as comparing with zero
    needs it: not a number, infinite, or the decimal [m * 10^e]. *)
Inductive StrNum : Type :=
| SNaN
| SInfinity
| SDecimal (m : N) (e : Z).

Definition all_digits_value (cs : list ascii) : N :=
  match digits_value 0 cs with Some n => n | None => 0%N end.

(** ExponentPart, when present: [e] or [E], an optional sign, digits. *)
Definition parse_exponent (cs : list ascii) : option Z :=
  match cs with
  | [] => Some 0%Z
  | c :: cs1 =>
      if Ascii.eqb c "e" || Ascii.eqb c "E" then
        let (neg, cs2) :=
          match cs1 with
          | s :: r => if Ascii.eqb s "-" then (true, r)
                      else if Ascii.eqb s "+" then (false, r) else (false, cs1)
          | [] => (false, cs1)
          end in
        match cs2 with
        | [] => None
        | _ => match digits_value 0 cs2 with
               | Some n => Some (if neg then (- Z.of_N n)%Z else Z.of_N n)
               | None => None
               end
        end
      else None
  end.

(** StrUnsignedDecimalLiteral. *)
Definition parse_unsigned_decimal (cs : list ascii) : StrNum :=
  if list_eq_dec ascii_dec cs (list_ascii_of_string "Infinity") then SInfinity
  else
    let (ip, r1) := span is_digit cs in
    let (fp, r2) :=
      match r1 with
      | c :: r => if Ascii.eqb c "." then span is_digit r else ([], r1)
      | [] => ([], r1)
      end in
    match ip ++ fp with
    | [] => SNaN
    | ds => match parse_exponent r2 with
            | Some e => SDecimal (all_digits_value ds) (e - Z.of_nat (List.length fp))
            | None => SNaN
            end
    end.

Definition radix_digit (radix : N) (c : ascii) : option N :=
  let n := N_of_ascii c in
  let d :=
    if ((48 <=? n) && (n <=? 57))%N then Some (n - 48)%N
    else if ((97 <=? n) && (n <=? 102))%N then Some (n - 87)%N
    else if ((65 <=? n) && (n <=? 70))%N then Some (n - 55)%N
    else None in
  match d with
  | Some v => if (v <? radix)%N then Some v else None
  | None => None
  end.

Fixpoint radix_value (radix acc : N) (cs : list ascii) : option N :=
  match cs with
  | [] => Some acc
  | c :: cs' =>
      match radix_digit radix c with
      | Some d => radix_value radix (radix * acc + d)%N cs'
      | None => None
      end
  end.

(** NonDecimalIntegerLiteral: [0x], [0o] or [0b] and at least one digit. *)
Definition parse_non_decimal (cs : list ascii) : option StrNum :=
  match cs with
  | z :: p :: ((_ :: _) as ds) =>
      if Ascii.eqb z "0" then
        let radix :=
          if Ascii.eqb p "x" || Ascii.eqb p "X" then Some 16%N
          else if Ascii.eqb p "o" || Ascii.eqb p "O" then Some 8%N
          else if Ascii.eqb p "b" || Ascii.eqb p "B" then Some 2%N
          else None in
        match radix with
        | Some r => Some match radix_value r 0 ds with
                         | Some n => SDecimal n 0
                         | None => SNaN
                         end
        | None => None
        end
      else None
  | _ => None
  end.

(** StringToNumber, before rounding to a double. *)
Definition StringToNumber (s : string) : StrNum :=
  match trim (list_ascii_of_string s) with
  | [] => SDecimal 0 0
  | cs =>
      match parse_non_decimal cs with
      | Some r => r
      | None =>
          match cs with
          | c :: r => if Ascii.eqb c "-" || Ascii.eqb c "+"
                      then parse_unsigned_decimal r
                      else parse_unsigned_decimal cs
          | [] => SNaN
          end
      end
  end.

(** The double nearest to [m * 10^e] is a zero exactly when [m * 10^e] is at
    most half the least positive double, 2^-1075 (a tie rounds to even). *)
Definition rounds_to_zero (n : StrNum) : bool :=
  match n with
  | SDecimal m e =>
      (m =? 0)%N
      || ((e <? 0)%Z && (Z.of_N m * 2 ^ 1075 <=? 10 ^ (- e))%Z)
  | _ => false
  end.

(** [v == false]: the boolean becomes +0, then [v] is compared with it;
    [null] and [undefined] equal neither, a string is converted by
    StringToNumber, and each object of [JsObj] converts to a primitive
    string that is not numeric. *)
Definition loose_eq_false (v : JsVal) : bool :=
  match v with
  | VUndefined | VNull => false
  | VBool b => negb b
  | VNum z => (z =? 0)%Z
  | VStr s => rounds_to_zero (StringToNumber s)
  | VObj _ => false
  end.

(** ** The object *)

(** Outcome of an operation: a value, a thrown TypeError, or [Unmodelled]
    when the run leaves the fragment of JavaScript covered here (a call
    through a stored function value, a read through a replaced prototype);
    nothing is claimed about such runs. *)
Inductive Result (A : Type) : Type :=
| Ok (a : A)
| TypeError
| Unmodelled.

Arguments Ok {A} a.
Arguments TypeError {A}.
Arguments Unmodelled {A}.

(** interface DictionaryInner *)
Record DictionaryInner : Type := mkInner {
  cacheKeys : bool;
  invalidateKeys : bool;
  keys : option (list string)          (* [None] is [null] *)
}.

(** An instance: its own enumerable data properties in order of creation,
    whether its prototype is still [Dictionary.prototype], and the record
    behind the non-enumerable own property [__private__]. *)
Record Dictionary : Type := mkDictionary {
  props : list (string * JsVal);
  proto_intact : bool;
  __private__ : DictionaryInner
}.

Definition with_props (d : Dictionary) (ps : list (string * JsVal)) : Dictionary :=
  mkDictionary ps (proto_intact d) (__private__ d).

Definition with_private (d : Dictionary) (i : DictionaryInner) : Dictionary :=
  mkDictionary (props d) (proto_intact d) i.

(** State and exception monad, over the state [St] of the run. *)
Definition StateM (St A : Type) : Type := St -> Result A * St.

(** The methods run on the instance. *)
Definition M (A : Type) : Type := StateM Dictionary A.

Definition ret {St A : Type} (a : A) : StateM St A := fun s => (Ok a, s).

Definition bind {St A B : Type} (m : StateM St A) (k : A -> StateM St B)
  : StateM St B :=
  fun s =>
    match m s with
    | (Ok a, s') => k a s'
    | (TypeError, s') => (TypeError, s')
    | (Unmodelled, s') => (Unmodelled, s')
    end.

Declare Scope js_scope.
Delimit Scope js_scope with js.
Notation "x <- m ;; k" := (bind m (fun x => k))
  (at level 61, m at next level, right associativity) : js_scope.
Notation "m ;; k" := (bind m (fun _ => k))
  (at level 61, right associativity) : js_scope.
Local Open Scope js_scope.

Fixpoint mapM {A B : Type} (f : A -> M B) (l : list A) : M (list B) :=
  match l with
  | [] => @ret Dictionary _ []
  | a :: l' => b <- f a ;; bs <- mapM f l' ;; ret (b :: bs)
  end.

(** *** Own properties *)

Fixpoint lookup (k : string) (ps : list (string * JsVal)) : option JsVal :=
  match ps with
  | [] => None
  | (k', v) :: ps' => if String.eqb k k' then Some v else lookup k ps'
  end.

(** Overwriting keeps the property's place; a new property goes last. *)
Fixpoint assign (k : string) (v : JsVal) (ps : list (string * JsVal))
  : list (string * JsVal) :=
  match ps with
  | [] => [(k, v)]
  | (k', v') :: ps' =>
      if String.eqb k k' then (k', v) :: ps' else (k', v') :: assign k v ps'
  end.

Fixpoint erase (k : string) (ps : list (string * JsVal)) : list (string * JsVal) :=
  match ps with
  | [] => []
  | (k', v') :: ps' =>
      if String.eqb k k' then ps' else (k', v') :: erase k ps'
  end.

Definition own_keys (d : Dictionary) : list string := map fst (props d).

(** *** The prototype chain *)

Definition reserved : string := "__private__".

(** Methods declared by the class, found on [Dictionary.prototype]. *)
Definition Dictionary_methods : list string :=
  ["constructor"; "entries"; "has"; "size"; "invalidate"; "keys"; "getKeys";
   "values"; "remove"; "set"; "get"; "getDefault"; "empty"; "clear";
   "asyncEmpty"; "forEach"; "each"; "asyncForEach"].

(** Functions of [Object.prototype]. *)
Definition Object_prototype_functions : list string :=
  ["hasOwnProperty"; "isPrototypeOf"; "propertyIsEnumerable"; "toLocaleString";
   "toString"; "valueOf"; "__defineGetter__"; "__defineSetter__";
   "__lookupGetter__"; "__lookupSetter__"].

Definition inherited_function (k : string) : bool :=
  existsb (String.eqb k) (Dictionary_methods ++ Object_prototype_functions).

(** Resolving [this.name] for a call: an own property hides the inherited
    function, and calling a value that is not a function throws; what a
    stored function or a replaced prototype would do is not modelled. *)
Definition method (name : string) : M unit :=
  fun d =>
    match lookup name (props d) with
    | Some v => if callable v then (Unmodelled, d) else (TypeError, d)
    | None => if proto_intact d then (Ok tt, d) else (Unmodelled, d)
    end.

(** [Object.keys(this)]: array indices in ascending order, then the other
    names in order of creation. *)
Fixpoint insert_index (x : N * string) (l : list (N * string)) : list (N * string) :=
  match l with
  | [] => [x]
  | y :: l' => if (fst x <=? fst y)%N then x :: l else y :: insert_index x l'
  end.

Fixpoint sort_index (l : list (N * string)) : list (N * string) :=
  match l with
  | [] => []
  | x :: l' => insert_index x (sort_index l')
  end.

Fixpoint index_keys (ks : list string) : list (N * string) :=
  match ks with
  | [] => []
  | k :: ks' =>
      match array_index k with
      | Some n => (n, k) :: index_keys ks'
      | None => index_keys ks'
      end
  end.

Definition is_name (k : string) : bool :=
  match array_index k with Some _ => false | None => true end.

Definition Object_keys (d : Dictionary) : list string :=
  map snd (sort_index (index_keys (own_keys d))) ++ filter is_name (own_keys d).

(** *** Reading, writing and deleting a property of [this] *)

(** [new Dictionary(cacheKeys)] *)
Definition new_Dictionary (cache : bool) : Dictionary :=
  mkDictionary [] true (mkInner cache true None).

Definition invalidate : M unit :=
  method "invalidate" ;;
  fun d =>
    let i := __private__ d in
    (Ok tt, with_private d (mkInner (cacheKeys i) true (keys i))).

Definition getKeys : M (list string) :=
  method "getKeys" ;;
  fun d =>
    let i := __private__ d in
    if negb (cacheKeys i) then (Ok (Object_keys d), d)
    else
      match invalidateKeys i, keys i with
      | false, Some ks => (Ok ks, d)
      | _, _ =>
          let ks := Object_keys d in
          (Ok ks, with_private d (mkInner (cacheKeys i) false (Some ks)))
      end.

(** [keys()], the alias of [getKeys()]. *)
Definition keys_alias : M (list string) :=
  method "keys" ;; getKeys.

Definition size : M nat :=
  method "size" ;; ks <- getKeys ;; ret (List.length ks).

(** [get length()] *)
Definition get_length : M nat := size.

(** [this[k]]: own properties first, then the prototype chain, where
    [length] is an accessor and [__proto__] yields the prototype. *)
Definition Get (k : string) : M JsVal :=
  fun d =>
    match lookup k (props d) with
    | Some v => (Ok v, d)
    | None =>
        if String.eqb k reserved then (Ok (VObj OInner), d)
        else if proto_intact d then
          if String.eqb k "length" then (n <- get_length ;; ret (VNum (Z.of_nat n))) d
          else if String.eqb k "__proto__" then (Ok (VObj OPrototype), d)
          else if inherited_function k then (Ok (VObj (OFunction k)), d)
          else (Ok VUndefined, d)
        else (Unmodelled, d)
    end.

(** [this[k] = v]: an own property is overwritten, except the read-only
    [__private__]; otherwise [length] has no setter, the setter of
    [__proto__] replaces the prototype by an object or [null] and ignores
    anything else, and every other name becomes a new own property. *)
Definition Put (k : string) (v : JsVal) : M unit :=
  fun d =>
    match lookup k (props d) with
    | Some _ => (Ok tt, with_props d (assign k v (props d)))
    | None =>
        if String.eqb k reserved then (TypeError, d)
        else if proto_intact d then
          if String.eqb k "length" then (TypeError, d)
          else if String.eqb k "__proto__" then
            match v with
            | VObj OPrototype => (Ok tt, d)
            | VObj _ | VNull => (Ok tt, mkDictionary (props d) false (__private__ d))
            | _ => (Ok tt, d)
            end
          else (Ok tt, with_props d (assign k v (props d)))
        else (Unmodelled, d)
    end.

(** [delete this[k]]: [__private__] is not configurable. *)
Definition Delete (k : string) : M unit :=
  fun d =>
    match lookup k (props d) with
    | Some _ => (Ok tt, with_props d (erase k (props d)))
    | None => if String.eqb k reserved then (TypeError, d) else (Ok tt, d)
    end.

Definition hasOwnProperty (k : string) : M bool :=
  method "hasOwnProperty" ;;
  fun d =>
    (Ok match lookup k (props d) with
        | Some _ => true
        | None => String.eqb k reserved
        end, d).

(** ** The methods of the class *)

Definition has (key : JsKey) : M bool :=
  method "has" ;;
  match key with
  | KNull | KUndefined => ret false
  | KStr s =>
      if (0 <=? indexOf s reserved)%Z then ret false
      else hasOwnProperty s
  end.

(** [for (let key in keys)] walks the positions of the array [keys], so the
    loop reads [this["0"]], [this["1"]], ... *)
Definition values : M (list JsVal) :=
  method "values" ;;
  ks <- getKeys ;;
  mapM (fun i => Get (index_string i)) (seq 0 (List.length ks)).

Definition remove (key : JsKey) : M unit :=
  method "remove" ;; invalidate ;; Delete (ToPropertyKey key).

Definition set (key : JsKey) (value : JsVal) : M unit :=
  method "set" ;; invalidate ;; Put (ToPropertyKey key) value.

Definition get (key : JsKey) : M JsVal :=
  method "get" ;; Get (ToPropertyKey key).

Definition getDefault (key : JsKey) (defaultValue : JsVal) : M JsVal :=
  method "getDefault" ;;
  b <- has key ;;
  if b then Get (ToPropertyKey key) else ret defaultValue.

(** [entries()], iterated to its end with no mutation in between: the
    generator reads [getKeys()] when the iteration starts. *)
Definition entries : M (list (string * JsVal)) :=
  method "entries" ;;
  ks <- getKeys ;;
  mapM (fun k => v <- Get k ;; ret (k, v)) ks.

(** The default iterator [[Symbol.iterator]], iterated to its end. *)
Definition iterator : M (list JsVal) :=
  ks <- getKeys ;;
  mapM Get ks.

(** ** Callbacks *)

(** What a callback may do to the container: calls of its methods. *)
Inductive Op : Type :=
| OpSet (key : JsKey) (value : JsVal)
| OpRemove (key : JsKey)
| OpInvalidate
| OpGetKeys
| OpKeys
| OpSize
| OpLength
| OpHas (key : JsKey)
| OpGet (key : JsKey)
| OpGetDefault (key : JsKey) (defaultValue : JsVal)
| OpValues
| OpEntries.

Definition discard {A : Type} (m : M A) : M unit := m ;; ret tt.

Definition exec (o : Op) : M unit :=
  match o with
  | OpSet k v => set k v
  | OpRemove k => remove k
  | OpInvalidate => invalidate
  | OpGetKeys => discard getKeys
  | OpKeys => discard keys_alias
  | OpSize => discard size
  | OpLength => discard (Get "length")
  | OpHas k => discard (has k)
  | OpGet k => discard (get k)
  | OpGetDefault k v => discard (getDefault k v)
  | OpValues => discard values
  | OpEntries => discard entries
  end.

(** A sequence of calls; an exception ends it. *)
Fixpoint run_script (os : list Op) : M unit :=
  match os with
  | [] => ret tt
  | o :: os' => exec o ;; run_script os'
  end.

(** ** Synchronous iteration *)

(** One invocation of a step callback: the key and value it was given and
    the value it returned ([None] when it threw). *)
Record Visit : Type := mkVisit {
  visit_key : string;
  visit_value : JsVal;
  visit_return : option JsVal
}.

Section Each.

(** The callback is a closure: [S] is the state it closes over.  Given
    that state, the container as it stands, the key and the value, it
    yields its next state, the calls it makes on the container and the
    value it returns. *)
Variable S : Type.

Record EachOut : Type := mkEachOut {
  eo_state : S;
  eo_script : list Op;
  eo_return : JsVal
}.

Definition EachCallback : Type := S -> Dictionary -> string -> JsVal -> EachOut.

Record EachState : Type := mkEachState {
  es_dict : Dictionary;
  es_closure : S;
  es_log : list Visit
}.

Definition lift_each {A : Type} (m : M A) : StateM EachState A :=
  fun s =>
    let (r, d) := m (es_dict s) in
    (r, mkEachState d (es_closure s) (es_log s)).

(** [cbEach(key, value)] *)
Definition call_each (cbEach : EachCallback) (key : string) (value : JsVal)
  : StateM EachState JsVal :=
  fun s =>
    let out := cbEach (es_closure s) (es_dict s) key value in
    match run_script (eo_script out) (es_dict s) with
    | (Ok _, d) =>
        (Ok (eo_return out),
         mkEachState d (eo_state out)
           (es_log s ++ [mkVisit key value (Some (eo_return out))]))
    | (TypeError, d) =>
        (TypeError,
         mkEachState d (eo_state out) (es_log s ++ [mkVisit key value None]))
    | (Unmodelled, d) =>
        (Unmodelled,
         mkEachState d (eo_state out) (es_log s ++ [mkVisit key value None]))
    end.

(** The body of [for (let key in this)], over the keys still to come: a
    name that is no longer an own property when its turn comes is passed
    over without running the body. *)
Fixpoint each_loop (cbEach : EachCallback) (ks : list string)
  : StateM EachState unit :=
  match ks with
  | [] => ret tt
  | key :: ks' =>
      fun s =>
        match lookup key (props (es_dict s)) with
        | None => each_loop cbEach ks' s
        | Some _ =>
            (b <- lift_each (has (KStr key)) ;;
             if b then
               v <- lift_each (Get key) ;;
               r <- call_each cbEach key v ;;
               if strict_eq_false r then ret tt else each_loop cbEach ks'
             else each_loop cbEach ks') s
        end
  end.

(** [for ... in] enumerates the own enumerable names as [Object.keys]
    does (the inherited members are not enumerable); a name deleted before
    its turn is passed over, a name added during the loop is not visited. *)
Definition each (cbEach : EachCallback) : StateM EachState unit :=
  lift_each (method "each") ;;
  fun s => each_loop cbEach (Object_keys (es_dict s)) s.

Definition forEach (cb : EachCallback) : StateM EachState unit :=
  lift_each (method "forEach") ;; each cb.

End Each.

Arguments mkEachOut {S} _ _ _.
Arguments eo_state {S} _.
Arguments eo_script {S} _.
Arguments eo_return {S} _.
Arguments mkEachState {S} _ _ _.
Arguments es_dict {S} _.
Arguments es_closure {S} _.
Arguments es_log {S} _.
Arguments lift_each {S A} _ _.
Arguments call_each {S} _ _ _ _.
Arguments each_loop {S} _ _ _.
Arguments each {S} _ _.
Arguments forEach {S} _ _.

(** The callback of [empty()]: [(key, value) => { this.remove(key); }] *)
Definition empty_callback : EachCallback unit :=
  fun _ _ key _ => mkEachOut tt [OpRemove (KStr key)] VUndefined.

Definition empty : M unit :=
  method "empty" ;;
  fun d =>
    let (r, s) := forEach empty_callback (mkEachState d tt []) in
    (r, es_dict s).

Definition clear : M unit :=
  method "clear" ;; empty.

(** ** Cooperative iteration *)

(** What a step callback does, in order: calls on the container, calls of
    the continuation [next] it was handed, and requests to the host to call
    [next] on a later tick. *)
Inductive Act : Type :=
| ActOp (o : Op)
| ActAdvance
| ActDefer.

(** What an observer of one traversal sees. *)
Inductive Event : Type :=
| EvStep (key : string) (value : JsVal)   (* [cbIterator(key, value, next)] is entered *)
| EvComplete                              (* [cbComplete()] is called *)
| EvResolve                               (* [resolve()] is called *)
| EvThrow                                 (* the call of the method itself throws *)
| EvReject                                (* an exception inside the executor rejects the promise *)
| EvUncaught                              (* an exception escapes a deferred task *)
| EvUnmodelled.                           (* the run leaves the modelled fragment *)

(** A task waiting in the host's FIFO queue of deferred calls. *)
Inductive Task : Type :=
| TStep                                   (* [process.nextTick(step)] *)
| TAdvance.                               (* a deferred call of [next] *)

(** A completion callback, given by the calls it makes on the container. *)
Definition CompleteCallback : Type := Dictionary -> list Op.

Section Async.

Variable S : Type.

Record StepOut : Type := mkStepOut {
  so_state : S;
  so_acts : list Act;
  so_return : JsVal
}.

Definition StepCallback : Type := S -> Dictionary -> string -> JsVal -> StepOut.

(** The instance, the closure of the step callback, the variables [keys]
    and [counter] shared by [next] and [step] ([len] is the length of
    [keys]), the host's queue and the events so far. *)
Record Traversal : Type := mkTraversal {
  t_dict : Dictionary;
  t_closure : S;
  t_keys : list string;
  t_counter : nat;
  t_queue : list Task;
  t_trace : list Event
}.

Definition lift_async {A : Type} (m : M A) : StateM Traversal A :=
  fun t =>
    let (r, d) := m (t_dict t) in
    (r, mkTraversal d (t_closure t) (t_keys t) (t_counter t) (t_queue t) (t_trace t)).

Definition emit (e : Event) : StateM Traversal unit :=
  fun t =>
    (Ok tt, mkTraversal (t_dict t) (t_closure t) (t_keys t) (t_counter t)
              (t_queue t) (t_trace t ++ [e])).

(** [process.nextTick(task)] *)
Definition nextTick (task : Task) : StateM Traversal unit :=
  fun t =>
    (Ok tt, mkTraversal (t_dict t) (t_closure t) (t_keys t) (t_counter t)
              (t_queue t ++ [task]) (t_trace t)).

(** [if (cbComplete!=null) cbComplete(); else resolve();] *)
Definition complete (cbComplete : option CompleteCallback) : StateM Traversal unit :=
  match cbComplete with
  | Some cb =>
      emit EvComplete ;;
      fun t => lift_async (run_script (cb (t_dict t))) t
  | None => emit EvResolve
  end.

(** The closure [next]. *)
Definition next (cbComplete : option CompleteCallback) : StateM Traversal unit :=
  fun t =>
    if Nat.ltb (t_counter t) (List.length (t_keys t)) then nextTick TStep t
    else complete cbComplete t.

Fixpoint run_acts (cbComplete : option CompleteCallback) (acts : list Act)
  : StateM Traversal unit :=
  match acts with
  | [] => ret tt
  | ActOp o :: acts' => lift_async (exec o) ;; run_acts cbComplete acts'
  | ActAdvance :: acts' => next cbComplete ;; run_acts cbComplete acts'
  | ActDefer :: acts' => nextTick TAdvance ;; run_acts cbComplete acts'
  end.

(** [cbIterator(key, value, next)] *)
Definition call_iterator (cbIterator : StepCallback)
    (cbComplete : option CompleteCallback) (key : string) (value : JsVal)
  : StateM Traversal JsVal :=
  fun t =>
    let out := cbIterator (t_closure t) (t_dict t) key value in
    (emit (EvStep key value) ;;
     run_acts cbComplete (so_acts out) ;;
     ret (so_return out))
      (mkTraversal (t_dict t) (so_state out) (t_keys t) (t_counter t)
         (t_queue t) (t_trace t)).

(** The closure [step]. *)
Definition step (cbIterator : StepCallback) (cbComplete : option CompleteCallback)
  : StateM Traversal unit :=
  fun t =>
    if Nat.ltb (t_counter t) (List.length (t_keys t)) then
      let key := nth (t_counter t) (t_keys t) "" in
      (v <- lift_async (Get key) ;;
       r <- call_iterator cbIterator cbComplete key v ;;
       if loose_eq_false r then complete cbComplete else ret tt)
        (mkTraversal (t_dict t) (t_closure t) (t_keys t) (Datatypes.S (t_counter t))
           (t_queue t) (t_trace t))
    else complete cbComplete t.

Definition halt (e : Event) (t : Traversal) : Traversal :=
  mkTraversal (t_dict t) (t_closure t) (t_keys t) (t_counter t) [] (t_trace t ++ [e]).

(** An exception inside the promise's executor rejects the promise; what
    is already queued stays queued. *)
Definition end_of_executor (o : Result unit * Traversal) : Traversal :=
  match o with
  | (Ok _, t) => t
  | (TypeError, t) =>
      mkTraversal (t_dict t) (t_closure t) (t_keys t) (t_counter t)
        (t_queue t) (t_trace t ++ [EvReject])
  | (Unmodelled, t) => halt EvUnmodelled t
  end.

(** An exception that escapes a deferred task ends the process. *)
Definition end_of_task (o : Result unit * Traversal) : Traversal :=
  match o with
  | (Ok _, t) => t
  | (TypeError, t) => halt EvUncaught t
  | (Unmodelled, t) => halt EvUnmodelled t
  end.

(** [asyncForEach(cbIterator, cbComplete)] up to its return to the caller:
    the executor of the promise runs within the call. *)
Definition asyncForEach (cbIterator : StepCallback)
    (cbComplete : option CompleteCallback) (closure : S) (d : Dictionary)
  : Traversal :=
  match method "asyncForEach" d with
  | (Ok _, _) =>
      match getKeys d with
      | (Ok ks, d') =>
          end_of_executor
            (step cbIterator cbComplete (mkTraversal d' closure ks 0 [] []))
      | (TypeError, d') => mkTraversal d' closure [] 0 [] [EvReject]
      | (Unmodelled, d') => mkTraversal d' closure [] 0 [] [EvUnmodelled]
      end
  | (TypeError, _) => mkTraversal d closure [] 0 [] [EvThrow]
  | (Unmodelled, _) => mkTraversal d closure [] 0 [] [EvUnmodelled]
  end.

(** One scheduling tick: the host runs the oldest deferred task. *)
Definition tick (cbIterator : StepCallback) (cbComplete : option CompleteCallback)
    (t : Traversal) : Traversal :=
  match t_queue t with
  | [] => t
  | task :: q =>
      let t' := mkTraversal (t_dict t) (t_closure t) (t_keys t) (t_counter t)
                  q (t_trace t) in
      end_of_task
        match task with
        | TStep => step cbIterator cbComplete t'
        | TAdvance => next cbComplete t'
        end
  end.

Fixpoint ticks (cbIterator : StepCallback) (cbComplete : option CompleteCallback)
    (n : nat) (t : Traversal) : Traversal :=
  match n with
  | O => t
  | Datatypes.S n' => ticks cbIterator cbComplete n' (tick cbIterator cbComplete t)
  end.

End Async.

Arguments mkStepOut {S} _ _ _.
Arguments so_state {S} _.
Arguments so_acts {S} _.
Arguments so_return {S} _.
Arguments mkTraversal {S} _ _ _ _ _ _.
Arguments t_dict {S} _.
Arguments t_closure {S} _.
Arguments t_keys {S} _.
Arguments t_counter {S} _.
Arguments t_queue {S} _.
Arguments t_trace {S} _.
Arguments lift_async {S A} _ _.
Arguments emit {S} _ _.
Arguments nextTick {S} _ _.
Arguments complete {S} _ _.
Arguments next {S} _ _.
Arguments run_acts {S} _ _ _.
Arguments call_iterator {S} _ _ _ _ _.
Arguments step {S} _ _ _.
Arguments halt {S} _ _.
Arguments end_of_executor {S} _.
Arguments end_of_task {S} _.
Arguments asyncForEach {S} _ _ _ _.
Arguments tick {S} _ _ _.
Arguments ticks {S} _ _ _ _.

(** The promise returned by [asyncForEach] is fulfilled once [resolve()] has
    been called, unless it was rejected before. *)
Fixpoint fulfilled (trace : list Event) : bool :=
  match trace with
  | [] => false
  | EvResolve :: _ => true
  | EvStep _ _ :: trace' => fulfilled trace'
  | EvComplete :: trace' => fulfilled trace'
  | _ :: _ => false
  end.

(** The step callback of [asyncEmpty]:
    [(key, value, next) => { this.remove(key); next(); }] *)
Definition asyncEmpty_callback : StepCallback unit :=
  fun _ _ key _ =>
    mkStepOut tt [ActOp (OpRemove (KStr key)); ActAdvance] VUndefined.

(** [asyncEmpty]: the traversal it awaits, whether it still awaits it, and
    its own completion notifications. *)
Record Emptying : Type := mkEmptying {
  e_traversal : Traversal unit;
  e_awaiting : bool;
  e_notified : list Event
}.

(** The code after [await]: it runs once the awaited promise is fulfilled. *)
Definition resume (cbComplete : option CompleteCallback) (e : Emptying)
  : Emptying :=
  if e_awaiting e && fulfilled (t_trace (e_traversal e)) then
    match cbComplete with
    | Some cb =>
        let t := e_traversal e in
        let (_, d) := run_script (cb (t_dict t)) (t_dict t) in
        mkEmptying
          (mkTraversal d (t_closure t) (t_keys t) (t_counter t) (t_queue t) (t_trace t))
          false (e_notified e ++ [EvComplete])
    | None => mkEmptying (e_traversal e) false (e_notified e ++ [EvResolve])
    end
  else e.

(** [asyncEmpty(cbComplete)] up to the end of the caller's frame. *)
Definition asyncEmpty (cbComplete : option CompleteCallback) (d : Dictionary)
  : Emptying :=
  match method "asyncEmpty" d with
  | (Ok _, _) =>
      resume cbComplete
        (mkEmptying (asyncForEach asyncEmpty_callback None tt d) true [])
  | (TypeError, _) => mkEmptying (mkTraversal d tt [] 0 [] []) false [EvThrow]
  | (Unmodelled, _) => mkEmptying (mkTraversal d tt [] 0 [] []) false [EvUnmodelled]
  end.

Definition asyncEmpty_tick (cbComplete : option CompleteCallback)
    (e : Emptying) : Emptying :=
  resume cbComplete
    (mkEmptying (tick asyncEmpty_callback None (e_traversal e))
       (e_awaiting e) (e_notified e)).

Fixpoint asyncEmpty_ticks (cbComplete : option CompleteCallback) (n : nat)
    (e : Emptying) : Emptying :=
  match n with
  | O => e
  | Datatypes.S n' => asyncEmpty_ticks cbComplete n' (asyncEmpty_tick cbComplete e)
  end.

(** ** Vocabulary of the properties *)

(** The state after a sequence of calls, each made by a caller that goes on
    after an exception.  It is the state the code is in when none of the
    calls goes through a stored function (see [keeps_members]). *)
Definition perform (os : list Op) (d : Dictionary) : Dictionary :=
  fold_left (fun d' o => snd (exec o d')) os d.

(** [name] can be called as a method of [d]. *)
Definition resolves (name : string) (d : Dictionary) : Prop :=
  fst (method name d) = Ok tt.

Definition contains_reserved (s : string) : bool :=
  (0 <=? indexOf s reserved)%Z.

(** Names the prototype chain answers to. *)
Definition member_name (s : string) : bool :=
  inherited_function s || String.eqb s "length" || String.eqb s "__proto__".

(** A name that neither contains the reserved identifier nor collides with
    a member. *)
Definition plain_name (s : string) : bool :=
  negb (contains_reserved s) && negb (member_name s).

Definition sets_plain (o : Op) : Prop :=
  match o with
  | OpSet k _ => plain_name (ToPropertyKey k) = true
  | _ => True
  end.

Definition sets_name (n : string) (o : Op) : Prop :=
  match o with
  | OpSet k _ => ToPropertyKey k = n
  | _ => False
  end.

(** A clean cache holds the current key list. *)
Definition cache_valid (d : Dictionary) : Prop :=
  invalidateKeys (__private__ d) = false ->
  forall ks, keys (__private__ d) = Some ks -> ks = Object_keys d.

(** Own names are distinct, none is the reserved one, and the cache is
    valid. *)
Definition well_formed (d : Dictionary) : Prop :=
  NoDup (own_keys d) /\ ~ In reserved (own_keys d) /\ cache_valid d
  /\ (forall ks, keys (__private__ d) = Some ks -> ~ In reserved ks).

(** States of an instance that the class's own interface can produce by
    calls none of which goes through a stored function: such a call is
    taken to leave the instance as it was. *)
Inductive reachable : Dictionary -> Prop :=
| reach_new (cache : bool) : reachable (new_Dictionary cache)
| reach_exec (d : Dictionary) (o : Op) :
    reachable d -> reachable (snd (exec o d))
| reach_empty (d : Dictionary) :
    reachable d -> reachable (snd (empty d))
| reach_clear (d : Dictionary) :
    reachable d -> reachable (snd (clear d))
| reach_each (d : Dictionary) (S : Type) (cb : EachCallback S) (st : S) :
    reachable d ->
    reachable (es_dict (snd (each cb (mkEachState d st []))))
| reach_forEach (d : Dictionary) (S : Type) (cb : EachCallback S) (st : S) :
    reachable d ->
    reachable (es_dict (snd (forEach cb (mkEachState d st []))))
| reach_asyncForEach (d : Dictionary) (S : Type) (cb : StepCallback S)
    (cbComplete : option CompleteCallback) (st : S) (n : nat) :
    reachable d ->
    reachable (t_dict (ticks cb cbComplete n (asyncForEach cb cbComplete st d)))
| reach_asyncEmpty (d : Dictionary) (cbComplete : option CompleteCallback) (n : nat) :
    reachable d ->
    reachable (t_dict (e_traversal (asyncEmpty_ticks cbComplete n (asyncEmpty cbComplete d)))).

Definition is_step (e : Event) : bool :=
  match e with EvStep _ _ => true | _ => false end.

(** Number of step-callback invocations in a trace. *)
Definition count_steps (trace : list Event) : nat :=
  List.length (filter is_step trace).

(** The completion notification of a traversal: the callback when one was
    supplied, the promise otherwise. *)
Definition notification (cbComplete : option CompleteCallback) : Event :=
  match cbComplete with
  | Some _ => EvComplete
  | None => EvResolve
  end.


(** A monadic computation keeps [P] when [P] survives it, whatever its
    outcome. *)
Definition keeps {A : Type} (P : Dictionary -> Prop) (m : M A) : Prop :=
  forall d, P d -> P (snd (m d)).

(** [d'] differs from [d] at most by a rebuilt key cache. *)
Definition reads (d d' : Dictionary) : Prop :=
  props d' = props d /\ proto_intact d' = proto_intact d
  /\ (__private__ d' = __private__ d
      \/ __private__ d' = mkInner (cacheKeys (__private__ d)) false (Some (Object_keys d))).

Definition readonly {A : Type} (m : M A) : Prop :=
  forall d, reads d (snd (m d)).

(** The same for a run whose state holds the instance at [proj]. *)
Definition keeps_on {St A : Type} (proj : St -> Dictionary)
    (P : Dictionary -> Prop) (m : StateM St A) : Prop :=
  forall s, P (proj s) -> P (proj (snd (m s))).

(** From a state in [P], the computation ends with a result and a state in
    [Q], or with an exception in a state in [E]. *)
Definition triple {A : Type} (P : Dictionary -> Prop) (m : M A)
    (Q : A -> Dictionary -> Prop) (E : Dictionary -> Prop) : Prop :=
  forall d, P d ->
    match m d with
    | (Ok a, d') => Q a d'
    | (_, d') => E d'
    end.

(** A property of the instance that no call of the interface breaks. *)
Definition invariant (P : Dictionary -> Prop) : Prop :=
  (forall d d', reads d d' -> P d -> P d') /\ (forall o, keeps P (exec o)).

Definition dirty (d : Dictionary) : Prop := invalidateKeys (__private__ d) = true.

(** No member is hidden by an own property: the prototype is in place and
    every own name is plain. *)
Definition plain_state (d : Dictionary) : Prop :=
  proto_intact d = true /\ Forall (fun k => plain_name k = true) (own_keys d).

(** The state after a successful [invalidate()]. *)
Definition invalidated (d : Dictionary) : Dictionary :=
  with_private d (mkInner (cacheKeys (__private__ d)) true (keys (__private__ d))).

(** Every own name is one of [L]. *)
Definition within (L : list string) (d : Dictionary) : Prop :=
  incl (own_keys d) L.

(** The names a sequence of calls gives to [set]. *)
Definition set_names (os : list Op) : list string :=
  flat_map (fun o => match o with OpSet k _ => [ToPropertyKey k] | _ => [] end) os.

(** A step of a traversal only appends events, all of them in [R], and
    leaves the captured key list alone. *)
Definition appends {S A : Type} (R : Event -> Prop)
    (m : StateM (Traversal S) A) : Prop :=
  forall t, exists l,
    t_trace (snd (m t)) = t_trace t ++ l /\ Forall R l
    /\ t_keys (snd (m t)) = t_keys t.

(** Events that report a failure. *)
Definition is_failure (e : Event) : Prop :=
  e = EvThrow \/ e = EvReject \/ e = EvUncaught \/ e = EvUnmodelled.

(** The visits one run of the loop of [each] can append, over the keys
    [for ... in] still has to enumerate: a key is skipped, or visited; after
    a visit the loop goes on unless the callback threw or returned [false]. *)
Inductive loop_log : list string -> list Visit -> Prop :=
| loop_end (ks : list string) : loop_log ks []
| loop_skip (k : string) (ks : list string) (l : list Visit) :
    loop_log ks l -> loop_log (k :: ks) l
| loop_stop (k : string) (ks : list string) (v : JsVal) (r : option JsVal) :
    contains_reserved k = false ->
    (forall x, r = Some x -> strict_eq_false x = true) ->
    loop_log (k :: ks) [mkVisit k v r]
| loop_continue (k : string) (ks : list string) (v x : JsVal) (l : list Visit) :
    contains_reserved k = false ->
    strict_eq_false x = false ->
    loop_log ks l ->
    loop_log (k :: ks) (mkVisit k v (Some x) :: l).

(** The names [has] accepts among those listed. *)
Definition accepted (ks : list string) : list string :=
  filter (fun k => negb (contains_reserved k)) ks.

(** The state of a traversal when the step callback has been entered on
    the key at the cursor, with value [v], the container being [d] and the
    closure [st]. *)
Definition entered {S : Type} (t : Traversal S) (v : JsVal) (d : Dictionary)
    (st : S) : Traversal S :=
  mkTraversal d st (t_keys t) (Datatypes.S (t_counter t)) (t_queue t)
    (t_trace t ++ [EvStep (nth (t_counter t) (t_keys t) "") v]).

(** The state after [remove] has succeeded on each of the keys [l] in turn. *)
Definition removed (l : list string) (d : Dictionary) : Dictionary :=
  fold_left (fun d' k => with_props (invalidated d') (erase k (props d'))) l d.

(** The value stored under [k], [undefined] when there is none. *)
Definition stored (d : Dictionary) (k : string) : JsVal :=
  match lookup k (props d) with
  | Some v => v
  | None => VUndefined
  end.

(** The steps of a traversal over the keys [l], each with its stored value. *)
Definition steps_of (d : Dictionary) (l : list string) : list Event :=
  map (fun k => EvStep k (stored d k)) l.

(** The traversal of [asyncEmpty] over the keys [ks] of [d] once [i]
    scheduling ticks have passed: [min (i + 1) (length ks)] keys are
    removed, and either the next step is queued or the promise is
    resolved. *)
Definition emptying_stage (d : Dictionary) (ks : list string) (i : nat)
  : Traversal unit :=
  let j := Nat.min (Datatypes.S i) (List.length ks) in
  mkTraversal (removed (firstn j ks) d) tt ks j
    (if Nat.ltb j (List.length ks) then [TStep] else [])
    (steps_of d (firstn j ks)
     ++ if Nat.ltb j (List.length ks) then [] else [EvResolve]).

(** Every event so far is in [ok] and every captured key in [okkey]. *)
Definition good_traversal {S : Type} (ok : Event -> Prop) (okkey : string -> Prop)
    (t : Traversal S) : Prop :=
  Forall ok (t_trace t) /\ Forall okkey (t_keys t).

(** No own property is named [length]. *)
Definition no_length (d : Dictionary) : Prop := ~ In "length" (own_keys d).

(** What [has] answers when it can be called. *)
Definition has_answer (key : JsKey) (d : Dictionary) : bool :=
  match key with
  | KStr s =>
      negb (contains_reserved s)
      && match lookup s (props d) with Some _ => true | None => false end
  | _ => false
  end.

(** The own properties an assignment [this[k] = v] leaves, on an instance
    whose prototype is in place: a stored name is overwritten, the names
    [__private__], [length] and [__proto__] store nothing, any other name is
    added. *)
Definition put_props (k : string) (v : JsVal) (ps : list (string * JsVal))
  : list (string * JsVal) :=
  match lookup k ps with
  | Some _ => assign k v ps
  | None =>
      if String.eqb k reserved || String.eqb k "length" || String.eqb k "__proto__"
      then ps
      else assign k v ps
  end.

(** [d'] holds the storage of [d] and the same caching mode, and is [d]
    itself when keys are not cached. *)
Definition untouched (d d' : Dictionary) : Prop :=
  props d' = props d /\ proto_intact d' = proto_intact d
  /\ cacheKeys (__private__ d') = cacheKeys (__private__ d)
  /\ (cacheKeys (__private__ d) = false -> d' = d).

(** Without caching the computation hands the instance back as it got it. *)
Definition frozen {A : Type} (m : M A) : Prop :=
  forall d, cacheKeys (__private__ d) = false -> snd (m d) = d.

(** Two instances with the same own properties and prototype. *)
Definition same_storage (d1 d2 : Dictionary) : Prop :=
  props d1 = props d2 /\ proto_intact d1 = proto_intact d2.

(** The computation does the same to the storage of two such instances. *)
Definition tracks {A : Type} (m : M A) : Prop :=
  forall d1 d2, same_storage d1 d2 ->
    fst (m d1) = fst (m d2) /\ same_storage (snd (m d1)) (snd (m d2)).

(** The computation answers the same on two such well-formed instances. *)
Definition agrees {A : Type} (m : M A) : Prop :=
  forall d1 d2, well_formed d1 -> well_formed d2 -> same_storage d1 d2 ->
    fst (m d1) = fst (m d2).

(** The completion callback, when there is one, returns normally. *)
Definition completes_quietly (cbComplete : option CompleteCallback) : Prop :=
  match cbComplete with
  | Some c => forall d, fst (run_script (c d) d) = Ok tt
  | None => True
  end.

(** A traversal over the keys [ks] of [d], bound to visit the first
    [total] of them, whose cursor is at [j]: before the end the next step is
    queued and the keys before the cursor have been visited; at the end
    nothing is queued and the completion has been notified after the last
    visit. *)
Definition at_stage {S : Type} (d : Dictionary) (ks : list string)
    (cbComplete : option CompleteCallback) (total j : nat) (t : Traversal S)
  : Prop :=
  t_keys t = ks /\ t_counter t = j
  /\ if Nat.ltb j total
     then t_dict t = d /\ t_queue t = [TStep]
          /\ t_trace t = steps_of d (firstn j ks)
     else t_queue t = []
          /\ t_trace t = steps_of d (firstn total ks) ++ [notification cbComplete].

(** The keys on which the step callback was entered, in order. *)
Definition keys_visited (trace : list Event) : list string :=
  flat_map (fun e => match e with EvStep k _ => [k] | _ => [] end) trace.

(** A computation of a traversal that moves neither the captured keys nor
    the cursor and enters no step callback. *)
Definition steady {S A : Type} (m : StateM (Traversal S) A) : Prop :=
  forall t,
    t_keys (snd (m t)) = t_keys t /\ t_counter (snd (m t)) = t_counter t
    /\ keys_visited (t_trace (snd (m t))) = keys_visited (t_trace t).

(** The keys visited so far are the captured keys before the cursor. *)
Definition on_course {S : Type} (t : Traversal S) : Prop :=
  keys_visited (t_trace t) = firstn (t_counter t) (t_keys t).

(** The same, or the traversal has come to rest after visiting the keys
    before some position. *)
Definition on_course_or_at_rest {S : Type} (t : Traversal S) : Prop :=
  on_course t
  \/ (t_queue t = [] /\ exists c, keys_visited (t_trace t) = firstn c (t_keys t)).

(** [l1] is [l2] with some elements left out. *)
Inductive subsequence : list string -> list string -> Prop :=
| sub_nil (l : list string) : subsequence [] l
| sub_skip (a : string) (l1 l2 : list string) :
    subsequence l1 l2 -> subsequence l1 (a :: l2)
| sub_take (a : string) (l1 l2 : list string) :
    subsequence l1 l2 -> subsequence (a :: l1) (a :: l2).

(** The call stores no function under the name of a member of the
    prototype chain, so that no later call goes through a stored function. *)
Definition keeps_members (o : Op) : Prop :=
  match o with
  | OpSet k v => callable v = true -> member_name (ToPropertyKey k) = false
  | _ => True
  end.

(** The call does not store the instance's internal record. *)
Definition stores_no_record (o : Op) : Prop :=
  match o with
  | OpSet _ v => v <> VObj OInner
  | _ => True
  end.

(** The prototype is in place and no function is stored under the name of
    a member: every call of a member is the member's own code, or throws
    because a value that is not a function hides it. *)
Definition no_stored_method (d : Dictionary) : Prop :=
  proto_intact d = true
  /\ forall name v, lookup name (props d) = Some v -> member_name name = true ->
                    callable v = false.

(** The computation stays within the embedding on such an instance. *)
Definition inside {A : Type} (m : M A) : Prop :=
  forall d, no_stored_method d -> fst (m d) <> Unmodelled.

(** The query [m] returns or throws a [TypeError] on [d], within the
    embedding, and leaves [d] untouched. *)
Definition quiet_query {A : Type} (m : M A) (d : Dictionary) : Prop :=
  fst (m d) <> Unmodelled /\ untouched d (snd (m d)).

(** * Properties *)

(** ** Own properties *)

Lemma lookup_In (k : string) (ps : list (string * JsVal)) :
  lookup k ps <> None <-> In k (map fst ps).
Proof.
  induction ps as [|[k' v] ps IH]; simpl.
  - split; [congruence | tauto].
  - destruct (String.eqb_spec k k') as [->|Hne].
    + split; [auto | discriminate].
    + rewrite IH. split; [auto | intros [E|H]; [congruence | assumption]].
Qed.

Lemma lookup_None (k : string) (ps : list (string * JsVal)) :
  lookup k ps = None <-> ~ In k (map fst ps).
Proof.
  rewrite <- lookup_In. destruct (lookup k ps) as [v|].
  - split; [discriminate | intros H; exfalso; apply H; discriminate].
  - split; [intros _ H; now apply H | reflexivity].
Qed.

Lemma lookup_Some_In (k : string) (v : JsVal) (ps : list (string * JsVal)) :
  lookup k ps = Some v -> In k (map fst ps).
Proof. intros H. apply lookup_In. congruence. Qed.

Lemma lookup_assign_same (k : string) (v : JsVal) (ps : list (string * JsVal)) :
  lookup k (assign k v ps) = Some v.
Proof.
  induction ps as [|[k' v'] ps IH]; simpl.
  - now rewrite String.eqb_refl.
  - destruct (String.eqb_spec k k') as [->|Hne]; simpl.
    + now rewrite String.eqb_refl.
    + destruct (String.eqb_spec k k'); [contradiction | assumption].
Qed.

Lemma lookup_assign_other (k k' : string) (v : JsVal) (ps : list (string * JsVal)) :
  k' <> k -> lookup k' (assign k v ps) = lookup k' ps.
Proof.
  intros Hne. induction ps as [|[k0 v0] ps IH]; simpl.
  - destruct (String.eqb_spec k' k); [contradiction | reflexivity].
  - destruct (String.eqb_spec k k0) as [->|Hk]; simpl.
    + destruct (String.eqb_spec k' k0); [contradiction | reflexivity].
    + destruct (String.eqb_spec k' k0); [reflexivity | assumption].
Qed.

Lemma keys_assign_present (k : string) (v : JsVal) (ps : list (string * JsVal)) :
  In k (map fst ps) -> map fst (assign k v ps) = map fst ps.
Proof.
  induction ps as [|[k0 v0] ps IH]; simpl; [tauto|].
  intros H. destruct (String.eqb_spec k k0) as [->|Hk]; simpl; [reflexivity|].
  f_equal. apply IH. destruct H; [congruence | assumption].
Qed.

Lemma keys_assign_absent (k : string) (v : JsVal) (ps : list (string * JsVal)) :
  ~ In k (map fst ps) -> map fst (assign k v ps) = map fst ps ++ [k].
Proof.
  induction ps as [|[k0 v0] ps IH]; simpl; [reflexivity|].
  intros H. destruct (String.eqb_spec k k0) as [->|Hk]; simpl; [tauto|].
  f_equal. apply IH. tauto.
Qed.

Lemma In_keys_assign (k k' : string) (v : JsVal) (ps : list (string * JsVal)) :
  In k' (map fst (assign k v ps)) <-> k' = k \/ In k' (map fst ps).
Proof.
  destruct (in_dec string_dec k (map fst ps)) as [Hin|Hout].
  - rewrite keys_assign_present by assumption.
    split; [auto | intros [->|H]; assumption].
  - rewrite keys_assign_absent by assumption.
    rewrite in_app_iff; simpl. intuition congruence.
Qed.

Lemma NoDup_keys_assign (k : string) (v : JsVal) (ps : list (string * JsVal)) :
  NoDup (map fst ps) -> NoDup (map fst (assign k v ps)).
Proof.
  intros H. destruct (in_dec string_dec k (map fst ps)) as [Hin|Hout].
  - now rewrite keys_assign_present.
  - rewrite keys_assign_absent by assumption.
    apply NoDup_app; [assumption | repeat constructor; simpl; tauto |].
    intros x Hx [<-|[]]. contradiction.
Qed.

Lemma In_keys_erase (k k' : string) (ps : list (string * JsVal)) :
  In k' (map fst (erase k ps)) -> In k' (map fst ps).
Proof.
  induction ps as [|[k0 v0] ps IH]; simpl; [tauto|].
  destruct (String.eqb_spec k k0); simpl; intuition.
Qed.

Lemma NoDup_keys_erase (k : string) (ps : list (string * JsVal)) :
  NoDup (map fst ps) -> NoDup (map fst (erase k ps)).
Proof.
  induction ps as [|[k0 v0] ps IH]; simpl; [auto|].
  intros H. inversion H as [|? ? Hn Hd]; subst.
  destruct (String.eqb_spec k k0); simpl; [assumption|].
  constructor; [|auto]. intros Hin. apply Hn. eapply In_keys_erase; eauto.
Qed.

Lemma In_keys_erase_iff (k k' : string) (ps : list (string * JsVal)) :
  NoDup (map fst ps) ->
  In k' (map fst (erase k ps)) <-> k' <> k /\ In k' (map fst ps).
Proof.
  induction ps as [|[k0 v0] ps IH]; simpl; [tauto|].
  intros H. inversion H as [|? ? Hn Hd]; subst.
  destruct (String.eqb_spec k k0) as [->|Hk]; simpl.
  - split.
    + intros Hin. split; [intros -> ; contradiction | auto].
    + intros [Hne [E|Hin]]; [congruence | assumption].
  - rewrite IH by assumption. intuition congruence.
Qed.

Lemma erase_head (k : string) (v : JsVal) (ps : list (string * JsVal)) :
  erase k ((k, v) :: ps) = ps.
Proof. simpl. now rewrite String.eqb_refl. Qed.

(** ** [Object.keys] lists the own names, each once *)

Lemma insert_index_perm (x : N * string) (l : list (N * string)) :
  Permutation (insert_index x l) (x :: l).
Proof.
  induction l as [|y l IH]; simpl; [reflexivity|].
  destruct (fst x <=? fst y)%N; [reflexivity|].
  rewrite IH. apply perm_swap.
Qed.

Lemma sort_index_perm (l : list (N * string)) : Permutation (sort_index l) l.
Proof.
  induction l as [|x l IH]; simpl; [reflexivity|].
  rewrite insert_index_perm. now constructor.
Qed.

Lemma index_keys_filter (ks : list string) :
  map snd (index_keys ks) = filter (fun k => negb (is_name k)) ks.
Proof.
  induction ks as [|k ks IH]; simpl; [reflexivity|].
  unfold is_name. destruct (array_index k); simpl; now rewrite IH.
Qed.

Lemma filter_split_perm {A : Type} (f : A -> bool) (l : list A) :
  Permutation (filter (fun a => negb (f a)) l ++ filter f l) l.
Proof.
  induction l as [|a l IH]; simpl; [reflexivity|].
  destruct (f a); simpl.
  - rewrite <- Permutation_middle. now constructor.
  - now constructor.
Qed.

Lemma Object_keys_perm (d : Dictionary) : Permutation (Object_keys d) (own_keys d).
Proof.
  unfold Object_keys.
  rewrite (Permutation_map snd (sort_index_perm _)), index_keys_filter.
  apply filter_split_perm.
Qed.

Lemma In_Object_keys (d : Dictionary) (k : string) :
  In k (Object_keys d) <-> In k (own_keys d).
Proof.
  split; apply Permutation_in;
    [apply Object_keys_perm | symmetry; apply Object_keys_perm].
Qed.

Lemma NoDup_Object_keys (d : Dictionary) :
  NoDup (own_keys d) -> NoDup (Object_keys d).
Proof.
  apply Permutation_NoDup. symmetry. apply Object_keys_perm.
Qed.

Lemma Object_keys_props (d d' : Dictionary) :
  props d' = props d -> Object_keys d' = Object_keys d.
Proof. unfold Object_keys, own_keys. now intros ->. Qed.

Lemma Object_keys_nil (d : Dictionary) : props d = [] -> Object_keys d = [].
Proof. unfold Object_keys, own_keys. now intros ->. Qed.

(** ** Calling a method *)

Lemma method_state (name : string) (d : Dictionary) : snd (method name d) = d.
Proof.
  unfold method. destruct (lookup name (props d)) as [v|].
  - now destruct (callable v).
  - now destruct (proto_intact d).
Qed.

Lemma method_resolved (name : string) (d : Dictionary) :
  resolves name d -> method name d = (Ok tt, d).
Proof.
  unfold resolves. intros H. rewrite (surjective_pairing (method name d)).
  now rewrite H, method_state.
Qed.

Lemma resolves_iff (name : string) (d : Dictionary) :
  resolves name d <-> lookup name (props d) = None /\ proto_intact d = true.
Proof.
  unfold resolves, method. destruct (lookup name (props d)) as [v|].
  - destruct (callable v); simpl; split; [discriminate | intros [? _]; discriminate
                                        | discriminate | intros [? _]; discriminate].
  - destruct (proto_intact d); simpl; split; auto; try discriminate.
    intros [_ ?]; discriminate.
Qed.

Lemma resolves_reads (name : string) (d d' : Dictionary) :
  reads d d' -> resolves name d -> resolves name d'.
Proof.
  intros (Hp & Hq & _). rewrite !resolves_iff. now rewrite Hp, Hq.
Qed.

(** ** Rules for [keeps] and [readonly] *)

Lemma bind_state {A B : Type} (m : M A) (k : A -> M B) (d : Dictionary) :
  snd (bind m k d) = snd (m d)
  \/ exists a, fst (m d) = Ok a /\ snd (bind m k d) = snd (k a (snd (m d))).
Proof.
  unfold bind. destruct (m d) as [[a| |] d']; simpl; eauto.
Qed.

Lemma keeps_ret {A : Type} (P : Dictionary -> Prop) (a : A) : keeps P (ret a).
Proof. intros d H. exact H. Qed.

Lemma keeps_bind {A B : Type} (P : Dictionary -> Prop) (m : M A) (k : A -> M B) :
  keeps P m -> (forall a, keeps P (k a)) -> keeps P (bind m k).
Proof.
  intros Hm Hk d H.
  destruct (bind_state m k d) as [->|(a & _ & ->)]; [now apply Hm|].
  apply Hk. now apply Hm.
Qed.

Lemma keeps_method (P : Dictionary -> Prop) (name : string) : keeps P (method name).
Proof. intros d H. now rewrite method_state. Qed.

Lemma keeps_mapM {A B : Type} (P : Dictionary -> Prop) (f : A -> M B) (l : list A) :
  (forall a, keeps P (f a)) -> keeps P (mapM f l).
Proof.
  intros Hf. induction l as [|a l IH]; simpl.
  - apply keeps_ret.
  - apply keeps_bind; [apply Hf|]. intros b.
    apply keeps_bind; [apply IH|]. intros bs. apply keeps_ret.
Qed.

Lemma keeps_discard {A : Type} (P : Dictionary -> Prop) (m : M A) :
  keeps P m -> keeps P (discard m).
Proof.
  intros H. unfold discard. apply keeps_bind; [assumption|].
  intros a. apply keeps_ret.
Qed.

Lemma reads_refl (d : Dictionary) : reads d d.
Proof. unfold reads. auto. Qed.

Lemma reads_trans (d1 d2 d3 : Dictionary) :
  reads d1 d2 -> reads d2 d3 -> reads d1 d3.
Proof.
  intros (Hp & Hq & Hi) (Hp' & Hq' & Hi').
  split; [congruence|]. split; [congruence|].
  destruct Hi' as [E|E]; rewrite E.
  - exact Hi.
  - right. rewrite (Object_keys_props _ _ Hp).
    destruct Hi as [->| ->]; reflexivity.
Qed.

(** A computation is read-only exactly when it keeps every property that
    [reads] cannot break. *)
Lemma readonly_keeps {A : Type} (m : M A) :
  readonly m <-> forall d0, keeps (reads d0) m.
Proof.
  split.
  - intros H d0 d Hd. eapply reads_trans; [exact Hd | apply H].
  - intros H d. apply H. apply reads_refl.
Qed.

Lemma readonly_ret {A : Type} (a : A) : readonly (@ret Dictionary A a).
Proof. intros d. apply reads_refl. Qed.

Lemma readonly_bind {A B : Type} (m : M A) (k : A -> M B) :
  readonly m -> (forall a, readonly (k a)) -> readonly (bind m k).
Proof.
  rewrite !readonly_keeps. intros Hm Hk d0.
  apply keeps_bind; [apply Hm|]. intros a.
  specialize (Hk a). rewrite readonly_keeps in Hk. apply Hk.
Qed.

Lemma readonly_method (name : string) : readonly (method name).
Proof. intros d. rewrite method_state. apply reads_refl. Qed.

Lemma readonly_mapM {A B : Type} (f : A -> M B) (l : list A) :
  (forall a, readonly (f a)) -> readonly (mapM f l).
Proof.
  intros Hf. rewrite readonly_keeps. intros d0. apply keeps_mapM.
  intros a. specialize (Hf a). rewrite readonly_keeps in Hf. apply Hf.
Qed.

Lemma readonly_discard {A : Type} (m : M A) : readonly m -> readonly (discard m).
Proof.
  intros H. unfold discard. apply readonly_bind; [assumption|].
  intros a. apply readonly_ret.
Qed.

Lemma readonly_getKeys : readonly getKeys.
Proof.
  unfold getKeys. apply readonly_bind; [apply readonly_method|].
  intros _ d.
  destruct (cacheKeys (__private__ d)) eqn:E1, (invalidateKeys (__private__ d)) eqn:E2,
    (keys (__private__ d)) eqn:E3; simpl;
    solve [apply reads_refl | unfold reads; simpl; rewrite E1; auto].
Qed.

Lemma readonly_size : readonly size.
Proof.
  unfold size. apply readonly_bind; [apply readonly_method|]. intros _.
  apply readonly_bind; [apply readonly_getKeys|]. intros ks. apply readonly_ret.
Qed.

Lemma readonly_Get (k : string) : readonly (Get k).
Proof.
  intros d. unfold Get. destruct (lookup k (props d)); [apply reads_refl|].
  destruct (String.eqb k reserved); [apply reads_refl|].
  destruct (proto_intact d); [|apply reads_refl].
  destruct (String.eqb k "length").
  - apply (readonly_bind get_length); [apply readonly_size|].
    intros n. apply readonly_ret.
  - destruct (String.eqb k "__proto__"); [apply reads_refl|].
    destruct (inherited_function k); apply reads_refl.
Qed.

Lemma readonly_hasOwnProperty (k : string) : readonly (hasOwnProperty k).
Proof.
  unfold hasOwnProperty. apply readonly_bind; [apply readonly_method|].
  intros _ d. apply reads_refl.
Qed.

Lemma readonly_has (key : JsKey) : readonly (has key).
Proof.
  unfold has. apply readonly_bind; [apply readonly_method|]. intros _.
  destruct key as [| |s]; try apply readonly_ret.
  destruct (0 <=? indexOf s reserved)%Z;
    [apply readonly_ret | apply readonly_hasOwnProperty].
Qed.

Lemma readonly_get (key : JsKey) : readonly (get key).
Proof.
  unfold get. apply readonly_bind; [apply readonly_method|].
  intros _. apply readonly_Get.
Qed.

Lemma readonly_getDefault (key : JsKey) (v : JsVal) : readonly (getDefault key v).
Proof.
  unfold getDefault. apply readonly_bind; [apply readonly_method|]. intros _.
  apply readonly_bind; [apply readonly_has|].
  intros [|]; [apply readonly_Get | apply readonly_ret].
Qed.

Lemma readonly_values : readonly values.
Proof.
  unfold values. apply readonly_bind; [apply readonly_method|]. intros _.
  apply readonly_bind; [apply readonly_getKeys|]. intros ks.
  apply readonly_mapM. intros i. apply readonly_Get.
Qed.

Lemma readonly_entries : readonly entries.
Proof.
  unfold entries. apply readonly_bind; [apply readonly_method|]. intros _.
  apply readonly_bind; [apply readonly_getKeys|]. intros ks.
  apply readonly_mapM. intros k.
  apply readonly_bind; [apply readonly_Get|]. intros v. apply readonly_ret.
Qed.

Lemma readonly_keys_alias : readonly keys_alias.
Proof.
  unfold keys_alias. apply readonly_bind; [apply readonly_method|].
  intros _. apply readonly_getKeys.
Qed.

(** Every call except [set], [remove] and [invalidate] is read-only. *)
Lemma exec_reads (o : Op) :
  match o with
  | OpSet _ _ | OpRemove _ | OpInvalidate => True
  | _ => readonly (exec o)
  end.
Proof.
  destruct o; simpl; auto; apply readonly_discard;
    auto using readonly_getKeys, readonly_keys_alias, readonly_size, readonly_Get,
      readonly_has, readonly_get, readonly_getDefault, readonly_values,
      readonly_entries.
Qed.

Lemma keeps_of_readonly {A : Type} (P : Dictionary -> Prop) (m : M A) :
  (forall d d', reads d d' -> P d -> P d') -> readonly m -> keeps P m.
Proof. intros HP Hm d H. eapply HP; [apply Hm | exact H]. Qed.

Lemma keeps_on_ret {St A : Type} (proj : St -> Dictionary) (P : Dictionary -> Prop)
    (a : A) : keeps_on proj P (ret a).
Proof. intros s H. exact H. Qed.

Lemma keeps_on_bind {St A B : Type} (proj : St -> Dictionary) (P : Dictionary -> Prop)
    (m : StateM St A) (k : A -> StateM St B) :
  keeps_on proj P m -> (forall a, keeps_on proj P (k a)) -> keeps_on proj P (bind m k).
Proof.
  intros Hm Hk s H. specialize (Hm s H). unfold bind.
  destruct (m s) as [[a| |] s']; simpl in *; auto. now apply Hk.
Qed.

(** ** Rules for [triple] *)

Lemma triple_bind {A B : Type} (P : Dictionary -> Prop) (m : M A) (k : A -> M B)
    (R : A -> Dictionary -> Prop) (Q : B -> Dictionary -> Prop)
    (E : Dictionary -> Prop) :
  triple P m R E -> (forall a, triple (R a) (k a) Q E) -> triple P (bind m k) Q E.
Proof.
  intros Hm Hk d H. specialize (Hm d H). unfold bind.
  destruct (m d) as [[a| |] d']; auto. now apply Hk.
Qed.

Lemma triple_method (P : Dictionary -> Prop) (name : string) :
  triple P (method name) (fun _ d => P d /\ resolves name d) P.
Proof.
  intros d H. pose proof (method_state name d) as Hs.
  destruct (method name d) as [[[]| |] d'] eqn:E; simpl in Hs; subst d'; auto.
  split; [assumption|]. unfold resolves. now rewrite E.
Qed.

Lemma triple_keeps {A : Type} (P : Dictionary -> Prop) (m : M A) :
  triple P m (fun _ => P) P -> keeps P m.
Proof.
  intros H d Hd. specialize (H d Hd). now destruct (m d) as [[a| |] d'].
Qed.

Lemma triple_conseq {A : Type} (P P' : Dictionary -> Prop) (m : M A)
    (Q Q' : A -> Dictionary -> Prop) (E E' : Dictionary -> Prop) :
  triple P m Q E -> (forall d, P' d -> P d) ->
  (forall a d, Q a d -> Q' a d) -> (forall d, E d -> E' d) ->
  triple P' m Q' E'.
Proof.
  intros H HP HQ HE d Hd. specialize (H d (HP d Hd)).
  destruct (m d) as [[a| |] d']; auto.
Qed.

(** ** Well-formedness is an invariant *)

Lemma well_formed_new (cache : bool) : well_formed (new_Dictionary cache).
Proof.
  unfold well_formed, cache_valid; simpl.
  repeat split; try constructor; try tauto; discriminate.
Qed.

Lemma well_formed_reads (d d' : Dictionary) :
  reads d d' -> well_formed d -> well_formed d'.
Proof.
  intros (Hp & _ & Hi) (Hn & Hr & Hc & Hk).
  unfold well_formed, cache_valid, own_keys in *.
  rewrite (Object_keys_props _ _ Hp), Hp.
  repeat split; try assumption.
  - destruct Hi as [->| ->]; [exact Hc|]. simpl. congruence.
  - destruct Hi as [->| ->]; [exact Hk|]. simpl.
    intros ks [= <-]. now rewrite In_Object_keys.
Qed.

Lemma invalidate_triple :
  triple well_formed invalidate (fun _ d => well_formed d /\ dirty d) well_formed.
Proof.
  unfold invalidate.
  eapply triple_bind; [apply triple_method|].
  intros _ d [(Hn & Hr & Hc & Hk) _]. simpl.
  unfold well_formed, cache_valid, dirty; simpl.
  repeat split; try assumption. discriminate.
Qed.

Lemma Put_triple (k : string) (v : JsVal) :
  triple (fun d => well_formed d /\ dirty d) (Put k v)
    (fun _ => well_formed) well_formed.
Proof.
  intros d [(Hn & Hr & Hc & Hk) Hd]. unfold Put.
  assert (Hset : k <> reserved ->
                 well_formed (with_props d (assign k v (props d)))).
  { intros Hne. unfold well_formed, cache_valid, own_keys; simpl.
    repeat split.
    - now apply NoDup_keys_assign.
    - rewrite In_keys_assign. intros [E|H]; [congruence | contradiction].
    - unfold dirty in Hd. congruence.
    - exact Hk. }
  destruct (lookup k (props d)) eqn:El.
  - apply Hset. intros ->. apply Hr. eapply lookup_Some_In; eauto.
  - destruct (String.eqb_spec k reserved) as [->|Hne].
    + repeat split; assumption.
    + destruct (proto_intact d); [|repeat split; assumption].
      destruct (String.eqb k "length"); [repeat split; assumption|].
      destruct (String.eqb k "__proto__"); [|now apply Hset].
      destruct v as [| | | | |[]]; repeat split; assumption.
Qed.

Lemma Delete_triple (k : string) :
  triple (fun d => well_formed d /\ dirty d) (Delete k)
    (fun _ => well_formed) well_formed.
Proof.
  intros d [(Hn & Hr & Hc & Hk) Hd]. unfold Delete.
  destruct (lookup k (props d)).
  - unfold well_formed, cache_valid, own_keys; simpl. repeat split.
    + now apply NoDup_keys_erase.
    + intros H. apply Hr. eapply In_keys_erase; eauto.
    + unfold dirty in Hd. congruence.
    + exact Hk.
  - destruct (String.eqb k reserved); repeat split; assumption.
Qed.

Lemma set_keeps_well_formed (key : JsKey) (v : JsVal) :
  keeps well_formed (set key v).
Proof.
  apply triple_keeps. unfold set.
  eapply triple_bind; [apply triple_method|]. intros u.
  apply triple_bind with (R := fun _ d => well_formed d /\ dirty d).
  - eapply triple_conseq; [apply invalidate_triple | | |]; simpl; intros; tauto.
  - intros u'. simpl. apply Put_triple.
Qed.

Lemma remove_keeps_well_formed (key : JsKey) : keeps well_formed (remove key).
Proof.
  apply triple_keeps. unfold remove.
  eapply triple_bind; [apply triple_method|]. intros u.
  apply triple_bind with (R := fun _ d => well_formed d /\ dirty d).
  - eapply triple_conseq; [apply invalidate_triple | | |]; simpl; intros; tauto.
  - intros u'. simpl. apply Delete_triple.
Qed.

Lemma invalidate_keeps_well_formed : keeps well_formed invalidate.
Proof.
  apply triple_keeps.
  eapply triple_conseq; [apply invalidate_triple | | |]; simpl; intros; tauto.
Qed.

Lemma well_formed_invariant : invariant well_formed.
Proof.
  split; [exact well_formed_reads|].
  intros o. pose proof (exec_reads o) as Hr.
  destruct o; simpl in *;
    try (apply keeps_of_readonly; [exact well_formed_reads | exact Hr]).
  - apply set_keeps_well_formed.
  - apply remove_keeps_well_formed.
  - apply invalidate_keeps_well_formed.
Qed.

(** ** An invariant survives every iteration protocol *)

Section Invariant.

Variable P : Dictionary -> Prop.
Hypothesis HP : invariant P.

Lemma invariant_exec (o : Op) : keeps P (exec o).
Proof. apply HP. Qed.

Lemma invariant_readonly {A : Type} (m : M A) : readonly m -> keeps P m.
Proof. apply keeps_of_readonly. apply HP. Qed.

Lemma invariant_run_script (os : list Op) : keeps P (run_script os).
Proof.
  induction os as [|o os IH]; simpl.
  - apply keeps_ret.
  - apply keeps_bind; [apply invariant_exec | intros _; exact IH].
Qed.

Lemma invariant_perform (os : list Op) (d : Dictionary) :
  P d -> P (perform os d).
Proof.
  revert d. induction os as [|o os IH]; simpl; intros d H; [exact H|].
  apply IH. now apply invariant_exec.
Qed.

Section InEach.

Variable S : Type.

Lemma lift_each_keeps {A : Type} (m : M A) :
  keeps P m -> keeps_on (@es_dict S) P (lift_each m).
Proof.
  intros H s Hs. unfold lift_each. specialize (H _ Hs).
  now destruct (m (es_dict s)).
Qed.

Lemma call_each_keeps (cb : EachCallback S) (k : string) (v : JsVal) :
  keeps_on es_dict P (call_each cb k v).
Proof.
  intros s Hs. unfold call_each.
  pose proof (invariant_run_script
                (eo_script (cb (es_closure s) (es_dict s) k v)) _ Hs) as H.
  now destruct (run_script _ (es_dict s)) as [[u| |] d'].
Qed.

Lemma each_loop_keeps (cb : EachCallback S) (ks : list string) :
  keeps_on es_dict P (each_loop cb ks).
Proof.
  induction ks as [|k ks IH]; cbn [each_loop]; [apply keeps_on_ret|].
  intros s Hs. destruct (lookup k (props (es_dict s))); [|now apply IH].
  revert s Hs. apply keeps_on_bind.
  - apply lift_each_keeps, invariant_readonly, readonly_has.
  - intros [|]; [|exact IH].
    apply keeps_on_bind.
    + apply lift_each_keeps, invariant_readonly, readonly_Get.
    + intros v. apply keeps_on_bind; [apply call_each_keeps|].
      intros r. destruct (strict_eq_false r); [apply keeps_on_ret | exact IH].
Qed.

Lemma each_keeps (cb : EachCallback S) : keeps_on es_dict P (each cb).
Proof.
  unfold each. apply keeps_on_bind.
  - apply lift_each_keeps, keeps_method.
  - intros _ s Hs. now apply each_loop_keeps.
Qed.

Lemma forEach_keeps (cb : EachCallback S) : keeps_on es_dict P (forEach cb).
Proof.
  unfold forEach. apply keeps_on_bind.
  - apply lift_each_keeps, keeps_method.
  - intros _. apply each_keeps.
Qed.

End InEach.

Lemma empty_keeps : keeps P empty.
Proof.
  unfold empty. apply keeps_bind; [apply keeps_method|].
  intros _ d Hd.
  pose proof (forEach_keeps unit empty_callback (mkEachState d tt []) Hd) as H.
  now destruct (forEach empty_callback (mkEachState d tt [])).
Qed.

Lemma clear_keeps : keeps P clear.
Proof.
  unfold clear. apply keeps_bind; [apply keeps_method | intros _; apply empty_keeps].
Qed.

Section InAsync.

Variable S : Type.
Variable cbIterator : StepCallback S.
Variable cbComplete : option CompleteCallback.

Lemma lift_async_keeps {A : Type} (m : M A) :
  keeps P m -> keeps_on (@t_dict S) P (lift_async m).
Proof.
  intros H t Ht. unfold lift_async. specialize (H _ Ht).
  now destruct (m (t_dict t)).
Qed.

Lemma emit_keeps (e : Event) : keeps_on (@t_dict S) P (emit e).
Proof. intros t Ht. exact Ht. Qed.

Lemma nextTick_keeps (task : Task) : keeps_on (@t_dict S) P (nextTick task).
Proof. intros t Ht. exact Ht. Qed.

Lemma complete_keeps : keeps_on (@t_dict S) P (complete cbComplete).
Proof.
  unfold complete. destruct cbComplete as [cb|]; [|apply emit_keeps].
  apply keeps_on_bind; [apply emit_keeps|].
  intros _ t Ht. now apply lift_async_keeps; [apply invariant_run_script|].
Qed.

Lemma next_keeps : keeps_on (@t_dict S) P (next cbComplete).
Proof.
  intros t Ht. unfold next.
  destruct (Nat.ltb _ _); [exact Ht | now apply complete_keeps].
Qed.

Lemma run_acts_keeps (acts : list Act) :
  keeps_on (@t_dict S) P (run_acts cbComplete acts).
Proof.
  induction acts as [|[o| |] acts IH]; simpl.
  - apply keeps_on_ret.
  - apply keeps_on_bind; [|intros _; exact IH].
    apply lift_async_keeps, invariant_exec.
  - apply keeps_on_bind; [apply next_keeps | intros _; exact IH].
  - apply keeps_on_bind; [apply nextTick_keeps | intros _; exact IH].
Qed.

Lemma call_iterator_keeps (k : string) (v : JsVal) :
  keeps_on t_dict P (call_iterator cbIterator cbComplete k v).
Proof.
  intros t Ht. unfold call_iterator. cbv zeta.
  set (out := cbIterator (t_closure t) (t_dict t) k v).
  assert (H : keeps_on t_dict P
                (emit (S := S) (EvStep k v) ;;
                 run_acts cbComplete (so_acts out) ;;
                 ret (so_return out))).
  { apply keeps_on_bind; [apply emit_keeps|]. intros _.
    apply keeps_on_bind; [apply run_acts_keeps|]. intros _.
    apply keeps_on_ret. }
  apply H. exact Ht.
Qed.

Lemma step_keeps : keeps_on t_dict P (step cbIterator cbComplete).
Proof.
  intros t Ht. unfold step.
  destruct (Nat.ltb _ _); [|now apply complete_keeps].
  cbv zeta. set (key := nth (t_counter t) (t_keys t) "").
  assert (H : keeps_on t_dict P
                (v <- lift_async (S := S) (Get key) ;;
                 r <- call_iterator cbIterator cbComplete key v ;;
                 if loose_eq_false r then complete cbComplete else ret tt)).
  { apply keeps_on_bind.
    - apply lift_async_keeps, invariant_readonly, readonly_Get.
    - intros v. apply keeps_on_bind; [apply call_iterator_keeps|].
      intros r. destruct (loose_eq_false r);
        [apply complete_keeps | apply keeps_on_ret]. }
  apply H. exact Ht.
Qed.

Lemma end_of_executor_dict (o : Result unit * Traversal S) :
  t_dict (end_of_executor o) = t_dict (snd o).
Proof. now destruct o as [[u| |] t]. Qed.

Lemma end_of_task_dict (o : Result unit * Traversal S) :
  t_dict (end_of_task o) = t_dict (snd o).
Proof. now destruct o as [[u| |] t]. Qed.

Lemma asyncForEach_keeps (st : S) (d : Dictionary) :
  P d -> P (t_dict (asyncForEach cbIterator cbComplete st d)).
Proof.
  intros Hd. unfold asyncForEach.
  destruct (method "asyncForEach" d) as [[u| |] d0]; simpl; try assumption.
  pose proof (invariant_readonly getKeys readonly_getKeys d Hd) as Hk.
  destruct (getKeys d) as [[ks| |] d']; simpl in *; try assumption.
  rewrite end_of_executor_dict. now apply step_keeps.
Qed.

Lemma tick_keeps (t : Traversal S) :
  P (t_dict t) -> P (t_dict (tick cbIterator cbComplete t)).
Proof.
  intros Ht. unfold tick. destruct (t_queue t) as [|task q]; [exact Ht|].
  rewrite end_of_task_dict.
  destruct task; [now apply step_keeps | now apply next_keeps].
Qed.

Lemma ticks_keeps (n : nat) (t : Traversal S) :
  P (t_dict t) -> P (t_dict (ticks cbIterator cbComplete n t)).
Proof.
  revert t. induction n as [|n IH]; simpl; intros t Ht; [exact Ht|].
  apply IH. now apply tick_keeps.
Qed.

End InAsync.

Lemma resume_keeps (cbComplete : option CompleteCallback) (e : Emptying) :
  P (t_dict (e_traversal e)) -> P (t_dict (e_traversal (resume cbComplete e))).
Proof.
  intros H. unfold resume.
  destruct (e_awaiting e && fulfilled (t_trace (e_traversal e))); [|exact H].
  destruct cbComplete as [cb|]; [|exact H].
  pose proof (invariant_run_script (cb (t_dict (e_traversal e))) _ H) as H'.
  now destruct (run_script _ (t_dict (e_traversal e))).
Qed.

Lemma asyncEmpty_keeps (cbComplete : option CompleteCallback) (d : Dictionary) :
  P d -> P (t_dict (e_traversal (asyncEmpty cbComplete d))).
Proof.
  intros H. unfold asyncEmpty.
  destruct (method "asyncEmpty" d) as [[u| |] d0]; simpl; try assumption.
  apply resume_keeps; simpl. now apply asyncForEach_keeps.
Qed.

Lemma asyncEmpty_ticks_keeps (cbComplete : option CompleteCallback) (n : nat)
    (e : Emptying) :
  P (t_dict (e_traversal e)) ->
  P (t_dict (e_traversal (asyncEmpty_ticks cbComplete n e))).
Proof.
  revert e. induction n as [|n IH]; simpl; intros e H; [exact H|].
  apply IH. unfold asyncEmpty_tick. apply resume_keeps; simpl.
  now apply tick_keeps.
Qed.

(** Every reachable state satisfies an invariant that holds initially. *)
Lemma reachable_invariant (d : Dictionary) :
  (forall cache, P (new_Dictionary cache)) -> reachable d -> P d.
Proof.
  intros Hnew Hr. induction Hr.
  - apply Hnew.
  - now apply invariant_exec.
  - now apply empty_keeps.
  - now apply clear_keeps.
  - now apply (each_keeps S cb (mkEachState d st [])).
  - now apply (forEach_keeps S cb (mkEachState d st [])).
  - now apply ticks_keeps, asyncForEach_keeps.
  - now apply asyncEmpty_ticks_keeps, asyncEmpty_keeps.
Qed.

End Invariant.

Lemma reachable_well_formed (d : Dictionary) : reachable d -> well_formed d.
Proof.
  apply reachable_invariant;
    [apply well_formed_invariant | apply well_formed_new].
Qed.

(** ** What the three primitive mutations can do *)


Lemma invalidate_resolved (d : Dictionary) :
  resolves "invalidate" d -> invalidate d = (Ok tt, invalidated d).
Proof.
  intros H. unfold invalidate, bind. now rewrite (method_resolved _ _ H).
Qed.

Lemma invalidate_cases (d : Dictionary) :
  snd (invalidate d) = d \/ invalidate d = (Ok tt, invalidated d).
Proof.
  unfold invalidate, bind. pose proof (method_state "invalidate" d) as Hs.
  destruct (method "invalidate" d) as [[u| |] d']; simpl in *; subst; auto.
Qed.

Lemma Put_cases (k : string) (v : JsVal) (d : Dictionary) :
  (Put k v d = (Ok tt, with_props d (assign k v (props d)))
   /\ (lookup k (props d) = None ->
       k <> reserved /\ k <> "length" /\ k <> "__proto__"))
  \/ snd (Put k v d) = d
  \/ (Put k v d = (Ok tt, mkDictionary (props d) false (__private__ d))
      /\ k = "__proto__").
Proof.
  unfold Put. destruct (lookup k (props d)) eqn:El.
  - left. split; [reflexivity | discriminate].
  - destruct (String.eqb_spec k reserved); [auto|].
    destruct (proto_intact d); [|auto].
    destruct (String.eqb_spec k "length"); [auto|].
    destruct (String.eqb_spec k "__proto__") as [->|]; [|left; auto].
    destruct v as [| | | | |[]]; auto.
Qed.

Lemma Delete_cases (k : string) (d : Dictionary) :
  Delete k d = (Ok tt, with_props d (erase k (props d))) \/ snd (Delete k d) = d.
Proof.
  unfold Delete. destruct (lookup k (props d)); [auto|].
  destruct (String.eqb k reserved); auto.
Qed.

(** ** Own names come from [set] only *)


Lemma within_reads (L : list string) (d d' : Dictionary) :
  reads d d' -> within L d -> within L d'.
Proof. intros (Hp & _). unfold within, own_keys. now rewrite Hp. Qed.

Lemma within_invalidate (L : list string) : keeps (within L) invalidate.
Proof.
  intros d H. destruct (invalidate_cases d) as [->| ->]; assumption.
Qed.

Lemma within_Delete (L : list string) (k : string) : keeps (within L) (Delete k).
Proof.
  intros d H. destruct (Delete_cases k d) as [->| ->]; [|assumption].
  simpl. intros x Hx. apply H. eapply In_keys_erase; exact Hx.
Qed.

Lemma within_Put (L : list string) (k : string) (v : JsVal) :
  In k L -> keeps (within L) (Put k v).
Proof.
  intros Hk d H.
  destruct (Put_cases k v d) as [[-> _]|[->|[-> _]]]; try assumption.
  simpl. intros x Hx. apply In_keys_assign in Hx. destruct Hx as [->|Hx]; auto.
Qed.

Lemma within_exec (L : list string) (o : Op) :
  (forall n, sets_name n o -> In n L) -> keeps (within L) (exec o).
Proof.
  intros Ho. pose proof (exec_reads o) as Hr.
  destruct o; simpl in *;
    try (apply keeps_of_readonly; [apply within_reads | exact Hr]).
  - unfold set. apply keeps_bind; [apply keeps_method|]. intros _.
    apply keeps_bind; [apply within_invalidate|]. intros _.
    apply within_Put. now apply Ho.
  - unfold remove. apply keeps_bind; [apply keeps_method|]. intros _.
    apply keeps_bind; [apply within_invalidate|]. intros _.
    apply within_Delete.
  - apply within_invalidate.
Qed.

Lemma within_perform (L : list string) (os : list Op) (d : Dictionary) :
  (forall o n, In o os -> sets_name n o -> In n L) ->
  within L d -> within L (perform os d).
Proof.
  revert d. induction os as [|o os IH]; simpl; intros d Ho H; [exact H|].
  apply IH; [eauto|]. apply within_exec; eauto.
Qed.


Lemma In_set_names (os : list Op) (n : string) :
  In n (set_names os) <-> Exists (sets_name n) os.
Proof.
  unfold set_names. rewrite in_flat_map, Exists_exists.
  split; intros (o & Ho & H); exists o; (split; [exact Ho|]).
  - destruct o; simpl in *; tauto.
  - destruct o; simpl in *; tauto.
Qed.

Lemma own_keys_were_set (cache : bool) (os : list Op) (n : string) :
  In n (own_keys (perform os (new_Dictionary cache))) -> Exists (sets_name n) os.
Proof.
  intros H. apply In_set_names. revert n H.
  apply (within_perform (set_names os)).
  - intros o n Ho Hn. apply In_set_names, Exists_exists. eauto.
  - intros x [].
Qed.

(** ** No member is hidden while only plain names are set *)

Lemma plain_state_reads (d d' : Dictionary) :
  reads d d' -> plain_state d -> plain_state d'.
Proof.
  intros (Hp & Hq & _). unfold plain_state, own_keys. now rewrite Hp, Hq.
Qed.

Lemma plain_name_not_member (k : string) :
  plain_name k = true -> member_name k = false.
Proof.
  unfold plain_name. rewrite andb_true_iff, !negb_true_iff. tauto.
Qed.

Lemma plain_state_resolves (d : Dictionary) (name : string) :
  plain_state d -> member_name name = true -> resolves name d.
Proof.
  intros [Hp Hk] Hm. apply resolves_iff. split; [|exact Hp].
  apply lookup_None. intros Hin. rewrite Forall_forall in Hk.
  apply Hk, plain_name_not_member in Hin. congruence.
Qed.

Lemma plain_state_exec (o : Op) : sets_plain o -> keeps plain_state (exec o).
Proof.
  intros Ho. pose proof (exec_reads o) as Hr.
  assert (Hinv : keeps plain_state invalidate).
  { intros d H. destruct (invalidate_cases d) as [->| ->]; assumption. }
  destruct o; simpl in *;
    try (apply keeps_of_readonly; [apply plain_state_reads | exact Hr]).
  - unfold set. apply keeps_bind; [apply keeps_method|]. intros _.
    apply keeps_bind; [exact Hinv|]. intros _ d [Hp Hk].
    destruct (Put_cases (ToPropertyKey key) value d) as [[-> _]|[->|[_ E]]].
    + split; [exact Hp|]. unfold own_keys; simpl.
      apply Forall_forall. intros x Hx. apply In_keys_assign in Hx.
      destruct Hx as [->|Hx]; [exact Ho|].
      rewrite Forall_forall in Hk. now apply Hk.
    + now split.
    + rewrite E in Ho. discriminate Ho.
  - unfold remove. apply keeps_bind; [apply keeps_method|]. intros _.
    apply keeps_bind; [exact Hinv|]. intros _ d [Hp Hk].
    destruct (Delete_cases (ToPropertyKey key) d) as [->| ->]; [|now split].
    split; [exact Hp|]. unfold own_keys; simpl.
    apply Forall_forall. intros x Hx. apply In_keys_erase in Hx.
    rewrite Forall_forall in Hk. now apply Hk.
  - exact Hinv.
Qed.

Lemma plain_state_perform (os : list Op) (d : Dictionary) :
  Forall sets_plain os -> plain_state d -> plain_state (perform os d).
Proof.
  revert d. induction os as [|o os IH]; simpl; intros d Ho H; [exact H|].
  inversion Ho; subst. apply IH; [assumption|]. now apply plain_state_exec.
Qed.

Lemma plain_state_new (cache : bool) : plain_state (new_Dictionary cache).
Proof. split; [reflexivity | constructor]. Qed.

(** ** Reading *)

Lemma Get_own (k : string) (v : JsVal) (d : Dictionary) :
  lookup k (props d) = Some v -> Get k d = (Ok v, d).
Proof. intros H. unfold Get. now rewrite H. Qed.

Lemma Get_absent (k : string) (d : Dictionary) :
  lookup k (props d) = None -> k <> reserved -> proto_intact d = true ->
  member_name k = false -> Get k d = (Ok VUndefined, d).
Proof.
  intros Hl Hr Hp Hm. unfold Get. rewrite Hl, Hp.
  apply String.eqb_neq in Hr. rewrite Hr.
  unfold member_name in Hm. rewrite !orb_false_iff in Hm.
  destruct Hm as [[-> ->] ->]. reflexivity.
Qed.

Lemma resolves_with_private (name : string) (d : Dictionary) (i : DictionaryInner) :
  resolves name d -> resolves name (with_private d i).
Proof. rewrite !resolves_iff. auto. Qed.

Lemma getKeys_eval (d : Dictionary) :
  resolves "getKeys" d ->
  getKeys d =
  if negb (cacheKeys (__private__ d)) then (Ok (Object_keys d), d)
  else match invalidateKeys (__private__ d), keys (__private__ d) with
       | false, Some ks => (Ok ks, d)
       | _, _ =>
           (Ok (Object_keys d),
            with_private d
              (mkInner (cacheKeys (__private__ d)) false (Some (Object_keys d))))
       end.
Proof.
  intros Hm. unfold getKeys, bind. now rewrite (method_resolved _ _ Hm).
Qed.

Lemma getKeys_rebuilt (d : Dictionary) :
  resolves "getKeys" d ->
  let d' := with_private d (mkInner true false (Some (Object_keys d))) in
  getKeys d' = (Ok (Object_keys d), d').
Proof.
  intros Hm d'. rewrite getKeys_eval by (apply resolves_with_private; exact Hm).
  reflexivity.
Qed.

Lemma getKeys_resolved (d : Dictionary) :
  resolves "getKeys" d -> well_formed d ->
  exists d', getKeys d = (Ok (Object_keys d), d') /\ reads d d'
             /\ getKeys d' = (Ok (Object_keys d), d').
Proof.
  intros Hm (_ & _ & Hc & _). rewrite (getKeys_eval d Hm).
  assert (Hr : cacheKeys (__private__ d) = true ->
               reads d (with_private d (mkInner true false (Some (Object_keys d))))).
  { intros E. unfold reads; simpl. rewrite E. auto. }
  destruct (cacheKeys (__private__ d)) eqn:E1; simpl.
  - destruct (invalidateKeys (__private__ d)) eqn:E2;
      [|destruct (keys (__private__ d)) as [ks|] eqn:E3].
    + eexists. split; [reflexivity|]. split; [auto|]. exact (getKeys_rebuilt d Hm).
    + pose proof (Hc E2 ks E3) as Hks. subst ks. exists d.
      split; [reflexivity|]. split; [apply reads_refl|].
      rewrite (getKeys_eval d Hm). now rewrite E1, E2, E3.
    + eexists. split; [reflexivity|]. split; [auto|]. exact (getKeys_rebuilt d Hm).
  - exists d. split; [reflexivity|]. split; [apply reads_refl|].
    rewrite (getKeys_eval d Hm). now rewrite E1.
Qed.

Lemma contains_reserved_reserved : contains_reserved reserved = true.
Proof. reflexivity. Qed.

Lemma has_true_iff (d : Dictionary) (key : JsKey) :
  resolves "has" d -> resolves "hasOwnProperty" d ->
  (fst (has key d) = Ok true <->
   exists s, key = KStr s /\ contains_reserved s = false /\ In s (own_keys d)).
Proof.
  intros H1 H2. unfold has, bind. rewrite (method_resolved _ _ H1).
  destruct key as [| |s]; simpl.
  - split; [discriminate | intros (s & E & _); discriminate].
  - split; [discriminate | intros (s & E & _); discriminate].
  - fold (contains_reserved s). destruct (contains_reserved s) eqn:Ec; simpl.
    + split; [discriminate | intros (s' & [= <-] & E & _); congruence].
    + unfold hasOwnProperty, bind. rewrite (method_resolved _ _ H2). simpl.
      destruct (lookup s (props d)) eqn:El.
      * split; [|reflexivity]. intros _. exists s.
        repeat split; [assumption|]. eapply lookup_Some_In; eauto.
      * destruct (String.eqb_spec s reserved) as [->|Hne].
        { now rewrite contains_reserved_reserved in Ec. }
        split; [discriminate|]. intros (s' & [= <-] & _ & Hin).
        apply lookup_None in El. contradiction.
Qed.

Lemma has_state (key : JsKey) (d : Dictionary) : snd (has key d) = d.
Proof.
  unfold has, bind. pose proof (method_state "has" d) as Hs.
  destruct (method "has" d) as [[u| |] d']; simpl in *; subst; try reflexivity.
  destruct key as [| |s]; try reflexivity.
  destruct (0 <=? indexOf s reserved)%Z; [reflexivity|].
  unfold hasOwnProperty, bind. pose proof (method_state "hasOwnProperty" d) as Hs.
  destruct (method "hasOwnProperty" d) as [[u'| |] d']; simpl in *; now subst.
Qed.

(** ** C1: the key listing against [has] *)

(** C1, as stated, fails: a name that merely contains the reserved
    identifier is stored and listed by [getKeys()], yet [has] denies it. *)
Lemma getKeys_has_counterexample :
  let d := perform [OpSet (KStr "a__private__") (VNum 1)] (new_Dictionary false) in
  fst (getKeys d) = Ok ["a__private__"]
  /\ fst (has (KStr "a__private__") d) = Ok false.
Proof. split; reflexivity. Qed.

(** C1, amended: after any sequence of calls in which [set] is only given
    plain names (names that neither contain the reserved identifier nor
    collide with an inherited member), with caching on or off, [getKeys()]
    succeeds and returns, without repetition, exactly the keys for which
    [has] is true, in the enumeration order of the own properties; a second
    call returns the same sequence. *)
Theorem getKeys_lists_has (cache : bool) (os : list Op) :
  Forall sets_plain os ->
  let d := perform os (new_Dictionary cache) in
  exists ks d',
    getKeys d = (Ok ks, d')
    /\ ks = Object_keys d
    /\ NoDup ks
    /\ (forall key, fst (has key d) = Ok true <-> exists s, key = KStr s /\ In s ks)
    /\ getKeys d' = (Ok ks, d').
Proof.
  intros Hos d.
  assert (Hp : plain_state d)
    by (apply plain_state_perform; [exact Hos | apply plain_state_new]).
  assert (Hw : well_formed d)
    by (apply invariant_perform;
        [apply well_formed_invariant | apply well_formed_new]).
  destruct (getKeys_resolved d) as (d' & Hg & _ & Hg');
    [now apply plain_state_resolves | exact Hw |].
  exists (Object_keys d), d'. repeat split; try assumption.
  - apply NoDup_Object_keys, Hw.
  - intros H. apply has_true_iff in H; try now apply plain_state_resolves.
    destruct H as (s & -> & _ & Hin). exists s. now rewrite In_Object_keys.
  - intros (s & -> & Hin). apply has_true_iff; try now apply plain_state_resolves.
    exists s. rewrite In_Object_keys in Hin. repeat split; [|exact Hin].
    destruct Hp as [_ Hk]. rewrite Forall_forall in Hk. specialize (Hk s Hin).
    unfold plain_name in Hk. rewrite andb_true_iff, negb_true_iff in Hk. tauto.
Qed.

Lemma getKeys_lists_has_witness :
  Forall sets_plain [OpSet (KStr "x") (VNum 10); OpGetKeys; OpSet (KStr "y") (VNum 20)]
  /\ exists ks d',
      getKeys (perform [OpSet (KStr "x") (VNum 10); OpGetKeys;
                        OpSet (KStr "y") (VNum 20)] (new_Dictionary true))
      = (Ok ks, d')
      /\ ks = Object_keys (perform [OpSet (KStr "x") (VNum 10); OpGetKeys;
                                    OpSet (KStr "y") (VNum 20)] (new_Dictionary true))
      /\ NoDup ks
      /\ (forall key,
            fst (has key (perform [OpSet (KStr "x") (VNum 10); OpGetKeys;
                                   OpSet (KStr "y") (VNum 20)] (new_Dictionary true)))
            = Ok true <-> exists s, key = KStr s /\ In s ks)
      /\ getKeys d' = (Ok ks, d').
Proof.
  assert (H : Forall sets_plain
                [OpSet (KStr "x") (VNum 10); OpGetKeys; OpSet (KStr "y") (VNum 20)])
    by (repeat constructor).
  split; [exact H|]. exact (getKeys_lists_has true _ H).
Defined.

(** ** C2: [values()] *)

(** C2 fails on the code: [for (let key in keys)] yields the positions of
    the array, so [values()] reads [this["0"]] where the key list holds
    ["a"], and returns [undefined] instead of the stored 1. *)
Lemma values_reads_positions :
  let d := perform [OpSet (KStr "a") (VNum 1)] (new_Dictionary false) in
  fst (getKeys d) = Ok ["a"]
  /\ fst (get (KStr "a") d) = Ok (VNum 1)
  /\ fst (values d) = Ok [VUndefined].
Proof. repeat split; reflexivity. Qed.

(** ** C4: reading a key that was never set *)

(** C4, as stated, fails: on a fresh container [get("has")] returns the
    inherited method, and [get("__private__")] the cache record, though
    neither key was ever set. *)
Lemma get_never_set_counterexample :
  fst (get (KStr "has") (new_Dictionary false)) = Ok (VObj (OFunction "has"))
  /\ fst (get (KStr "__private__") (new_Dictionary false)) = Ok (VObj OInner).
Proof. split; reflexivity. Qed.

(** C4, amended: after any sequence of calls none of which stores a
    function under the name of a member of the prototype chain (so that
    every call runs the class's own code), every stored property was put
    there by a [set] of that name; and for a key that no [set] was given and
    whose name is neither the reserved one nor a member of the prototype
    chain, [get], when it can be called ([get] and the prototype have not
    been overwritten), returns [undefined] and does not raise. *)
Theorem get_never_set (cache : bool) (os : list Op) (key : JsKey) :
  let d := perform os (new_Dictionary cache) in
  Forall keeps_members os ->
  resolves "get" d ->
  ~ In (ToPropertyKey key) (set_names os) ->
  ToPropertyKey key <> reserved ->
  member_name (ToPropertyKey key) = false ->
  incl (own_keys d) (set_names os) /\ get key d = (Ok VUndefined, d).
Proof.
  intros d _ Hg Hnever Hres Hmem.
  assert (Hset : incl (own_keys d) (set_names os)).
  { intros n Hn. apply In_set_names. now apply (own_keys_were_set cache). }
  split; [exact Hset|].
  unfold get, bind. rewrite (method_resolved _ _ Hg).
  apply Get_absent; try assumption.
  - apply lookup_None. intros Hin. apply Hnever. now apply Hset.
  - now apply resolves_iff in Hg.
Qed.

Lemma get_never_set_witness :
  incl (own_keys (perform [OpSet (KStr "a") (VNum 0)] (new_Dictionary true)))
    (set_names [OpSet (KStr "a") (VNum 0)])
  /\ get (KStr "b") (perform [OpSet (KStr "a") (VNum 0)] (new_Dictionary true))
     = (Ok VUndefined, perform [OpSet (KStr "a") (VNum 0)] (new_Dictionary true)).
Proof.
  apply (get_never_set true [OpSet (KStr "a") (VNum 0)] (KStr "b")).
  - repeat constructor.
  - reflexivity.
  - simpl. intros [H|[]]. discriminate H.
  - discriminate.
  - reflexivity.
Defined.

(** ** C5: [set] then [get] *)

(** C5, as stated, fails: storing under the name [get] hides the method, so
    the following [get] throws; and [set] itself throws for the read-only
    names [__private__] and [length]. *)
Lemma set_then_get_counterexample :
  let d := new_Dictionary false in
  fst (get (KStr "get") (snd (set (KStr "get") (VNum 0) d))) = TypeError
  /\ fst (set (KStr "__private__") (VNum 0) d) = TypeError
  /\ fst (set (KStr "length") (VNum 0) d) = TypeError.
Proof. repeat split; reflexivity. Qed.

(** C5, amended: on a container whose [set], [invalidate] and [get] can be
    called, for every key whose name is none of [__private__], [length],
    [__proto__] and [get], and for every value, falsy ones included,
    [set(k, v)] succeeds and the following [get(k)] returns [v]. *)
Theorem set_then_get (d : Dictionary) (key : JsKey) (v : JsVal) :
  resolves "set" d -> resolves "invalidate" d -> resolves "get" d ->
  ~ In (ToPropertyKey key) [reserved; "length"; "__proto__"; "get"] ->
  exists d', set key v d = (Ok tt, d') /\ get key d' = (Ok v, d').
Proof.
  intros Hs Hi Hg Hk. set (k := ToPropertyKey key) in *.
  assert (Hk' : k <> reserved /\ k <> "length" /\ k <> "__proto__" /\ k <> "get")
    by (simpl in Hk; intuition).
  destruct Hk' as (K1 & K2 & K3 & K4).
  exists (with_props (invalidated d) (assign k v (props d))). split.
  - unfold set, bind. rewrite (method_resolved _ _ Hs), (invalidate_resolved _ Hi).
    fold k. unfold Put; simpl.
    destruct (lookup k (props d)); [reflexivity|].
    apply resolves_iff in Hs. destruct Hs as [_ ->].
    apply String.eqb_neq in K1, K2, K3. now rewrite K1, K2, K3.
  - unfold get, bind. fold k.
    rewrite method_resolved.
    + apply Get_own. simpl. apply lookup_assign_same.
    + apply resolves_iff in Hg. apply resolves_iff; simpl.
      rewrite lookup_assign_other by congruence. exact Hg.
Qed.

Lemma set_then_get_witness :
  exists d', set (KStr "zero") (VNum 0) (new_Dictionary true) = (Ok tt, d')
             /\ get (KStr "zero") d' = (Ok (VNum 0), d').
Proof.
  apply set_then_get; try reflexivity.
  simpl. intros [H|[H|[H|[H|[]]]]]; discriminate H.
Defined.

(** ** The events a traversal appends *)

Section Appends.

Variable S : Type.
Variable cbIterator : StepCallback S.
Variable cbComplete : option CompleteCallback.

Lemma appends_ret {A : Type} (R : Event -> Prop) (a : A) :
  appends (S := S) R (ret a).
Proof. intros t. exists []. rewrite app_nil_r. auto. Qed.

Lemma appends_bind {A B : Type} (R : Event -> Prop)
    (m : StateM (Traversal S) A) (k : A -> StateM (Traversal S) B) :
  appends R m -> (forall a, appends R (k a)) -> appends R (bind m k).
Proof.
  intros Hm Hk t. destruct (Hm t) as (l & E & Hl & Ek). unfold bind.
  destruct (m t) as [[a| |] t']; simpl in *; eauto.
  destruct (Hk a t') as (l' & E' & Hl' & Ek').
  exists (l ++ l'). rewrite E', E, Ek', Ek, app_assoc.
  repeat split. now apply Forall_app.
Qed.

Lemma appends_lift_async {A : Type} (R : Event -> Prop) (m : M A) :
  appends (S := S) R (lift_async m).
Proof.
  intros t. exists []. unfold lift_async.
  destruct (m (t_dict t)); simpl. rewrite app_nil_r. auto.
Qed.

Lemma appends_emit (R : Event -> Prop) (e : Event) :
  R e -> appends (S := S) R (emit e).
Proof. intros H t. exists [e]. simpl. auto. Qed.

Lemma appends_nextTick (R : Event -> Prop) (task : Task) :
  appends (S := S) R (nextTick task).
Proof. intros t. exists []. simpl. rewrite app_nil_r. auto. Qed.

Lemma appends_complete : appends (S := S) (eq (notification cbComplete)) (complete cbComplete).
Proof.
  unfold complete. destruct cbComplete as [cb|]; simpl.
  - apply appends_bind; [now apply appends_emit|].
    intros _ t. apply appends_lift_async.
  - now apply appends_emit.
Qed.

Lemma appends_next : appends (S := S) (eq (notification cbComplete)) (next cbComplete).
Proof.
  intros t. unfold next. destruct (Nat.ltb _ _);
    [apply appends_nextTick | apply appends_complete].
Qed.

Lemma appends_run_acts (acts : list Act) :
  appends (S := S) (eq (notification cbComplete)) (run_acts cbComplete acts).
Proof.
  induction acts as [|[o| |] acts IH]; simpl.
  - apply appends_ret.
  - apply appends_bind; [apply appends_lift_async | intros _; exact IH].
  - apply appends_bind; [apply appends_next | intros _; exact IH].
  - apply appends_bind; [apply appends_nextTick | intros _; exact IH].
Qed.

(** A call of the step callback appends its [EvStep], then notifications
    only. *)
Lemma call_iterator_trace (k : string) (v : JsVal) (t : Traversal S) :
  exists l,
    t_trace (snd (call_iterator cbIterator cbComplete k v t))
    = t_trace t ++ EvStep k v :: l
    /\ Forall (eq (notification cbComplete)) l
    /\ t_keys (snd (call_iterator cbIterator cbComplete k v t)) = t_keys t.
Proof.
  set (out := cbIterator (t_closure t) (t_dict t) k v).
  set (t1 := mkTraversal (t_dict t) (so_state out) (t_keys t) (t_counter t)
               (t_queue t) (t_trace t ++ [EvStep k v])).
  assert (Hc : call_iterator cbIterator cbComplete k v t
               = (run_acts cbComplete (so_acts out) ;; ret (so_return out)) t1)
    by reflexivity.
  assert (H : appends (eq (notification cbComplete))
                (run_acts (S := S) cbComplete (so_acts out) ;;
                 ret (so_return out))).
  { apply appends_bind; [apply appends_run_acts | intros _; apply appends_ret]. }
  destruct (H t1) as (l & E & Hl & Ek). exists l.
  rewrite Hc, E, Ek. simpl. rewrite <- app_assoc. auto.
Qed.

Lemma lift_async_trace {A : Type} (m : M A) (t : Traversal S) :
  t_trace (snd (lift_async m t)) = t_trace t
  /\ t_keys (snd (lift_async m t)) = t_keys t.
Proof. unfold lift_async. now destruct (m (t_dict t)). Qed.

Lemma step_at_end (t : Traversal S) :
  Nat.ltb (t_counter t) (List.length (t_keys t)) = false ->
  step cbIterator cbComplete t = complete cbComplete t.
Proof. intros H. unfold step. now rewrite H. Qed.

Lemma step_before_end (t : Traversal S) :
  Nat.ltb (t_counter t) (List.length (t_keys t)) = true ->
  step cbIterator cbComplete t
  = (v <- lift_async (Get (nth (t_counter t) (t_keys t) "")) ;;
     r <- call_iterator cbIterator cbComplete (nth (t_counter t) (t_keys t) "") v ;;
     if loose_eq_false r then complete cbComplete else ret tt)
      (mkTraversal (t_dict t) (t_closure t) (t_keys t) (Datatypes.S (t_counter t))
         (t_queue t) (t_trace t)).
Proof. intros H. unfold step. now rewrite H. Qed.

(** What one run of [step] appends: notifications only, or one [EvStep]
    for the key at the cursor followed by notifications only. *)
Lemma step_trace (t : Traversal S) :
  exists l,
    t_trace (snd (step cbIterator cbComplete t)) = t_trace t ++ l
    /\ t_keys (snd (step cbIterator cbComplete t)) = t_keys t
    /\ (Forall (eq (notification cbComplete)) l
        \/ (Nat.ltb (t_counter t) (List.length (t_keys t)) = true
            /\ exists v l', l = EvStep (nth (t_counter t) (t_keys t) "") v :: l'
                            /\ Forall (eq (notification cbComplete)) l')).
Proof.
  destruct (Nat.ltb (t_counter t) (List.length (t_keys t))) eqn:Elt.
  - rewrite (step_before_end t Elt).
    set (key := nth (t_counter t) (t_keys t) "").
    set (t1 := mkTraversal _ _ _ _ _ _).
    destruct (lift_async_trace (Get key) t1) as [E1 K1].
    unfold bind.
    destruct (lift_async (Get key) t1) as [[v| |] t2]; simpl in E1, K1;
      try solve [exists []; rewrite app_nil_r; simpl; auto].
    destruct (call_iterator_trace key v t2) as (l & E & Hl & Ek).
    rewrite E1 in E. rewrite K1 in Ek.
    destruct (call_iterator cbIterator cbComplete key v t2) as [[r| |] t3];
      simpl in E, Ek;
      try solve [exists (EvStep key v :: l); simpl; repeat split; eauto 6].
    destruct (loose_eq_false r).
    + destruct (appends_complete t3) as (l2 & E2 & Hl2 & Ek2).
      exists (EvStep key v :: l ++ l2).
      rewrite E2, E, Ek2, Ek, <- app_assoc. simpl.
      repeat split. right. split; [reflexivity|].
      exists v, (l ++ l2). split; [reflexivity | now apply Forall_app].
    + simpl. exists (EvStep key v :: l). repeat split; eauto 6.
  - rewrite (step_at_end t Elt).
    destruct (appends_complete t) as (l & E & Hl & Ek). eauto.
Qed.

End Appends.

Lemma end_of_executor_trace {S : Type} (o : Result unit * Traversal S) :
  t_keys (end_of_executor o) = t_keys (snd o)
  /\ exists f, t_trace (end_of_executor o) = t_trace (snd o) ++ f
               /\ Forall is_failure f.
Proof.
  unfold is_failure.
  destruct o as [[u| |] t]; simpl; (split; [reflexivity|]);
    [exists [] | exists [EvReject] | exists [EvUnmodelled]];
    rewrite ?app_nil_r; auto 8.
Qed.

Lemma end_of_task_trace {S : Type} (o : Result unit * Traversal S) :
  t_keys (end_of_task o) = t_keys (snd o)
  /\ exists f, t_trace (end_of_task o) = t_trace (snd o) ++ f
               /\ Forall is_failure f.
Proof.
  unfold is_failure.
  destruct o as [[u| |] t]; simpl; (split; [reflexivity|]);
    [exists [] | exists [EvUncaught] | exists [EvUnmodelled]];
    rewrite ?app_nil_r; auto 8.
Qed.

(** ** A property of every event of every run *)

Section TraceInvariant.

Variable S : Type.
Variable cbIterator : StepCallback S.
Variable cbComplete : option CompleteCallback.

Variable ok : Event -> Prop.
Variable okkey : string -> Prop.
Hypothesis ok_step : forall k v, okkey k -> ok (EvStep k v).
Hypothesis ok_notification : ok (notification cbComplete).
Hypothesis ok_failure : forall e, is_failure e -> ok e.

Lemma notifications_ok (l : list Event) :
  Forall (eq (notification cbComplete)) l -> Forall ok l.
Proof. apply Forall_impl. now intros e <-. Qed.

Lemma step_good (t : Traversal S) :
  good_traversal ok okkey t -> good_traversal ok okkey (snd (step cbIterator cbComplete t)).
Proof.
  intros [Ht Hk]. destruct (step_trace S cbIterator cbComplete t)
    as (l & E & Ek & Hl).
  split; [|now rewrite Ek]. rewrite E. apply Forall_app. split; [exact Ht|].
  destruct Hl as [Hl|(Hlt & v & l' & -> & Hl)]; [now apply notifications_ok|].
  constructor; [|now apply notifications_ok].
  apply ok_step. rewrite Forall_forall in Hk. apply Hk, nth_In.
  now apply Nat.ltb_lt.
Qed.

Lemma next_good (t : Traversal S) : good_traversal ok okkey t -> good_traversal ok okkey (snd (next cbComplete t)).
Proof.
  intros [Ht Hk]. destruct (appends_next S cbComplete t) as (l & E & Hl & Ek).
  split; [|now rewrite Ek]. rewrite E. apply Forall_app.
  split; [exact Ht | now apply notifications_ok].
Qed.

Lemma tick_good (t : Traversal S) :
  good_traversal ok okkey t -> good_traversal ok okkey (tick cbIterator cbComplete t).
Proof.
  intros Hg. unfold tick. destruct (t_queue t) as [|task q]; [exact Hg|].
  set (t' := mkTraversal _ _ _ _ _ _).
  assert (Hg' : good_traversal ok okkey t') by exact Hg.
  assert (H : forall o : Result unit * Traversal S,
              good_traversal ok okkey (snd o) -> good_traversal ok okkey (end_of_task o)).
  { intros o [H1 H2]. destruct (end_of_task_trace o) as (Ek & f & E & Hf).
    split; [|now rewrite Ek]. rewrite E. apply Forall_app. split; [exact H1|].
    eapply Forall_impl; [|exact Hf]. exact ok_failure. }
  apply H. destruct task; [now apply step_good | now apply next_good].
Qed.

Lemma ticks_good (n : nat) (t : Traversal S) :
  good_traversal ok okkey t -> good_traversal ok okkey (ticks cbIterator cbComplete n t).
Proof.
  revert t. induction n as [|n IH]; simpl; intros t Hg; [exact Hg|].
  now apply IH, tick_good.
Qed.

Lemma asyncForEach_good (st : S) (d : Dictionary) :
  (forall ks d', getKeys d = (Ok ks, d') -> Forall okkey ks) ->
  good_traversal ok okkey (asyncForEach cbIterator cbComplete st d).
Proof.
  intros Hks. unfold asyncForEach, is_failure in *.
  destruct (method "asyncForEach" d) as [[u| |] d0];
    try (split; simpl; repeat constructor; apply ok_failure; auto).
  destruct (getKeys d) as [[ks| |] d'];
    try (split; simpl; repeat constructor; apply ok_failure; auto).
  set (t0 := mkTraversal d' st ks 0 [] []).
  assert (Hg : good_traversal ok okkey (snd (step cbIterator cbComplete t0))).
  { apply step_good. split; simpl; [constructor | eapply Hks; reflexivity]. }
  destruct Hg as [H1 H2].
  destruct (end_of_executor_trace (step cbIterator cbComplete t0))
    as (Ek & f & E & Hf).
  split; [|now rewrite Ek]. rewrite E. apply Forall_app. split; [exact H1|].
  eapply Forall_impl; [|exact Hf]. exact ok_failure.
Qed.

(** Every event of a traversal, at any time, satisfies [ok]. *)
Lemma traversal_events (st : S) (d : Dictionary) (n : nat) :
  (forall ks d', getKeys d = (Ok ks, d') -> Forall okkey ks) ->
  Forall ok (t_trace (ticks cbIterator cbComplete n
                        (asyncForEach cbIterator cbComplete st d))).
Proof. intros H. now apply ticks_good, asyncForEach_good. Qed.

End TraceInvariant.

(** ** Array positions are never member names *)

Lemma index_string_digit (i : nat) :
  exists c s, index_string i = String c s /\ is_digit c = true.
Proof.
  unfold index_string, NilZero.string_of_uint.
  destruct (Nat.to_uint i); simpl; eauto.
Qed.

Lemma member_name_not_digit (c : ascii) (s : string) :
  is_digit c = true -> member_name (String c s) = false /\ String c s <> reserved.
Proof.
  intros Hc. split.
  - destruct (member_name (String c s)) eqn:E; [|reflexivity]. exfalso.
    unfold member_name in E. rewrite !orb_true_iff in E.
    destruct E as [[E|E]|E].
    + unfold inherited_function in E. apply existsb_exists in E.
      destruct E as (x & Hx & E). apply String.eqb_eq in E. subst x.
      simpl in Hx.
      repeat (destruct Hx as [Hx|Hx];
              [injection Hx as <- _; discriminate Hc|]).
      exact Hx.
    + apply String.eqb_eq in E. injection E as -> _. discriminate Hc.
    + apply String.eqb_eq in E. injection E as -> _. discriminate Hc.
  - intros E. injection E as -> _. discriminate Hc.
Qed.



(** ** Inverting successful reads *)

Lemma bind_Ok {St A B : Type} (m : StateM St A) (k : A -> StateM St B)
    (s s' : St) (b : B) :
  bind m k s = (Ok b, s') ->
  exists a s1, m s = (Ok a, s1) /\ k a s1 = (Ok b, s').
Proof.
  unfold bind. destruct (m s) as [[a| |] s1]; try discriminate. eauto.
Qed.

Lemma method_Ok (name : string) (d d' : Dictionary) (u : unit) :
  method name d = (Ok u, d') -> d' = d /\ resolves name d.
Proof.
  intros H. pose proof (method_state name d) as Hs. rewrite H in Hs.
  simpl in Hs. subst d'. split; [reflexivity|].
  unfold resolves. rewrite H. now destruct u.
Qed.





(** ** The keys a synchronous loop visits *)

Lemma has_true_plain (k : string) (d : Dictionary) :
  fst (has (KStr k) d) = Ok true -> contains_reserved k = false.
Proof.
  unfold has, bind. destruct (method "has" d) as [[u| |] d1]; try discriminate.
  fold (contains_reserved k). destruct (contains_reserved k); [discriminate | auto].
Qed.

Lemma not_reserved_of_plain (k : string) :
  contains_reserved k = false -> k <> reserved.
Proof. intros H ->. now rewrite contains_reserved_reserved in H. Qed.

Section EachLog.

Variable S : Type.
Variable cb : EachCallback S.

Lemma lift_each_log {A : Type} (m : M A) (s : EachState S) :
  es_log (snd (lift_each m s)) = es_log s
  /\ fst (lift_each m s) = fst (m (es_dict s)).
Proof. unfold lift_each. now destruct (m (es_dict s)). Qed.

Lemma call_each_log (k : string) (v : JsVal) (s : EachState S) :
  exists r, es_log (snd (call_each cb k v s)) = es_log s ++ [mkVisit k v r]
            /\ r = match fst (call_each cb k v s) with
                   | Ok x => Some x
                   | _ => None
                   end.
Proof.
  unfold call_each.
  destruct (run_script _ (es_dict s)) as [[u| |] d]; simpl; eexists;
    split; reflexivity.
Qed.

(** The loop only appends visits, in the shape of [loop_log]. *)
Lemma each_loop_log (ks : list string) (s : EachState S) :
  exists l, es_log (snd (each_loop cb ks s)) = es_log s ++ l /\ loop_log ks l.
Proof.
  revert s. induction ks as [|k ks IH]; intros s; cbn [each_loop].
  - exists []. rewrite app_nil_r. split; [reflexivity | constructor].
  - destruct (lookup k (props (es_dict s))).
    2:{ destruct (IH s) as (l & El & Hl). exists l.
        split; [exact El | now apply loop_skip]. }
    unfold bind at 1.
    destruct (lift_each_log (has (KStr k)) s) as [E1 F1].
    destruct (lift_each (has (KStr k)) s) as [[[|]| |] s1]; simpl in E1, F1;
      try solve [exists []; rewrite app_nil_r; simpl; split; [auto | constructor]].
    + symmetry in F1. apply has_true_plain in F1.
      unfold bind at 1.
      destruct (lift_each_log (Get k) s1) as [E2 _].
      destruct (lift_each (Get k) s1) as [[v| |] s2]; simpl in E2;
        try solve [exists []; rewrite app_nil_r; simpl;
                   split; [congruence | constructor]].
      unfold bind at 1.
      destruct (call_each_log k v s2) as (r & E3 & Hr).
      destruct (call_each cb k v s2) as [[x| |] s3]; simpl in E3, Hr; subst r;
        try solve [exists [mkVisit k v None]; simpl; split;
                   [congruence | apply loop_stop; [exact F1 | discriminate]]].
      destruct (strict_eq_false x) eqn:Ex.
      * exists [mkVisit k v (Some x)]. simpl. split; [congruence|].
        apply loop_stop; [exact F1 | now intros y [= <-]].
      * destruct (IH s3) as (l & El & Hl). exists (mkVisit k v (Some x) :: l).
        rewrite El, E3, E2, E1, <- app_assoc. split; [reflexivity|].
        now apply loop_continue.
    + destruct (IH s1) as (l & El & Hl). exists l. rewrite El, E1.
      split; [reflexivity | now apply loop_skip].
Qed.


(** A visit that returned [false] is the last one. *)
Lemma loop_log_stops (ks : list string) (l : list Visit) :
  loop_log ks l ->
  forall i v, nth_error l i = Some v -> visit_return v = Some (VBool false) ->
              List.length l = Datatypes.S i.
Proof.
  induction 1 as [ks|k ks l H IH|k ks v r Hk Hr|k ks v x l Hk Hx H IH];
    intros i w Hi Hw.
  - destruct i; discriminate Hi.
  - eauto.
  - destruct i as [|i]; [reflexivity|]. destruct i; discriminate Hi.
  - destruct i as [|i]; simpl in *.
    + injection Hi as <-. simpl in Hw. injection Hw as ->. discriminate Hx.
    + f_equal. eauto.
Qed.



End EachLog.

(** ** C6: the reserved field stays hidden *)



(** ** A callback that leaves the container alone *)

Lemma has_own (k : string) (d : Dictionary) :
  resolves "has" d -> resolves "hasOwnProperty" d -> In k (own_keys d) ->
  has (KStr k) d = (Ok (negb (contains_reserved k)), d).
Proof.
  intros H1 H2 Hin. unfold has, bind. rewrite (method_resolved _ _ H1).
  fold (contains_reserved k). destruct (contains_reserved k); [reflexivity|].
  unfold hasOwnProperty, bind. rewrite (method_resolved _ _ H2). simpl.
  apply lookup_In in Hin. now destruct (lookup k (props d)).
Qed.

Lemma Get_own_key (k : string) (d : Dictionary) :
  In k (own_keys d) -> exists v, Get k d = (Ok v, d) /\ lookup k (props d) = Some v.
Proof.
  intros Hin. apply lookup_In in Hin.
  destruct (lookup k (props d)) as [v|] eqn:E; [|congruence].
  exists v. split; [now apply Get_own | reflexivity].
Qed.

Lemma accepted_cons (k : string) (ks : list string) :
  accepted (k :: ks)
  = if contains_reserved k then accepted ks else k :: accepted ks.
Proof. unfold accepted. cbn [filter]. now destruct (contains_reserved k). Qed.

Section PureCallback.

Variable S : Type.
Variable cb : EachCallback S.
Hypothesis cb_pure : forall st d k v, eo_script (cb st d k v) = [].

(** With such a callback the loop visits the accepted names in order, up to
    the first visit that returns [false]. *)
Lemma each_loop_pure (d : Dictionary) (ks : list string) (st : S) (log : list Visit) :
  resolves "has" d -> resolves "hasOwnProperty" d ->
  (forall k, In k ks -> In k (own_keys d)) ->
  exists l st',
    each_loop cb ks (mkEachState d st log) = (Ok tt, mkEachState d st' (log ++ l))
    /\ Forall (fun w => exists st0 k v,
                  visit_return w = Some (eo_return (cb st0 d k v))) l
    /\ ((forall v, In v l -> visit_return v <> Some (VBool false)) ->
        map visit_key l = accepted ks).
Proof.
  intros H1 H2. revert st log.
  induction ks as [|k ks IH]; intros st log Hin; cbn [each_loop].
  - exists [], st. rewrite app_nil_r. repeat split. constructor.
  - assert (Hk : In k (own_keys d)) by (apply Hin; now left).
    assert (Hks : forall k', In k' ks -> In k' (own_keys d))
      by (intros k' Hk'; apply Hin; now right).
    destruct (Get_own_key k d Hk) as (v & Hg & Hlk).
    cbn [es_dict]. rewrite Hlk.
    unfold bind at 1. unfold lift_each at 1. simpl.
    rewrite (has_own k d H1 H2 Hk).
    destruct (contains_reserved k) eqn:Ec; simpl.
    + destruct (IH st log Hks) as (l & st' & E & Hf & Hl).
      exists l, st'. split; [exact E | split; [exact Hf | exact Hl]].
    + unfold bind at 1. unfold lift_each at 1. simpl. rewrite Hg.
      unfold bind at 1. unfold call_each at 1. simpl. rewrite cb_pure. simpl.
      set (out := cb st d k v).
      assert (Hout : exists st0 k0 v0,
                 Some (eo_return out) = Some (eo_return (cb st0 d k0 v0)))
        by (exists st, k, v; reflexivity).
      destruct (strict_eq_false (eo_return out)) eqn:Ex.
      * exists [mkVisit k v (Some (eo_return out))], (eo_state out).
        split; [reflexivity|]. split; [repeat constructor; exact Hout|].
        intros Hno. exfalso.
        apply (Hno (mkVisit k v (Some (eo_return out)))); [now left|]. simpl.
        destruct (eo_return out) as [| |[|]| | |]; try discriminate Ex. reflexivity.
      * destruct (IH (eo_state out)
                    (log ++ [mkVisit k v (Some (eo_return out))]) Hks)
          as (l & st' & E & Hf & Hl).
        exists (mkVisit k v (Some (eo_return out)) :: l), st'.
        rewrite E, <- app_assoc. split; [reflexivity|].
        split; [constructor; [exact Hout | exact Hf]|].
        intros Hno. simpl. f_equal.
        apply Hl. intros w Hw. apply Hno. now right.
Qed.

Lemma each_pure (d : Dictionary) (st : S) :
  resolves "each" d -> resolves "has" d -> resolves "hasOwnProperty" d ->
  exists l st',
    each cb (mkEachState d st []) = (Ok tt, mkEachState d st' l)
    /\ Forall (fun w => exists st0 k v,
                  visit_return w = Some (eo_return (cb st0 d k v))) l
    /\ ((forall v, In v l -> visit_return v <> Some (VBool false)) ->
        map visit_key l = accepted (Object_keys d)).
Proof.
  intros H0 H1 H2. unfold each, bind. unfold lift_each at 1. simpl.
  rewrite (method_resolved _ _ H0). simpl.
  apply (each_loop_pure d (Object_keys d) st [] H1 H2).
  intros k. apply In_Object_keys.
Qed.


End PureCallback.

(** ** C8: early termination of [each] *)

Lemma has_true_own (k : string) (d : Dictionary) :
  fst (has (KStr k) d) = Ok true -> exists v, lookup k (props d) = Some v.
Proof.
  intros H. pose proof (has_true_plain k d H) as Hp.
  unfold has, bind in H. destruct (method "has" d) as [[u| |] d1] eqn:Em;
    try discriminate H.
  apply method_Ok in Em. destruct Em as [-> _].
  fold (contains_reserved k) in H. rewrite Hp in H.
  unfold hasOwnProperty, bind in H.
  destruct (method "hasOwnProperty" d) as [[u'| |] d2] eqn:Em;
    try discriminate H.
  apply method_Ok in Em. destruct Em as [-> _]. simpl in H.
  destruct (lookup k (props d)) as [v|]; [eauto|].
  injection H as H. apply String.eqb_eq in H. subst k.
  now rewrite contains_reserved_reserved in Hp.
Qed.

Lemma each_loop_visit {S : Type} (cb : EachCallback S) (k : string)
    (ks : list string) (d : Dictionary) (st : S) (log : list Visit) (v : JsVal) :
  has (KStr k) d = (Ok true, d) -> Get k d = (Ok v, d) ->
  each_loop cb (k :: ks) (mkEachState d st log)
  = (r <- call_each cb k v ;;
     if strict_eq_false r then ret tt else each_loop cb ks) (mkEachState d st log).
Proof.
  intros Hh Hg. cbn [each_loop es_dict].
  destruct (has_true_own k d) as (w & ->); [now rewrite Hh|].
  unfold bind at 1. unfold lift_each at 1.
  simpl es_dict. rewrite Hh. simpl es_closure. simpl es_log.
  unfold bind at 1. unfold lift_each at 1. simpl es_dict. now rewrite Hg.
Qed.

Lemma each_resolved {S : Type} (cb : EachCallback S) (d : Dictionary) (st : S)
    (log : list Visit) :
  resolves "each" d ->
  each cb (mkEachState d st log)
  = each_loop cb (Object_keys d) (mkEachState d st log).
Proof.
  intros H. unfold each, bind. unfold lift_each at 1. simpl.
  now rewrite (method_resolved _ _ H).
Qed.

Lemma forEach_resolved {S : Type} (cb : EachCallback S) (d : Dictionary) (st : S)
    (log : list Visit) :
  resolves "forEach" d ->
  forEach cb (mkEachState d st log) = each cb (mkEachState d st log).
Proof.
  intros H. unfold forEach, bind. unfold lift_each at 1. simpl.
  now rewrite (method_resolved _ _ H).
Qed.


(** C8: in [each], when the callback returns the literal [false] on a visit,
    that visit is the last, so a [false] on the N-th visit makes N
    invocations in all.  After a visit on which the callback, whatever it
    did to the container, returned any other value, [undefined] included,
    the loop goes on with the keys still to come; so a callback that leaves
    the container alone and never returns the literal [false] is invoked on
    every key that [has] accepts, in enumeration order.  [forEach] is the
    same loop. *)
Theorem each_early_termination (S : Type) (cb : EachCallback S) (st : S)
    (d : Dictionary) :
  let log := es_log (snd (each cb (mkEachState d st []))) in
  (forall N v, nth_error log N = Some v ->
               visit_return v = Some (VBool false) ->
               List.length log = Datatypes.S N)
  /\ (forall k ks d0 st0 visits d',
        fst (has (KStr k) d0) = Ok true ->
        run_script (eo_script (cb st0 d0 k (stored d0 k))) d0 = (Ok tt, d') ->
        let out := cb st0 d0 k (stored d0 k) in
        let after :=
          mkEachState d' (eo_state out)
            (visits ++ [mkVisit k (stored d0 k) (Some (eo_return out))]) in
        each_loop cb (k :: ks) (mkEachState d0 st0 visits)
        = if strict_eq_false (eo_return out) then (Ok tt, after)
          else each_loop cb ks after)
  /\ (resolves "each" d -> resolves "has" d -> resolves "hasOwnProperty" d ->
      (forall st' d' k v, eo_script (cb st' d' k v) = []) ->
      (forall v, In v log -> visit_return v <> Some (VBool false)) ->
      map visit_key log = accepted (Object_keys d))
  /\ (resolves "forEach" d ->
      forEach cb (mkEachState d st []) = each cb (mkEachState d st [])).
Proof.
  intros log. split; [|split; [|split]].
  - subst log. unfold each, bind.
    destruct (lift_each_log S (method "each") (mkEachState d st [])) as [E1 _].
    destruct (lift_each (method "each") (mkEachState d st [])) as [[u| |] s1];
      simpl in E1;
      try solve [intros [|N] v H; simpl in H; rewrite E1 in H; discriminate H].
    destruct (each_loop_log S cb (Object_keys (es_dict s1)) s1) as (l & E & Hl).
    rewrite E, E1. simpl. exact (loop_log_stops _ _ Hl).
  - intros k ks d0 st0 visits d' Hh Hrun out after.
    destruct (has_true_own k d0 Hh) as (v & Hl).
    assert (Hv : stored d0 k = v) by (unfold stored; now rewrite Hl).
    assert (Hhas : has (KStr k) d0 = (Ok true, d0)).
    { rewrite (surjective_pairing (has (KStr k) d0)). now rewrite Hh, has_state. }
    rewrite (each_loop_visit cb k ks d0 st0 visits (stored d0 k) Hhas);
      [|rewrite Hv; now apply Get_own].
    subst out after. unfold bind, call_each.
    simpl es_dict. simpl es_closure. simpl es_log. rewrite Hrun.
    now destruct (strict_eq_false _).
  - intros H0 H1 H2 Hpure Hno.
    destruct (each_pure S cb Hpure d st H0 H1 H2) as (l & st' & E & _ & Hl).
    subst log. rewrite E in *. simpl in *. now apply Hl.
  - intros Hf. now apply forEach_resolved.
Qed.

Lemma each_early_termination_witness :
  let d := perform [OpSet (KStr "a") (VNum 1); OpSet (KStr "b") (VNum 2);
                    OpSet (KStr "c") (VNum 3)] (new_Dictionary false) in
  let stop_at_b : EachCallback unit :=
    fun _ _ k _ =>
      mkEachOut tt [] (if String.eqb k "b" then VBool false else VUndefined) in
  let zero : EachCallback unit := fun _ _ _ _ => mkEachOut tt [] (VNum 0) in
  List.length (es_log (snd (each stop_at_b (mkEachState d tt [])))) = 2
  /\ each_loop stop_at_b ["a"; "b"; "c"] (mkEachState d tt [])
     = each_loop stop_at_b ["b"; "c"]
         (mkEachState d tt [mkVisit "a" (VNum 1) (Some VUndefined)])
  /\ map visit_key (es_log (snd (each zero (mkEachState d tt []))))
     = accepted (Object_keys d)
  /\ forEach stop_at_b (mkEachState d tt []) = each stop_at_b (mkEachState d tt []).
Proof.
  intros d stop_at_b zero.
  destruct (each_early_termination unit stop_at_b tt d) as (H1 & H2 & _ & H4).
  destruct (each_early_termination unit zero tt d) as (_ & _ & H3 & _).
  split; [|split; [|split]].
  - apply (H1 1 (mkVisit "b" (VNum 2) (Some (VBool false)))); reflexivity.
  - apply (H2 "a" ["b"; "c"] d tt [] d); reflexivity.
  - apply H3; try reflexivity.
    intros v Hv. vm_compute in Hv.
    destruct Hv as [<-|[<-|[<-|[]]]]; discriminate.
  - apply H4. reflexivity.
Defined.

(** ** Counting step invocations *)

Lemma count_steps_app (a b : list Event) :
  count_steps (a ++ b) = count_steps a + count_steps b.
Proof. unfold count_steps. now rewrite filter_app, length_app. Qed.

Lemma count_steps_notifications (cbComplete : option CompleteCallback)
    (l : list Event) :
  Forall (eq (notification cbComplete)) l -> count_steps l = 0.
Proof.
  induction 1 as [|e l He _ IH]; [reflexivity|].
  unfold count_steps in *. simpl. subst e.
  destruct cbComplete; simpl; exact IH.
Qed.

Lemma count_steps_failures (f : list Event) :
  Forall is_failure f -> count_steps f = 0.
Proof.
  induction 1 as [|e l He _ IH]; [reflexivity|].
  unfold count_steps in *. simpl.
  destruct He as [->|[->|[->| ->]]]; simpl; exact IH.
Qed.

Lemma complete_trace {S : Type} (cbComplete : option CompleteCallback)
    (t : Traversal S) :
  t_trace (snd (complete cbComplete t)) = t_trace t ++ [notification cbComplete]
  /\ t_queue (snd (complete cbComplete t)) = t_queue t.
Proof.
  unfold complete. destruct cbComplete as [cb|]; simpl; [|auto].
  unfold bind, emit, lift_async; simpl.
  destruct (run_script _ (t_dict t)); simpl. auto.
Qed.

(** ** C3: when the first step runs *)

(** C3, as stated, fails: on an empty container the completion callback
    has already run, and on a non-empty one the step callback has already
    been invoked on the first key, when [asyncForEach] returns to its
    caller, before any scheduling tick. *)
Lemma first_step_deferred_counterexample :
  let idle : StepCallback unit := fun _ _ _ _ => mkStepOut tt [] VUndefined in
  t_trace (asyncForEach idle (Some (fun _ => [])) tt (new_Dictionary false))
  = [EvComplete]
  /\ t_trace (asyncForEach idle None tt (new_Dictionary false)) = [EvResolve]
  /\ t_trace (asyncForEach idle None tt
                (perform [OpSet (KStr "a") (VNum 1)] (new_Dictionary false)))
     = [EvStep "a" (VNum 1)].
Proof. repeat split; reflexivity. Qed.

(** C3, amended: [asyncForEach] runs its first step inside the call.  On a
    container with no keys the completion notification is the first thing
    that happens, before the call returns; otherwise the step callback is
    invoked on the first key before the call returns.  Only later steps are
    deferred: the call itself invokes the step callback at most once, every
    scheduling tick invokes it at most once more, and a tick with nothing
    queued does nothing. *)
Theorem first_step_is_synchronous (S : Type) (cb : StepCallback S)
    (cbComplete : option CompleteCallback) (st : S) (d : Dictionary) :
  (forall d', resolves "asyncForEach" d -> getKeys d = (Ok [], d') ->
              hd_error (t_trace (asyncForEach cb cbComplete st d))
              = Some (notification cbComplete))
  /\ (forall k ks d' v d'',
        resolves "asyncForEach" d -> getKeys d = (Ok (k :: ks), d') ->
        Get k d' = (Ok v, d'') ->
        hd_error (t_trace (asyncForEach cb cbComplete st d)) = Some (EvStep k v))
  /\ count_steps (t_trace (asyncForEach cb cbComplete st d)) <= 1
  /\ (forall t : Traversal S,
        count_steps (t_trace (tick cb cbComplete t)) <= count_steps (t_trace t) + 1
        /\ (t_queue t = [] -> tick cb cbComplete t = t)).
Proof.
  split; [|split; [|split]].
  - intros d' Hm Hk. unfold asyncForEach.
    rewrite (method_resolved _ _ Hm), Hk.
    set (t0 := mkTraversal d' st [] 0 [] []).
    destruct (end_of_executor_trace (step cb cbComplete t0)) as (_ & f & -> & _).
    rewrite (step_at_end S cb cbComplete t0) by reflexivity.
    destruct (complete_trace cbComplete t0) as [-> _]. reflexivity.
  - intros k ks d' v d'' Hm Hk Hg. unfold asyncForEach.
    rewrite (method_resolved _ _ Hm), Hk.
    set (t0 := mkTraversal d' st (k :: ks) 0 [] []).
    destruct (end_of_executor_trace (step cb cbComplete t0)) as (_ & f & -> & _).
    rewrite (step_before_end S cb cbComplete t0) by reflexivity.
    unfold bind at 1. unfold lift_async at 1. simpl. rewrite Hg.
    set (t1 := mkTraversal d'' st (k :: ks) 1 [] []).
    destruct (call_iterator_trace S cb cbComplete k v t1) as (l & E & _).
    unfold bind.
    destruct (call_iterator cb cbComplete k v t1) as [[r| |] t2]; simpl in E;
      try (simpl; rewrite E; reflexivity).
    destruct (loose_eq_false r); [|simpl; rewrite E; reflexivity].
    destruct (complete_trace cbComplete t2) as [-> _]. rewrite E. reflexivity.
  - unfold asyncForEach.
    destruct (method "asyncForEach" d) as [[u| |] d0]; simpl; auto.
    destruct (getKeys d) as [[ks| |] d']; simpl; auto.
    set (t0 := mkTraversal d' st ks 0 [] []).
    destruct (end_of_executor_trace (step cb cbComplete t0)) as (_ & f & -> & Hf).
    destruct (step_trace S cb cbComplete t0) as (l & -> & _ & Hl).
    rewrite !count_steps_app, (count_steps_failures f Hf). simpl.
    destruct Hl as [Hl|(_ & v & l' & -> & Hl)].
    + rewrite (count_steps_notifications _ _ Hl). auto.
    + change (count_steps (EvStep (nth (t_counter t0) (t_keys t0) "") v :: l'))
        with (Datatypes.S (count_steps l')).
      rewrite (count_steps_notifications _ _ Hl). auto.
  - intros t. split; [|intros Hq; unfold tick; now rewrite Hq].
    unfold tick. destruct (t_queue t) as [|task q]; [lia|].
    set (t' := mkTraversal _ _ _ _ _ _).
    change (t_trace t) with (t_trace t').
    destruct task.
    + destruct (end_of_task_trace (step cb cbComplete t')) as (_ & f & -> & Hf).
      destruct (step_trace S cb cbComplete t') as (l & -> & _ & Hl).
      rewrite !count_steps_app, (count_steps_failures f Hf).
      destruct Hl as [Hl|(_ & v & l' & -> & Hl)].
      * rewrite (count_steps_notifications _ _ Hl). lia.
      * change (count_steps (EvStep (nth (t_counter t') (t_keys t') "") v :: l'))
          with (Datatypes.S (count_steps l')).
        rewrite (count_steps_notifications _ _ Hl). lia.
    + destruct (end_of_task_trace (next cbComplete t')) as (_ & f & -> & Hf).
      destruct (appends_next S cbComplete t') as (l & -> & Hl & _).
      rewrite !count_steps_app, (count_steps_failures f Hf),
        (count_steps_notifications _ _ Hl). lia.
Qed.

(** ** Evaluating one step *)

Section StepEval.

Variable S : Type.
Variable cbIterator : StepCallback S.
Variable cbComplete : option CompleteCallback.

Lemma run_acts_ops (os : list Op) (acts : list Act) (d d2 : Dictionary)
    (st : S) (ks : list string) (c : nat) (q : list Task) (tr : list Event) :
  run_script os d = (Ok tt, d2) ->
  run_acts cbComplete (map ActOp os ++ acts) (mkTraversal d st ks c q tr)
  = run_acts cbComplete acts (mkTraversal d2 st ks c q tr).
Proof.
  revert d. induction os as [|o os IH]; simpl; intros d H.
  - now injection H as <-.
  - apply bind_Ok in H. destruct H as ([] & d1 & Ho & H).
    unfold bind at 1. unfold lift_async at 1. simpl. rewrite Ho.
    now apply IH.
Qed.

Lemma step_calls (t : Traversal S) (v : JsVal) (d1 : Dictionary) :
  Nat.ltb (t_counter t) (List.length (t_keys t)) = true ->
  Get (nth (t_counter t) (t_keys t) "") (t_dict t) = (Ok v, d1) ->
  let out := cbIterator (t_closure t) d1 (nth (t_counter t) (t_keys t) "") v in
  step cbIterator cbComplete t
  = (run_acts cbComplete (so_acts out) ;;
     if loose_eq_false (so_return out) then complete cbComplete else ret tt)
      (entered t v d1 (so_state out)).
Proof.
  intros Hlt Hg out. rewrite (step_before_end S cbIterator cbComplete t Hlt).
  unfold bind at 1. unfold lift_async at 1. simpl. rewrite Hg.
  unfold bind. unfold call_iterator, bind, emit, ret. simpl. fold out.
  unfold entered.
  destruct (run_acts cbComplete (so_acts out) _) as [[u| |] t']; reflexivity.
Qed.

(** The callback returns a value loosely equal to [false]: whatever it did
    before, the step goes on to complete the traversal, and does nothing
    else. *)
Lemma step_on_loose_false (t t1 : Traversal S) (v : JsVal) (d1 : Dictionary) :
  Nat.ltb (t_counter t) (List.length (t_keys t)) = true ->
  Get (nth (t_counter t) (t_keys t) "") (t_dict t) = (Ok v, d1) ->
  let out := cbIterator (t_closure t) d1 (nth (t_counter t) (t_keys t) "") v in
  run_acts cbComplete (so_acts out) (entered t v d1 (so_state out)) = (Ok tt, t1) ->
  loose_eq_false (so_return out) = true ->
  step cbIterator cbComplete t = complete cbComplete t1.
Proof.
  intros Hlt Hg out Ha Hr. rewrite (step_calls t v d1 Hlt Hg). fold out.
  unfold bind. now rewrite Ha, Hr.
Qed.

(** The callback returns a value loosely equal to [false] without calling
    [next]: the step ends the traversal. *)
Lemma step_short_circuit (t : Traversal S) (v : JsVal) (d1 d2 : Dictionary)
    (os : list Op) :
  Nat.ltb (t_counter t) (List.length (t_keys t)) = true ->
  Get (nth (t_counter t) (t_keys t) "") (t_dict t) = (Ok v, d1) ->
  let out := cbIterator (t_closure t) d1 (nth (t_counter t) (t_keys t) "") v in
  so_acts out = map ActOp os ->
  run_script os d1 = (Ok tt, d2) ->
  loose_eq_false (so_return out) = true ->
  step cbIterator cbComplete t = complete cbComplete (entered t v d2 (so_state out)).
Proof.
  intros Hlt Hg out Ha Hs Hr. rewrite (step_calls t v d1 Hlt Hg). fold out.
  rewrite Hr, Ha, <- (app_nil_r (map ActOp os)).
  unfold bind, entered. rewrite (run_acts_ops os [] d1 d2 _ _ _ _ _ Hs).
  reflexivity.
Qed.

(** The callback calls [next] once, after its work on the container, and
    returns a value not loosely equal to [false]: the next step is queued,
    or, past the last key, the traversal completes. *)
Lemma step_advance (t : Traversal S) (v : JsVal) (d1 d2 : Dictionary)
    (os : list Op) :
  Nat.ltb (t_counter t) (List.length (t_keys t)) = true ->
  Get (nth (t_counter t) (t_keys t) "") (t_dict t) = (Ok v, d1) ->
  let out := cbIterator (t_closure t) d1 (nth (t_counter t) (t_keys t) "") v in
  so_acts out = map ActOp os ++ [ActAdvance] ->
  run_script os d1 = (Ok tt, d2) ->
  loose_eq_false (so_return out) = false ->
  step cbIterator cbComplete t
  = if Nat.ltb (Datatypes.S (t_counter t)) (List.length (t_keys t))
    then nextTick TStep (entered t v d2 (so_state out))
    else (complete cbComplete ;; ret tt) (entered t v d2 (so_state out)).
Proof.
  intros Hlt Hg out Ha Hs Hr. rewrite (step_calls t v d1 Hlt Hg). fold out.
  rewrite Hr, Ha. unfold bind at 1. unfold entered at 1.
  rewrite (run_acts_ops os [ActAdvance] d1 d2 _ _ _ _ _ Hs).
  fold (entered t v d2 (so_state out)).
  cbn [run_acts]. unfold bind.
  change (next cbComplete (entered t v d2 (so_state out)))
    with (if Nat.ltb (Datatypes.S (t_counter t)) (List.length (t_keys t))
          then nextTick TStep (entered t v d2 (so_state out))
          else complete cbComplete (entered t v d2 (so_state out))).
  destruct (Nat.ltb (Datatypes.S (t_counter t)) (List.length (t_keys t))).
  - reflexivity.
  - destruct (complete cbComplete _) as [[u| |] t']; reflexivity.
Qed.

End StepEval.

Lemma ticks_idle {S : Type} (cb : StepCallback S)
    (cbComplete : option CompleteCallback) (n : nat) (t : Traversal S) :
  t_queue t = [] -> ticks cb cbComplete n t = t.
Proof.
  intros Hq. induction n as [|n IH]; simpl; [reflexivity|].
  unfold tick. now rewrite Hq.
Qed.

(** ** C9: callback and promise exclude each other *)

(** C9: when a completion callback is supplied, [resolve()] is never
    called, whatever the step callback does and however long the traversal
    runs, and every way of reaching Done calls the completion callback: a
    step or a call of [next] that finds the cursor at the end, and a step
    whose callback returns a value loosely equal to [false].  Without a
    completion callback, conversely, only the promise is resolved. *)
Theorem completion_callback_exclusive (S : Type) (cb : StepCallback S)
    (cbComplete : CompleteCallback) (st : S) (d : Dictionary) (n : nat) :
  ~ In EvResolve
      (t_trace (ticks cb (Some cbComplete) n (asyncForEach cb (Some cbComplete) st d)))
  /\ ~ In EvComplete (t_trace (ticks cb None n (asyncForEach cb None st d)))
  /\ (forall t : Traversal S,
        Nat.ltb (t_counter t) (List.length (t_keys t)) = false ->
        t_trace (snd (step cb (Some cbComplete) t)) = t_trace t ++ [EvComplete]
        /\ t_trace (snd (next (Some cbComplete) t)) = t_trace t ++ [EvComplete])
  /\ (forall (t t1 : Traversal S) v d1,
        Nat.ltb (t_counter t) (List.length (t_keys t)) = true ->
        Get (nth (t_counter t) (t_keys t) "") (t_dict t) = (Ok v, d1) ->
        let out := cb (t_closure t) d1 (nth (t_counter t) (t_keys t) "") v in
        run_acts (Some cbComplete) (so_acts out) (entered t v d1 (so_state out))
        = (Ok tt, t1) ->
        loose_eq_false (so_return out) = true ->
        t_trace (snd (step cb (Some cbComplete) t)) = t_trace t1 ++ [EvComplete]).
Proof.
  split; [|split; [|split]].
  - intros Hin.
    pose proof (traversal_events S cb (Some cbComplete)
                  (fun e => e <> EvResolve) (fun _ => True)) as H.
    eapply Forall_forall in H; [apply H; reflexivity| | | | |exact Hin].
    + discriminate.
    + discriminate.
    + intros e [->|[->|[->| ->]]]; discriminate.
    + intros ks d' _. apply Forall_forall. auto.
  - intros Hin.
    pose proof (traversal_events S cb None
                  (fun e => e <> EvComplete) (fun _ => True)) as H.
    eapply Forall_forall in H; [apply H; reflexivity| | | | |exact Hin].
    + discriminate.
    + discriminate.
    + intros e [->|[->|[->| ->]]]; discriminate.
    + intros ks d' _. apply Forall_forall. auto.
  - intros t Hlt. split.
    + rewrite (step_at_end S cb _ t Hlt). apply complete_trace.
    + unfold next. rewrite Hlt. apply complete_trace.
  - intros t t1 v d1 Hlt Hg out Ha Hr.
    rewrite (step_on_loose_false S cb _ t t1 v d1 Hlt Hg Ha Hr).
    apply complete_trace.
Qed.

(** ** Removing keys one after the other *)

Lemma lookup_erase_same (k : string) (ps : list (string * JsVal)) :
  NoDup (map fst ps) -> lookup k (erase k ps) = None.
Proof.
  intros H. apply lookup_None. rewrite In_keys_erase_iff by exact H. tauto.
Qed.

Lemma lookup_erase_other (k k' : string) (ps : list (string * JsVal)) :
  k' <> k -> lookup k' (erase k ps) = lookup k' ps.
Proof.
  intros Hne. induction ps as [|[k0 v0] ps IH]; simpl; [reflexivity|].
  destruct (String.eqb_spec k k0) as [->|Hk]; simpl.
  - destruct (String.eqb_spec k' k0); [contradiction | reflexivity].
  - now rewrite IH.
Qed.

Lemma lookup_all_None (ps : list (string * JsVal)) :
  (forall k, lookup k ps = None) -> ps = [].
Proof.
  destruct ps as [|[k v] ps]; [reflexivity|]. intros H. specialize (H k).
  simpl in H. rewrite String.eqb_refl in H. discriminate H.
Qed.

Lemma removed_app (l1 l2 : list string) (d : Dictionary) :
  removed (l1 ++ l2) d = removed l2 (removed l1 d).
Proof. unfold removed. apply fold_left_app. Qed.

Lemma removed_proto (l : list string) (d : Dictionary) :
  proto_intact (removed l d) = proto_intact d.
Proof.
  revert d. induction l as [|k l IH]; intros d; simpl; [reflexivity|].
  unfold removed in *. simpl. now rewrite IH.
Qed.

Lemma removed_NoDup (l : list string) (d : Dictionary) :
  NoDup (own_keys d) -> NoDup (own_keys (removed l d)).
Proof.
  revert d. induction l as [|k l IH]; intros d H; simpl; [exact H|].
  unfold removed in *. simpl. apply IH. unfold own_keys. simpl.
  now apply NoDup_keys_erase.
Qed.

Lemma removed_lookup (l : list string) (d : Dictionary) (k : string) :
  NoDup (own_keys d) ->
  lookup k (props (removed l d))
  = if in_dec string_dec k l then None else lookup k (props d).
Proof.
  revert d. induction l as [|k0 l IH]; intros d H; [reflexivity|].
  change (removed (k0 :: l) d)
    with (removed l (with_props (invalidated d) (erase k0 (props d)))).
  rewrite IH by (unfold own_keys; simpl; now apply NoDup_keys_erase).
  simpl props.
  destruct (in_dec string_dec k l) as [Hin|Hout];
    destruct (in_dec string_dec k (k0 :: l)) as [Hin'|Hout'];
    try reflexivity.
  - exfalso. apply Hout'. now right.
  - destruct Hin' as [->|Hin']; [|contradiction].
    now apply lookup_erase_same.
  - apply lookup_erase_other. intros ->. apply Hout'. now left.
Qed.

Lemma removed_all (l : list string) (d : Dictionary) :
  NoDup (own_keys d) -> (forall k, In k (own_keys d) -> In k l) ->
  props (removed l d) = [].
Proof.
  intros Hn Hall. apply lookup_all_None. intros k.
  rewrite removed_lookup by exact Hn.
  destruct (in_dec string_dec k l) as [Hin|Hout]; [reflexivity|].
  apply lookup_None. auto.
Qed.

Lemma removed_resolves (l : list string) (d : Dictionary) (name : string) :
  NoDup (own_keys d) -> resolves name d -> resolves name (removed l d).
Proof.
  intros Hn. rewrite !resolves_iff, removed_proto, removed_lookup by exact Hn.
  intros [H1 H2]. split; [|exact H2].
  now destruct (in_dec string_dec name l).
Qed.

(** Removing a key that is there. *)
Lemma remove_own (k : string) (v : JsVal) (d : Dictionary) :
  resolves "remove" d -> resolves "invalidate" d ->
  lookup k (props d) = Some v ->
  run_script [OpRemove (KStr k)] d
  = (Ok tt, with_props (invalidated d) (erase k (props d))).
Proof.
  intros Hr Hi Hl. simpl. unfold bind, remove, bind.
  rewrite (method_resolved _ _ Hr), (invalidate_resolved _ Hi).
  unfold Delete. simpl. now rewrite Hl.
Qed.

Lemma firstn_succ (l : list string) (j : nat) :
  j < List.length l -> firstn (Datatypes.S j) l = firstn j l ++ [nth j l ""].
Proof.
  revert j. induction l as [|a l IH]; intros j H; simpl in H; [lia|].
  destruct j as [|j]; [reflexivity|].
  change (firstn (Datatypes.S (Datatypes.S j)) (a :: l))
    with (a :: firstn (Datatypes.S j) l).
  rewrite IH by lia. reflexivity.
Qed.

Lemma nth_not_in_firstn (l : list string) (j : nat) :
  NoDup l -> j < List.length l -> ~ In (nth j l "") (firstn j l).
Proof.
  revert j. induction l as [|a l IH]; intros j Hn H; simpl in H; [lia|].
  inversion Hn as [|? ? Ha Hl]; subst.
  destruct j as [|j]; simpl; [tauto|].
  intros [E|Hin].
  - apply Ha. rewrite E. apply nth_In. lia.
  - apply (IH j Hl); [lia | exact Hin].
Qed.

Lemma fulfilled_steps (d : Dictionary) (l : list string) (rest : list Event) :
  fulfilled (steps_of d l ++ rest) = fulfilled rest.
Proof. induction l as [|k l IH]; simpl; auto. Qed.

Lemma removed_well_formed (l : list string) (d : Dictionary) :
  well_formed d -> well_formed (removed l d).
Proof.
  revert d. induction l as [|k l IH]; intros d H; [exact H|].
  change (removed (k :: l) d)
    with (removed l (with_props (invalidated d) (erase k (props d)))).
  apply IH. destruct H as (Hn & Hr & Hc & Hk).
  unfold well_formed, cache_valid, own_keys in *; simpl.
  repeat split.
  - now apply NoDup_keys_erase.
  - intros Hin. apply Hr. eapply In_keys_erase; exact Hin.
  - discriminate.
  - exact Hk.
Qed.

(** On a container with no own property left, [size()] is 0. *)
Lemma size_of_empty (d : Dictionary) :
  well_formed d -> proto_intact d = true -> props d = [] ->
  fst (size d) = Ok 0.
Proof.
  intros Hw Hp He.
  assert (Hm : forall name, resolves name d)
    by (intros name; apply resolves_iff; now rewrite He).
  unfold size, bind. rewrite (method_resolved _ _ (Hm "size")).
  destruct (getKeys_resolved d (Hm "getKeys") Hw) as (d' & -> & _).
  now rewrite (Object_keys_nil d He).
Qed.

Lemma asyncEmpty_ticks_succ (cbComplete : option CompleteCallback) (i : nat)
    (e : Emptying) :
  asyncEmpty_ticks cbComplete (Datatypes.S i) e
  = asyncEmpty_tick cbComplete (asyncEmpty_ticks cbComplete i e).
Proof.
  revert e. induction i as [|i IH]; intros e; [reflexivity|].
  change (asyncEmpty_ticks cbComplete (Datatypes.S (Datatypes.S i)) e)
    with (asyncEmpty_ticks cbComplete (Datatypes.S i) (asyncEmpty_tick cbComplete e)).
  now rewrite IH.
Qed.

(** ** The run of [asyncEmpty] *)

Section Emptying.

(** [d] is the container as [getKeys()] left it and [ks] the captured keys. *)
Variable d : Dictionary.
Variable ks : list string.
Hypothesis own_distinct : NoDup (own_keys d).
Hypothesis keys_distinct : NoDup ks.
Hypothesis keys_own : forall k, In k ks -> In k (own_keys d).
Hypothesis remove_resolves : resolves "remove" d.
Hypothesis invalidate_resolves : resolves "invalidate" d.

Lemma key_still_stored (j : nat) :
  j < List.length ks ->
  lookup (nth j ks "") (props (removed (firstn j ks) d))
  = Some (stored d (nth j ks "")).
Proof.
  intros Hj. rewrite removed_lookup by exact own_distinct.
  destruct (in_dec string_dec (nth j ks "") (firstn j ks)) as [Hin|_].
  - exfalso. exact (nth_not_in_firstn ks j keys_distinct Hj Hin).
  - unfold stored.
    assert (Hin : In (nth j ks "") (own_keys d)) by (apply keys_own, nth_In, Hj).
    apply lookup_In in Hin.
    now destruct (lookup (nth j ks "") (props d)).
Qed.

Lemma removed_succ (j : nat) :
  j < List.length ks ->
  removed (firstn (Datatypes.S j) ks) d
  = with_props (invalidated (removed (firstn j ks) d))
      (erase (nth j ks "") (props (removed (firstn j ks) d))).
Proof.
  intros Hj. now rewrite (firstn_succ ks j Hj), removed_app.
Qed.

(** One step of [asyncEmpty]'s traversal removes the key at the cursor and
    either queues the next step or resolves the promise. *)
Lemma asyncEmpty_step (j : nat) (q : list Task) (tr : list Event) :
  j < List.length ks ->
  step asyncEmpty_callback None
    (mkTraversal (removed (firstn j ks) d) tt ks j q tr)
  = (Ok tt,
     mkTraversal (removed (firstn (Datatypes.S j) ks) d) tt ks (Datatypes.S j)
       (if Nat.ltb (Datatypes.S j) (List.length ks) then q ++ [TStep] else q)
       (tr ++ EvStep (nth j ks "") (stored d (nth j ks ""))
           :: (if Nat.ltb (Datatypes.S j) (List.length ks) then [] else [EvResolve]))).
Proof.
  intros Hj.
  set (D := removed (firstn j ks) d).
  set (key := nth j ks "").
  set (t := mkTraversal D tt ks j q tr).
  assert (Hl : lookup key (props D) = Some (stored d key))
    by exact (key_still_stored j Hj).
  assert (Hlt : Nat.ltb (t_counter t) (List.length (t_keys t)) = true)
    by (apply Nat.ltb_lt; exact Hj).
  assert (Hg : Get (nth (t_counter t) (t_keys t) "") (t_dict t)
               = (Ok (stored d key), D))
    by (apply Get_own; exact Hl).
  rewrite (step_advance unit asyncEmpty_callback None t (stored d key) D
             (with_props (invalidated D) (erase key (props D)))
             [OpRemove (KStr key)] Hlt Hg).
  - unfold entered, t. simpl t_counter. simpl t_keys. simpl t_queue. simpl t_trace.
    fold key. rewrite (removed_succ j Hj). fold D. fold key.
    destruct (Nat.ltb (Datatypes.S j) (List.length ks)).
    + reflexivity.
    + unfold bind, complete, emit, ret. simpl. now rewrite <- app_assoc.
  - reflexivity.
  - apply (remove_own key (stored d key)); [| |exact Hl];
      now apply removed_resolves.
  - reflexivity.
Qed.

Lemma emptying_stage_start :
  end_of_executor (step asyncEmpty_callback None (mkTraversal d tt ks 0 [] []))
  = emptying_stage d ks 0.
Proof.
  unfold emptying_stage.
  destruct (Nat.ltb 0 (List.length ks)) eqn:E0.
  - apply Nat.ltb_lt in E0.
    pose proof (asyncEmpty_step 0 [] [] E0) as H.
    change (removed (firstn 0 ks) d) with d in H. rewrite H.
    rewrite Nat.min_l by lia. rewrite (firstn_succ ks 0 E0).
    simpl end_of_executor. reflexivity.
  - rewrite (step_at_end unit asyncEmpty_callback None
               (mkTraversal d tt ks 0 [] []) E0).
    apply Nat.ltb_ge in E0.
    assert (Hlen : List.length ks = 0) by lia.
    rewrite Nat.min_r by lia. rewrite Hlen. reflexivity.
Qed.

Lemma emptying_stage_tick (i : nat) :
  tick asyncEmpty_callback None (emptying_stage d ks i)
  = emptying_stage d ks (Datatypes.S i).
Proof.
  unfold emptying_stage, tick.
  destruct (Nat.ltb (Nat.min (Datatypes.S i) (List.length ks)) (List.length ks))
    eqn:Elt; simpl t_queue.
  - apply Nat.ltb_lt in Elt.
    assert (Hi : Datatypes.S i < List.length ks) by lia.
    rewrite (Nat.min_l (Datatypes.S i)) by lia.
    rewrite (Nat.min_l (Datatypes.S (Datatypes.S i))) by lia.
    simpl t_dict. simpl t_closure. simpl t_keys. simpl t_counter. simpl t_trace.
    rewrite (asyncEmpty_step (Datatypes.S i) [] _ Hi). simpl end_of_task.
    rewrite app_nil_r.
    rewrite (firstn_succ ks (Datatypes.S i) Hi) at 2.
    unfold steps_of. rewrite map_app. simpl map. rewrite <- app_assoc.
    simpl app.
    destruct (Nat.ltb (Datatypes.S (Datatypes.S i)) (List.length ks)); reflexivity.
  - apply Nat.ltb_ge in Elt.
    assert (Hi : List.length ks <= Datatypes.S i) by lia.
    rewrite (Nat.min_r (Datatypes.S i)) by lia.
    rewrite (Nat.min_r (Datatypes.S (Datatypes.S i))) by lia.
    now rewrite Nat.ltb_irrefl.
Qed.

Lemma emptying_stage_fulfilled (i : nat) :
  fulfilled (t_trace (emptying_stage d ks i))
  = negb (Nat.ltb (Nat.min (Datatypes.S i) (List.length ks)) (List.length ks)).
Proof.
  unfold emptying_stage. simpl t_trace. rewrite fulfilled_steps.
  now destruct (Nat.ltb _ _).
Qed.

Lemma emptying_stage_done (i : nat) :
  List.length ks <= Datatypes.S i ->
  emptying_stage d ks i
  = mkTraversal (removed ks d) tt ks (List.length ks) []
      (steps_of d ks ++ [EvResolve]).
Proof.
  intros Hi. unfold emptying_stage.
  replace (Nat.min (Datatypes.S i) (List.length ks)) with (List.length ks) by lia.
  now rewrite Nat.ltb_irrefl, firstn_all.
Qed.

Lemma emptying_stage_queue (i : nat) :
  List.length ks <= Datatypes.S i -> t_queue (emptying_stage d ks i) = [].
Proof. intros Hi. now rewrite (emptying_stage_done i Hi). Qed.

Lemma emptying_stage_pending (i : nat) :
  Datatypes.S i < List.length ks ->
  fulfilled (t_trace (emptying_stage d ks i)) = false.
Proof.
  intros Hi. rewrite emptying_stage_fulfilled.
  replace (Nat.min (Datatypes.S i) (List.length ks)) with (Datatypes.S i) by lia.
  apply negb_false_iff, Nat.ltb_lt, Hi.
Qed.

Lemma resume_pending (cbComplete : option CompleteCallback) (i : nat) :
  Datatypes.S i < List.length ks ->
  resume cbComplete (mkEmptying (emptying_stage d ks i) true [])
  = mkEmptying (emptying_stage d ks i) true [].
Proof.
  intros Hi. unfold resume. simpl e_awaiting. simpl e_traversal.
  now rewrite (emptying_stage_pending i Hi).
Qed.

(** Once the awaited promise is fulfilled, [asyncEmpty] notifies, on a
    container from which every captured key is gone. *)
Lemma resume_done (cbComplete : option CompleteCallback) (i : nat) :
  List.length ks <= Datatypes.S i ->
  resume cbComplete (mkEmptying (emptying_stage d ks i) true [])
  = mkEmptying
      (mkTraversal
         match cbComplete with
         | Some cb => snd (run_script (cb (removed ks d)) (removed ks d))
         | None => removed ks d
         end tt ks (List.length ks) [] (steps_of d ks ++ [EvResolve]))
      false [notification cbComplete].
Proof.
  intros Hi. rewrite (emptying_stage_done i Hi). unfold resume.
  simpl e_awaiting. simpl e_traversal. simpl t_trace.
  rewrite fulfilled_steps. simpl fulfilled. simpl andb. cbv iota.
  destruct cbComplete as [cb|]; [|reflexivity].
  simpl t_dict. now destruct (run_script _ _).
Qed.

(** After [i] ticks [asyncEmpty] is at stage [i], resumed if the promise it
    awaits is fulfilled. *)
Lemma asyncEmpty_ticks_stage (cbComplete : option CompleteCallback) (i : nat) :
  asyncEmpty_ticks cbComplete i
    (resume cbComplete (mkEmptying (emptying_stage d ks 0) true []))
  = resume cbComplete (mkEmptying (emptying_stage d ks i) true []).
Proof.
  assert (Hstep : forall j,
            asyncEmpty_tick cbComplete
              (resume cbComplete (mkEmptying (emptying_stage d ks j) true []))
            = resume cbComplete
                (mkEmptying (emptying_stage d ks (Datatypes.S j)) true [])).
  { intros j.
    destruct (Nat.ltb (Datatypes.S j) (List.length ks)) eqn:Elt.
    - apply Nat.ltb_lt in Elt. rewrite (resume_pending _ j Elt).
      unfold asyncEmpty_tick. simpl e_traversal. simpl e_awaiting.
      simpl e_notified. now rewrite emptying_stage_tick.
    - apply Nat.ltb_ge in Elt.
      rewrite (resume_done _ j Elt), (resume_done _ (Datatypes.S j)) by lia.
      reflexivity. }
  induction i as [|i IH]; [reflexivity|].
  now rewrite asyncEmpty_ticks_succ, IH, Hstep.
Qed.

End Emptying.

(** ** The run of [empty] *)

Section EmptyLoop.

Variable d : Dictionary.
Hypothesis own_distinct : NoDup (own_keys d).
Hypothesis has_resolves : resolves "has" d.
Hypothesis hasOwnProperty_resolves : resolves "hasOwnProperty" d.
Hypothesis remove_resolves : resolves "remove" d.
Hypothesis invalidate_resolves : resolves "invalidate" d.

Lemma empty_loop (rest done : list string) (log : list Visit) :
  NoDup (done ++ rest) ->
  (forall k, In k rest -> In k (own_keys d) /\ contains_reserved k = false) ->
  exists l,
    each_loop empty_callback rest (mkEachState (removed done d) tt log)
    = (Ok tt, mkEachState (removed (done ++ rest) d) tt (log ++ l)).
Proof.
  revert done log. induction rest as [|k rest IH]; intros done log Hn Hk.
  - exists []. now rewrite !app_nil_r.
  - set (D := removed done d).
    destruct (Hk k (or_introl eq_refl)) as [Hown Hplain].
    assert (Hout : ~ In k done).
    { intros Hin. apply NoDup_remove_2 in Hn. apply Hn, in_or_app. now left. }
    assert (Hl : lookup k (props D) = Some (stored d k)).
    { unfold D. rewrite removed_lookup by exact own_distinct.
      destruct (in_dec string_dec k done); [contradiction|].
      unfold stored. apply lookup_In in Hown.
      now destruct (lookup k (props d)). }
    assert (Hh : has (KStr k) D = (Ok true, D)).
    { rewrite (has_own k D); try (now apply removed_resolves).
      - now rewrite Hplain.
      - eapply lookup_Some_In; exact Hl. }
    rewrite (each_loop_visit empty_callback k rest D tt log (stored d k) Hh
               (Get_own k _ D Hl)).
    unfold bind at 1. unfold call_each at 1. unfold empty_callback at 1 2 3.
    simpl eo_script. simpl es_dict.
    rewrite (remove_own k (stored d k) D); try (now apply removed_resolves);
      [|exact Hl].
    simpl eo_return. simpl strict_eq_false. cbv iota. simpl eo_state.
    simpl es_log. simpl es_closure.
    assert (HD : with_props (invalidated D) (erase k (props D))
                 = removed (done ++ [k]) d) by (now rewrite removed_app).
    rewrite HD.
    destruct (IH (done ++ [k]) (log ++ [mkVisit k (stored d k) (Some VUndefined)]))
      as (l & E).
    + now rewrite <- app_assoc.
    + intros k' Hin. apply Hk. now right.
    + exists (mkVisit k (stored d k) (Some VUndefined) :: l).
      cbn [eo_return strict_eq_false]. rewrite E, <- !app_assoc. reflexivity.
Qed.

Lemma empty_all :
  resolves "empty" d -> resolves "forEach" d -> resolves "each" d ->
  (forall k, In k (own_keys d) -> contains_reserved k = false) ->
  empty d = (Ok tt, removed (Object_keys d) d).
Proof.
  intros H1 H2 H3 Hplain.
  destruct (empty_loop (Object_keys d) [] []) as (l & E).
  - simpl. now apply NoDup_Object_keys.
  - intros k Hin. apply In_Object_keys in Hin. auto.
  - unfold empty, bind. rewrite (method_resolved _ _ H1).
    rewrite (forEach_resolved empty_callback d tt [] H2).
    rewrite (each_resolved empty_callback d tt [] H3).
    change (removed [] d) with d in E. now rewrite E.
Qed.

End EmptyLoop.

(** ** C7: [asyncEmpty] *)

(** C7, as stated, fails in its last part: a key that contains the
    reserved identifier is removed by [asyncEmpty()], which walks
    [getKeys()], but survives [empty()], whose loop skips what [has]
    denies. *)
Lemma asyncEmpty_empty_counterexample :
  let d := perform [OpSet (KStr "a__private__") (VNum 1)] (new_Dictionary false) in
  let e := asyncEmpty_ticks None 1 (asyncEmpty None d) in
  e_notified e = [EvResolve]
  /\ fst (size (t_dict (e_traversal e))) = Ok 0
  /\ fst (empty d) = Ok tt
  /\ fst (size (snd (empty d))) = Ok 1.
Proof. repeat split; reflexivity. Qed.

(** C7, amended: on a well-formed container whose [asyncEmpty],
    [asyncForEach], [getKeys], [remove] and [invalidate] can be called, with
    no other mutation during the traversal, [asyncEmpty()] notifies its
    completion exactly when as many ticks have passed as there are keys
    after the first, not before, and at that moment every key is removed and
    [size()] is 0.  When moreover no key contains the reserved identifier
    and [empty]'s own methods can be called, the blocking [empty()] leaves
    the same, empty, storage. *)
Theorem asyncEmpty_empties (cbComplete : option CompleteCallback) (d : Dictionary) :
  well_formed d ->
  resolves "asyncEmpty" d -> resolves "asyncForEach" d -> resolves "getKeys" d ->
  resolves "remove" d -> resolves "invalidate" d ->
  exists d1,
    props d1 = [] /\ fst (size d1) = Ok 0
    /\ (forall i, Datatypes.S i < List.length (props d) ->
          e_notified (asyncEmpty_ticks cbComplete i (asyncEmpty cbComplete d)) = [])
    /\ (forall i, List.length (props d) <= Datatypes.S i ->
          e_notified (asyncEmpty_ticks cbComplete i (asyncEmpty cbComplete d))
          = [notification cbComplete]
          /\ t_dict (e_traversal
                       (asyncEmpty_ticks cbComplete i (asyncEmpty cbComplete d)))
             = match cbComplete with
               | Some cb => snd (run_script (cb d1) d1)
               | None => d1
               end)
    /\ ((forall k, In k (own_keys d) -> contains_reserved k = false) ->
        resolves "empty" d -> resolves "forEach" d -> resolves "each" d ->
        resolves "has" d -> resolves "hasOwnProperty" d ->
        exists d2, empty d = (Ok tt, d2)
                   /\ props d2 = props d1 /\ fst (size d2) = Ok 0).
Proof.
  intros Hw Hae Haf Hgk Hrm Hinv.
  destruct (getKeys_resolved d Hgk Hw) as (d' & Hg & Hr & _).
  pose proof Hr as (Hp & Hq & _).
  set (ks := Object_keys d).
  assert (Hn : NoDup (own_keys d)) by apply Hw.
  assert (Hn' : NoDup (own_keys d')) by (unfold own_keys; now rewrite Hp).
  assert (Hks : NoDup ks) by (now apply NoDup_Object_keys).
  assert (Hown : forall k, In k ks -> In k (own_keys d'))
    by (intros k Hin; unfold own_keys; rewrite Hp; now apply In_Object_keys).
  assert (Hall : forall k, In k (own_keys d') -> In k ks)
    by (intros k Hin; apply In_Object_keys; unfold own_keys in *; now rewrite <- Hp).
  assert (Hrm' : resolves "remove" d') by (eapply resolves_reads; eauto).
  assert (Hinv' : resolves "invalidate" d') by (eapply resolves_reads; eauto).
  assert (Hlen : List.length ks = List.length (props d)).
  { unfold ks. rewrite (Permutation_length (Object_keys_perm d)).
    unfold own_keys. apply length_map. }
  assert (Hproto : proto_intact d = true) by (now apply resolves_iff in Hgk).
  assert (Hrun : forall i,
            asyncEmpty_ticks cbComplete i (asyncEmpty cbComplete d)
            = resume cbComplete (mkEmptying (emptying_stage d' ks i) true [])).
  { intros i. unfold asyncEmpty. rewrite (method_resolved _ _ Hae).
    unfold asyncForEach. rewrite (method_resolved _ _ Haf), Hg. fold ks.
    rewrite (emptying_stage_start d' ks Hn' Hks Hown Hrm' Hinv').
    apply (asyncEmpty_ticks_stage d' ks Hn' Hks Hown Hrm' Hinv'). }
  exists (removed ks d').
  assert (He : props (removed ks d') = []) by (now apply removed_all).
  assert (Hsize : forall x, well_formed x -> proto_intact x = true ->
                            (forall k, In k (own_keys x) -> In k ks) ->
                            props (removed ks x) = []
                            /\ fst (size (removed ks x)) = Ok 0).
  { intros x Hx Hpx Hax.
    assert (Hex : props (removed ks x) = []) by (apply removed_all; [apply Hx | exact Hax]).
    split; [exact Hex|]. apply size_of_empty; [|  | exact Hex].
    - now apply removed_well_formed.
    - now rewrite removed_proto. }
  split; [exact He|]. split; [|split; [|split]].
  - apply Hsize; [eapply well_formed_reads; eauto | congruence | exact Hall].
  - intros i Hi. rewrite Hrun, resume_pending; [reflexivity|]. now rewrite Hlen.
  - intros i Hi. rewrite Hrun.
    rewrite (resume_done d' ks cbComplete i) by (now rewrite Hlen).
    split; reflexivity.
  - intros Hplain He1 He2 He3 Hh1 Hh2.
    exists (removed ks d). split.
    + now apply empty_all.
    + destruct (Hsize d Hw Hproto) as [E1 E2].
      * intros k Hin. now apply In_Object_keys.
      * split; [congruence | exact E2].
Qed.

Lemma asyncEmpty_empties_witness :
  let d := perform [OpSet (KStr "a") (VNum 1); OpSet (KStr "b") (VNum 2);
                    OpSet (KStr "c") (VNum 3); OpSet (KStr "d") (VNum 4);
                    OpSet (KStr "e") (VNum 5)] (new_Dictionary true) in
  exists d1,
    props d1 = [] /\ fst (size d1) = Ok 0
    /\ e_notified (asyncEmpty_ticks None 3 (asyncEmpty None d)) = []
    /\ e_notified (asyncEmpty_ticks None 4 (asyncEmpty None d)) = [EvResolve]
    /\ t_dict (e_traversal (asyncEmpty_ticks None 4 (asyncEmpty None d))) = d1
    /\ exists d2, empty d = (Ok tt, d2) /\ props d2 = props d1
                  /\ fst (size d2) = Ok 0.
Proof.
  intros d.
  assert (Hw : well_formed d)
    by (apply invariant_perform;
        [apply well_formed_invariant | apply well_formed_new]).
  destruct (asyncEmpty_empties None d Hw) as (d1 & H1 & H2 & H3 & H4 & H5);
    try reflexivity.
  exists d1. split; [exact H1|]. split; [exact H2|].
  split; [apply H3; vm_compute; lia|].
  destruct (H4 4) as [H4a H4b]; [vm_compute; lia|].
  split; [exact H4a|]. split; [exact H4b|].
  apply H5; try reflexivity.
  intros k Hk. vm_compute in Hk.
  destruct Hk as [<-|[<-|[<-|[<-|[<-|[]]]]]]; reflexivity.
Defined.

Lemma first_step_is_synchronous_witness :
  let idle : StepCallback unit := fun _ _ _ _ => mkStepOut tt [] VUndefined in
  let d := perform [OpSet (KStr "a") (VNum 1)] (new_Dictionary false) in
  hd_error (t_trace (asyncForEach idle None tt (new_Dictionary false)))
  = Some EvResolve
  /\ hd_error (t_trace (asyncForEach idle None tt d)) = Some (EvStep "a" (VNum 1))
  /\ count_steps (t_trace (asyncForEach idle None tt d)) <= 1
  /\ tick idle None (asyncForEach idle None tt d) = asyncForEach idle None tt d.
Proof.
  intros idle d.
  destruct (first_step_is_synchronous unit idle None tt (new_Dictionary false))
    as (H1 & _).
  destruct (first_step_is_synchronous unit idle None tt d) as (_ & H2 & H3 & H4).
  split; [apply (H1 (new_Dictionary false)); reflexivity|].
  split; [apply (H2 "a" [] d (VNum 1) d); reflexivity|].
  split; [exact H3|].
  apply (H4 (asyncForEach idle None tt d)). reflexivity.
Defined.

Lemma completion_callback_exclusive_witness :
  let advance : StepCallback unit :=
    fun _ _ _ _ => mkStepOut tt [ActAdvance] VUndefined in
  let zero : StepCallback unit := fun _ _ _ _ => mkStepOut tt [] (VNum 0) in
  let done : CompleteCallback := fun _ => [] in
  let d := perform [OpSet (KStr "a") (VNum 1); OpSet (KStr "b") (VNum 2);
                    OpSet (KStr "c") (VNum 3)] (new_Dictionary false) in
  t_trace (ticks advance (Some done) 2 (asyncForEach advance (Some done) tt d))
  = [EvStep "a" (VNum 1); EvStep "b" (VNum 2); EvStep "c" (VNum 3); EvComplete]
  /\ ~ In EvResolve
       (t_trace (ticks advance (Some done) 2 (asyncForEach advance (Some done) tt d)))
  /\ ~ In EvComplete (t_trace (ticks advance None 2 (asyncForEach advance None tt d)))
  /\ t_trace (snd (step advance (Some done) (mkTraversal d tt ["a"; "b"; "c"] 3 [] [])))
     = [EvComplete]
  /\ t_trace (snd (step zero (Some done) (mkTraversal d tt ["a"; "b"; "c"] 1 [] [])))
     = [EvStep "b" (VNum 2); EvComplete].
Proof.
  intros advance zero done d.
  destruct (completion_callback_exclusive unit advance done tt d 2)
    as (H1 & H2 & H3 & _).
  destruct (completion_callback_exclusive unit zero done tt d 2) as (_ & _ & _ & H4).
  split; [reflexivity|]. split; [exact H1|]. split; [exact H2|]. split.
  - apply (H3 (mkTraversal d tt ["a"; "b"; "c"] 3 [] [])). reflexivity.
  - apply (H4 (mkTraversal d tt ["a"; "b"; "c"] 1 [] [])
              (mkTraversal d tt ["a"; "b"; "c"] 2 [] [EvStep "b" (VNum 2)])
              (VNum 2) d); reflexivity.
Defined.

(** * Further properties of the storage methods *)

Lemma has_eval (key : JsKey) (d : Dictionary) :
  resolves "has" d -> resolves "hasOwnProperty" d ->
  has key d = (Ok (has_answer key d), d).
Proof.
  intros H1 H2. unfold has, bind. rewrite (method_resolved _ _ H1).
  destruct key as [| |s]; try reflexivity. unfold has_answer.
  fold (contains_reserved s). destruct (contains_reserved s) eqn:Ec; [reflexivity|].
  unfold hasOwnProperty, bind. rewrite (method_resolved _ _ H2). simpl.
  destruct (lookup s (props d)); [reflexivity|].
  apply not_reserved_of_plain, String.eqb_neq in Ec. now rewrite Ec.
Qed.

Lemma set_eval (key : JsKey) (v : JsVal) (d : Dictionary) :
  resolves "set" d -> resolves "invalidate" d ->
  set key v d = Put (ToPropertyKey key) v (invalidated d).
Proof.
  intros Hs Hi. unfold set, bind.
  rewrite (method_resolved _ _ Hs), (invalidate_resolved _ Hi).
  now destruct (Put (ToPropertyKey key) v (invalidated d)) as [[u| |] d'].
Qed.

Lemma remove_eval (key : JsKey) (d : Dictionary) :
  resolves "remove" d -> resolves "invalidate" d ->
  remove key d = Delete (ToPropertyKey key) (invalidated d).
Proof.
  intros Hs Hi. unfold remove, bind.
  rewrite (method_resolved _ _ Hs), (invalidate_resolved _ Hi).
  now destruct (Delete (ToPropertyKey key) (invalidated d)) as [[u| |] d'].
Qed.

Lemma erase_absent (k : string) (ps : list (string * JsVal)) :
  lookup k ps = None -> erase k ps = ps.
Proof.
  induction ps as [|[k0 v0] ps IH]; simpl; [reflexivity|].
  destruct (String.eqb k k0); [discriminate|]. intros H. now rewrite IH.
Qed.

Lemma assign_assign (k : string) (v1 v2 : JsVal) (ps : list (string * JsVal)) :
  assign k v2 (assign k v1 ps) = assign k v2 ps.
Proof.
  induction ps as [|[k0 v0] ps IH]; simpl.
  - now rewrite String.eqb_refl.
  - destruct (String.eqb k k0) eqn:E; simpl; rewrite E; [reflexivity|].
    now rewrite IH.
Qed.

Lemma length_assign (k : string) (v : JsVal) (ps : list (string * JsVal)) :
  List.length (assign k v ps)
  = match lookup k ps with
    | Some _ => List.length ps
    | None => Datatypes.S (List.length ps)
    end.
Proof.
  induction ps as [|[k0 v0] ps IH]; simpl; [reflexivity|].
  destruct (String.eqb k k0); simpl; [reflexivity|].
  rewrite IH. now destruct (lookup k ps).
Qed.

Lemma length_erase (k : string) (ps : list (string * JsVal)) :
  List.length (erase k ps)
  = match lookup k ps with
    | Some _ => List.length ps - 1
    | None => List.length ps
    end.
Proof.
  induction ps as [|[k0 v0] ps IH]; simpl; [reflexivity|].
  destruct (String.eqb k k0); simpl; [lia|].
  rewrite IH. destruct (lookup k ps) eqn:E; [|reflexivity].
  destruct ps; [discriminate E | simpl; lia].
Qed.

(** ** X1: [getDefault] *)

(** X1: when [getDefault] and the methods it uses can be called, it leaves
    the container as it is and returns the stored value exactly when [has]
    accepts the key: for [null], [undefined], a key that contains the
    reserved identifier (even a stored one) and a key that is not stored it
    returns the default; a stored [undefined] is returned as such. *)
Theorem getDefault_returns (d : Dictionary) (key : JsKey) (dv : JsVal) :
  resolves "getDefault" d -> resolves "has" d -> resolves "hasOwnProperty" d ->
  getDefault key dv d
  = (Ok match key with
        | KStr s =>
            if contains_reserved s then dv
            else match lookup s (props d) with
                 | Some v => v
                 | None => dv
                 end
        | _ => dv
        end, d).
Proof.
  intros H0 H1 H2. unfold getDefault, bind.
  rewrite (method_resolved _ _ H0), (has_eval key d H1 H2).
  destruct key as [| |s]; try reflexivity. unfold has_answer.
  destruct (contains_reserved s); [reflexivity|]. simpl.
  destruct (lookup s (props d)) as [v|] eqn:El; [|reflexivity].
  now apply Get_own.
Qed.

Lemma getDefault_returns_witness :
  let d := perform [OpSet (KStr "a") VUndefined; OpSet (KStr "x__private__") (VNum 1)]
             (new_Dictionary false) in
  getDefault (KStr "a") (VNum 7) d = (Ok VUndefined, d)
  /\ getDefault (KStr "x__private__") (VNum 7) d = (Ok (VNum 7), d)
  /\ getDefault (KStr "b") (VNum 7) d = (Ok (VNum 7), d)
  /\ getDefault KNull (VNum 7) d = (Ok (VNum 7), d).
Proof.
  intros d. split; [|split; [|split]].
  - exact (getDefault_returns d (KStr "a") (VNum 7) eq_refl eq_refl eq_refl).
  - exact (getDefault_returns d (KStr "x__private__") (VNum 7)
             eq_refl eq_refl eq_refl).
  - exact (getDefault_returns d (KStr "b") (VNum 7) eq_refl eq_refl eq_refl).
  - exact (getDefault_returns d KNull (VNum 7) eq_refl eq_refl eq_refl).
Defined.

(** ** X2: [remove] *)

(** X2: when [remove] and [invalidate] can be called on a container with
    distinct own names, removing a key other than the reserved one succeeds
    whether or not the key is stored: afterwards the key is not stored, every
    other property is as before, the key cache is marked dirty, and if the
    key was not stored the storage is unchanged. *)
Theorem remove_deletes (d : Dictionary) (key : JsKey) :
  resolves "remove" d -> resolves "invalidate" d -> NoDup (own_keys d) ->
  ToPropertyKey key <> reserved ->
  exists d',
    remove key d = (Ok tt, d')
    /\ lookup (ToPropertyKey key) (props d') = None
    /\ (forall k, k <> ToPropertyKey key -> lookup k (props d') = lookup k (props d))
    /\ invalidateKeys (__private__ d') = true
    /\ (lookup (ToPropertyKey key) (props d) = None -> props d' = props d).
Proof.
  intros Hr Hi Hn Hk. rewrite (remove_eval key d Hr Hi). unfold Delete.
  set (k := ToPropertyKey key) in *. simpl props.
  destruct (lookup k (props d)) eqn:El.
  - eexists. split; [reflexivity|]. simpl. repeat split.
    + now apply lookup_erase_same.
    + intros k' Hne. now apply lookup_erase_other.
    + discriminate.
  - apply String.eqb_neq in Hk. rewrite Hk.
    eexists. split; [reflexivity|]. simpl. repeat split; auto.
Qed.

Lemma remove_deletes_witness :
  let d := perform [OpSet (KStr "a") (VNum 1); OpSet (KStr "b") (VNum 2)]
             (new_Dictionary true) in
  exists d',
    remove (KStr "a") d = (Ok tt, d')
    /\ lookup "a" (props d') = None
    /\ (forall k, k <> "a" -> lookup k (props d') = lookup k (props d))
    /\ invalidateKeys (__private__ d') = true
    /\ (lookup "a" (props d) = None -> props d' = props d).
Proof.
  intros d. apply (remove_deletes d (KStr "a")); try reflexivity.
  - repeat constructor; simpl; intuition discriminate.
  - discriminate.
Defined.

(** ** X3: [set] touches one property *)

(** X3: when [set] and [invalidate] can be called, [set(k, v)] returns
    normally or throws a [TypeError] with the stored properties unchanged,
    and in both cases it touches no other key: every other name keeps its
    value, and is listed by [Object.keys] afterwards exactly when it was
    listed before. *)
Theorem set_touches_one (d : Dictionary) (key : JsKey) (v : JsVal) :
  resolves "set" d -> resolves "invalidate" d ->
  (fst (set key v d) = Ok tt
   \/ (fst (set key v d) = TypeError /\ props (snd (set key v d)) = props d))
  /\ forall k, k <> ToPropertyKey key ->
       lookup k (props (snd (set key v d))) = lookup k (props d)
       /\ (In k (Object_keys (snd (set key v d))) <-> In k (Object_keys d)).
Proof.
  intros Hs Hi. rewrite (set_eval key v d Hs Hi).
  assert (Hp : proto_intact d = true) by (now apply resolves_iff in Hs).
  assert (H : (fst (Put (ToPropertyKey key) v (invalidated d)) = Ok tt
               \/ fst (Put (ToPropertyKey key) v (invalidated d)) = TypeError)
              /\ (props (snd (Put (ToPropertyKey key) v (invalidated d))) = props d
                  \/ (fst (Put (ToPropertyKey key) v (invalidated d)) = Ok tt
                      /\ props (snd (Put (ToPropertyKey key) v (invalidated d)))
                         = assign (ToPropertyKey key) v (props d)))).
  { unfold Put. simpl props. simpl proto_intact. rewrite Hp.
    destruct (lookup (ToPropertyKey key) (props d)); [simpl; auto|].
    destruct (String.eqb (ToPropertyKey key) reserved); [simpl; auto|].
    destruct (String.eqb (ToPropertyKey key) "length"); [simpl; auto|].
    destruct (String.eqb (ToPropertyKey key) "__proto__"); [|simpl; auto].
    destruct v as [| | | | |[| | |]]; simpl; auto. }
  destruct H as [Hout Hprops]. split.
  - destruct Hprops as [E|[E _]]; [|now left].
    destruct Hout as [E'|E']; [now left | now right].
  - intros k Hk. rewrite !In_Object_keys. unfold own_keys.
    destruct Hprops as [->|[_ ->]]; [split; reflexivity|].
    split; [now apply lookup_assign_other|].
    rewrite In_keys_assign. split; [intros [E|H]; [contradiction | exact H] | auto].
Qed.

Lemma set_touches_one_witness :
  let d := perform [OpSet (KStr "b") (VNum 1)] (new_Dictionary false) in
  (fst (set (KStr "1") (VNum 2) d) = Ok tt
   \/ (fst (set (KStr "1") (VNum 2) d) = TypeError
       /\ props (snd (set (KStr "1") (VNum 2) d)) = props d))
  /\ forall k, k <> "1" ->
       lookup k (props (snd (set (KStr "1") (VNum 2) d))) = lookup k (props d)
       /\ (In k (Object_keys (snd (set (KStr "1") (VNum 2) d)))
           <-> In k (Object_keys d)).
Proof.
  intros d. exact (set_touches_one d (KStr "1") (VNum 2) eq_refl eq_refl).
Defined.

(** ** X4: the last [set] wins *)

(** X4: when [set] and [invalidate] can be called and the key is named
    neither [set] nor [invalidate], two [set]s of the same key in a row
    leave the same storage as the second alone: the first value is
    overwritten in place and no second property appears. *)
Theorem set_twice (d : Dictionary) (key : JsKey) (v1 v2 : JsVal) :
  resolves "set" d -> resolves "invalidate" d ->
  ~ In (ToPropertyKey key) ["set"; "invalidate"] ->
  props (snd (set key v2 (snd (set key v1 d)))) = props (snd (set key v2 d)).
Proof.
  intros Hs Hi Hk. set (k := ToPropertyKey key) in *.
  assert (K : k <> "set" /\ k <> "invalidate") by (simpl in Hk; intuition).
  destruct K as [K1 K2].
  assert (Hset : forall x d0,
            resolves "set" d0 -> resolves "invalidate" d0 ->
            props (snd (set key x d0)) = put_props k x (props d0)
            /\ (put_props k x (props d0) = props d0
                \/ proto_intact (snd (set key x d0)) = true)).
  { intros x d0 H1 H2. rewrite (set_eval key x d0 H1 H2). fold k.
    apply resolves_iff in H1. destruct H1 as [_ Hp].
    unfold Put, put_props. simpl props. simpl proto_intact. rewrite Hp.
    destruct (lookup k (props d0)); [simpl; auto|].
    destruct (String.eqb k reserved); [simpl; auto|].
    destruct (String.eqb k "length"); [simpl; auto|].
    destruct (String.eqb k "__proto__"); [|simpl; auto].
    destruct x as [| | | | |[]]; simpl; auto. }
  assert (Hstuck : forall x d0,
            proto_intact d0 = false -> props (snd (set key x d0)) = props d0).
  { intros x d0 Hp. unfold set, bind, method. rewrite Hp.
    destruct (lookup "set" (props d0)) as [w|]; [destruct (callable w)|]; reflexivity. }
  destruct (Hset v1 d Hs Hi) as [E1 Hcase].
  destruct (Hset v2 d Hs Hi) as [E2 _]. rewrite E2.
  set (d1 := snd (set key v1 d)) in *.
  assert (Hidem : put_props k v2 (put_props k v1 (props d)) = put_props k v2 (props d)).
  { unfold put_props. destruct (lookup k (props d)) eqn:El.
    - now rewrite lookup_assign_same, assign_assign.
    - destruct (String.eqb k reserved || String.eqb k "length"
                || String.eqb k "__proto__"); [now rewrite El|].
      now rewrite lookup_assign_same, assign_assign. }
  destruct (proto_intact d1) eqn:Hp1.
  - destruct (Hset v2 d1) as [E3 _].
    + apply resolves_iff. split; [|exact Hp1]. rewrite E1.
      apply resolves_iff in Hs. destruct Hs as [Ls _].
      unfold put_props. destruct (lookup k (props d));
        [|destruct (_ || _)]; rewrite ?lookup_assign_other by congruence; exact Ls.
    + apply resolves_iff. split; [|exact Hp1]. rewrite E1.
      apply resolves_iff in Hi. destruct Hi as [Li _].
      unfold put_props. destruct (lookup k (props d));
        [|destruct (_ || _)]; rewrite ?lookup_assign_other by congruence; exact Li.
    + now rewrite E3, E1.
  - rewrite (Hstuck v2 d1 Hp1), E1.
    destruct Hcase as [Hc|Hc]; [|congruence].
    rewrite <- Hidem, Hc. unfold put_props in *.
    destruct (lookup k (props d)) eqn:El.
    + exfalso. assert (Hl : lookup k (assign k v1 (props d)) = Some v1)
        by apply lookup_assign_same.
      rewrite Hc, El in Hl.
      (* an overwrite keeps the prototype *)
      unfold d1 in Hp1. rewrite (set_eval key v1 d Hs Hi) in Hp1. fold k in Hp1.
      unfold Put in Hp1. simpl props in Hp1. rewrite El in Hp1. simpl in Hp1.
      apply resolves_iff in Hs. destruct Hs as [_ Hs]. congruence.
    + destruct (String.eqb k reserved || String.eqb k "length"
                || String.eqb k "__proto__") eqn:Eb; [reflexivity|].
      exfalso. unfold d1 in Hp1. rewrite (set_eval key v1 d Hs Hi) in Hp1.
      fold k in Hp1. unfold Put in Hp1. simpl props in Hp1.
      simpl proto_intact in Hp1. rewrite El in Hp1.
      rewrite !orb_false_iff in Eb. destruct Eb as [[B1 B2] B3].
      rewrite B1, B2, B3 in Hp1.
      apply resolves_iff in Hs. destruct Hs as [_ Hs]. rewrite Hs in Hp1.
      simpl in Hp1. congruence.
Qed.

Lemma set_twice_witness :
  let d := perform [OpSet (KStr "a") (VNum 1)] (new_Dictionary true) in
  props (snd (set (KStr "b") (VNum 3) (snd (set (KStr "b") (VNum 2) d))))
  = props (snd (set (KStr "b") (VNum 3) d)).
Proof.
  intros d. apply (set_twice d (KStr "b")); try reflexivity.
  simpl. intros [H|[H|[]]]; discriminate H.
Defined.

(** ** X5: [size()] and [length] *)


Lemma size_eval (d : Dictionary) :
  well_formed d -> resolves "size" d -> resolves "getKeys" d ->
  exists d', size d = (Ok (List.length (props d)), d') /\ reads d d'.
Proof.
  intros Hw Hs Hg. unfold size, bind. rewrite (method_resolved _ _ Hs).
  destruct (getKeys_resolved d Hg Hw) as (d' & -> & Hr & _).
  exists d'. split; [|exact Hr]. unfold ret.
  rewrite (Permutation_length (Object_keys_perm d)). unfold own_keys.
  now rewrite length_map.
Qed.

(** X5: on a well-formed container (own names distinct and other than
    [__private__], the key cache, when marked clean, equal to the current
    key list) with no own property named [length], when [size] and
    [getKeys] can be called, [size()] is the number of stored properties,
    the accessor [length] gives the same number, and both leave the storage
    as it is. *)
Theorem size_and_length (d : Dictionary) :
  well_formed d -> no_length d -> resolves "size" d -> resolves "getKeys" d ->
  exists d',
    size d = (Ok (List.length (props d)), d')
    /\ Get "length" d = (Ok (VNum (Z.of_nat (List.length (props d)))), d')
    /\ props d' = props d.
Proof.
  intros Hw Hl Hs Hg.
  destruct (size_eval d Hw Hs Hg) as (d' & E & Hrd).
  exists d'. split; [exact E|]. split; [|apply Hrd].
  unfold Get. apply lookup_None in Hl. rewrite Hl. simpl.
  apply resolves_iff in Hs. destruct Hs as [_ ->].
  unfold get_length, bind. now rewrite E.
Qed.

Lemma size_and_length_witness :
  let d := snd (exec (OpSet (KStr "a") (VNum 1)) (new_Dictionary true)) in
  exists d',
    size d = (Ok (List.length (props d)), d')
    /\ Get "length" d = (Ok (VNum (Z.of_nat (List.length (props d)))), d')
    /\ props d' = props d.
Proof.
  intros d. apply (size_and_length d); try reflexivity.
  - apply (invariant_exec well_formed well_formed_invariant), well_formed_new.
  - unfold no_length. simpl. intros [H|[]]. discriminate H.
Defined.

(** ** X6: how [set] and [remove] move [size()] *)

(** X6: on a well-formed container no member of which is hidden, for a key
    with a plain name, [size()] after [set(k, v)] is one more than the
    number of stored properties when [k] was not stored and that number
    when it was, and [size()] after [remove(k)] is one less when [k] was
    stored and that number when it was not. *)
Theorem size_after_set_remove (d : Dictionary) (key : JsKey) (v : JsVal) :
  well_formed d -> plain_state d -> plain_name (ToPropertyKey key) = true ->
  fst (size (snd (set key v d)))
  = Ok match lookup (ToPropertyKey key) (props d) with
       | Some _ => List.length (props d)
       | None => Datatypes.S (List.length (props d))
       end
  /\ fst (size (snd (remove key d)))
     = Ok match lookup (ToPropertyKey key) (props d) with
          | Some _ => List.length (props d) - 1
          | None => List.length (props d)
          end.
Proof.
  intros Hw Hp Hk. set (k := ToPropertyKey key) in *.
  assert (Hm : forall name, member_name name = true -> resolves name d)
    by (intros name; now apply plain_state_resolves).
  assert (Hkm : member_name k = false) by (now apply plain_name_not_member).
  assert (Hkr : k <> reserved).
  { unfold plain_name in Hk. rewrite andb_true_iff, negb_true_iff in Hk.
    now apply not_reserved_of_plain. }
  assert (Hsz : forall d0, well_formed d0 -> plain_state d0 ->
                           fst (size d0) = Ok (List.length (props d0))).
  { intros d0 Hw0 Hp0.
    destruct (size_eval d0 Hw0) as (d' & -> & _);
      try (now apply plain_state_resolves). reflexivity. }
  split.
  - rewrite Hsz.
    + rewrite (set_eval key v d) by (now apply Hm). fold k.
      unfold Put. simpl props. simpl proto_intact.
      destruct (lookup k (props d)) eqn:El.
      * simpl. now rewrite length_assign, El.
      * apply String.eqb_neq in Hkr. rewrite Hkr.
        destruct Hp as [-> _].
        unfold member_name in Hkm. rewrite !orb_false_iff in Hkm.
        destruct Hkm as [[_ ->] ->]. simpl. now rewrite length_assign, El.
    + now apply set_keeps_well_formed.
    + now apply (plain_state_exec (OpSet key v)).
  - rewrite Hsz.
    + rewrite (remove_eval key d) by (now apply Hm). fold k.
      unfold Delete. simpl props.
      destruct (lookup k (props d)) eqn:El.
      * simpl. now rewrite length_erase, El.
      * apply String.eqb_neq in Hkr. now rewrite Hkr.
    + now apply remove_keeps_well_formed.
    + now apply (plain_state_exec (OpRemove key)).
Qed.

Lemma size_after_set_remove_witness :
  let d := perform [OpSet (KStr "a") (VNum 1); OpSet (KStr "b") (VNum 2)]
             (new_Dictionary true) in
  fst (size (snd (set (KStr "c") VNull d))) = Ok 3
  /\ fst (size (snd (remove (KStr "c") d))) = Ok 2.
Proof.
  intros d.
  assert (Hw : well_formed d)
    by (apply invariant_perform;
        [apply well_formed_invariant | apply well_formed_new]).
  assert (Hp : plain_state d)
    by (apply plain_state_perform; [repeat constructor | apply plain_state_new]).
  exact (size_after_set_remove d (KStr "c") VNull Hw Hp eq_refl).
Defined.

(** ** X7: a clean cache is never stale *)



(** ** X8: [entries()] and the default iterator *)

Lemma bind_run {St A B : Type} (m : StateM St A) (k : A -> StateM St B)
    (s s1 : St) (a : A) :
  m s = (Ok a, s1) -> bind m k s = k a s1.
Proof. intros H. unfold bind. now rewrite H. Qed.

Lemma mapM_Get_stored (ks : list string) (d : Dictionary) :
  (forall k, In k ks -> In k (own_keys d)) ->
  mapM Get ks d = (Ok (map (stored d) ks), d)
  /\ mapM (fun k => v <- Get k ;; ret (k, v)) ks d
     = (Ok (map (fun k => (k, stored d k)) ks), d).
Proof.
  induction ks as [|k ks IH]; intros Hin; [split; reflexivity|].
  destruct IH as [IH1 IH2]; [intros k' H; apply Hin; now right|].
  destruct (Get_own_key k d (Hin k (or_introl eq_refl))) as (v & Hg & Hl).
  assert (Hs : stored d k = v) by (unfold stored; now rewrite Hl).
  split; cbn [mapM map].
  - rewrite (bind_run _ _ _ _ _ Hg), (bind_run _ _ _ _ _ IH1). now rewrite Hs.
  - assert (Hp : (v <- Get k ;; ret (k, v)) d = (Ok (k, v), d))
      by (now rewrite (bind_run _ _ _ _ _ Hg)).
    rewrite (bind_run _ _ _ _ _ Hp), (bind_run _ _ _ _ _ IH2). now rewrite Hs.
Qed.

Lemma stored_reads (d d' : Dictionary) (k : string) :
  reads d d' -> stored d' k = stored d k.
Proof. intros (Hp & _). unfold stored. now rewrite Hp. Qed.

(** X8: on a well-formed container (own names distinct and other than
    [__private__], the key cache, when marked clean, equal to the current
    key list), when [entries] and [getKeys] can be called, [entries()]
    iterated to its end yields one
    pair per key of [getKeys()], in the order of that list, each key with
    the value stored under it; the default iterator yields those values in
    the same order; and every such key is stored. *)
Theorem entries_in_key_order (d : Dictionary) :
  well_formed d -> resolves "entries" d -> resolves "getKeys" d ->
  exists d',
    getKeys d = (Ok (Object_keys d), d')
    /\ entries d = (Ok (map (fun k => (k, stored d k)) (Object_keys d)), d')
    /\ iterator d = (Ok (map (stored d) (Object_keys d)), d')
    /\ forall k, In k (Object_keys d) -> lookup k (props d) = Some (stored d k).
Proof.
  intros Hw He Hg.
  destruct (getKeys_resolved d Hg Hw) as (d' & E & Hrd & _).
  assert (Hin : forall k, In k (Object_keys d) -> In k (own_keys d'))
    by (intros k Hk; unfold own_keys; destruct Hrd as [-> _];
        now apply In_Object_keys).
  destruct (mapM_Get_stored (Object_keys d) d' Hin) as [M1 M2].
  exists d'. split; [exact E|]. split; [|split].
  - unfold entries. rewrite (bind_run _ _ _ _ _ (method_resolved _ _ He)).
    rewrite (bind_run _ _ _ _ _ E), M2. f_equal. f_equal.
    apply map_ext. intros k. now rewrite (stored_reads d d' k Hrd).
  - unfold iterator, bind. rewrite E, M1. f_equal. f_equal.
    apply map_ext. intros k. exact (stored_reads d d' k Hrd).
  - intros k Hk. apply In_Object_keys, lookup_In in Hk. unfold stored.
    now destruct (lookup k (props d)).
Qed.

Lemma entries_in_key_order_witness :
  let d := snd (exec (OpSet (KStr "1") (VNum 20))
                  (snd (exec (OpSet (KStr "b") (VNum 10)) (new_Dictionary false)))) in
  exists d',
    getKeys d = (Ok (Object_keys d), d')
    /\ entries d = (Ok (map (fun k => (k, stored d k)) (Object_keys d)), d')
    /\ iterator d = (Ok (map (stored d) (Object_keys d)), d')
    /\ forall k, In k (Object_keys d) -> lookup k (props d) = Some (stored d k).
Proof.
  intros d. apply (entries_in_key_order d); try reflexivity.
  repeat apply (invariant_exec well_formed well_formed_invariant).
  apply well_formed_new.
Defined.

(** ** X9: what [values()] returns *)

Lemma Get_index_stored (i : nat) (d : Dictionary) :
  proto_intact d = true ->
  Get (index_string i) d = (Ok (stored d (index_string i)), d).
Proof.
  intros Hp. destruct (index_string_digit i) as (c & s & E & Hc). rewrite E.
  destruct (member_name_not_digit c s Hc) as [Hm Hr]. unfold stored.
  destruct (lookup (String c s) (props d)) as [v|] eqn:El.
  - now apply Get_own.
  - now apply Get_absent.
Qed.

Lemma mapM_index_stored (l : list nat) (d : Dictionary) :
  proto_intact d = true ->
  mapM (fun i => Get (index_string i)) l d
  = (Ok (map (fun i => stored d (index_string i)) l), d).
Proof.
  intros Hp. induction l as [|i l IH]; [reflexivity|].
  cbn [mapM map]. unfold bind. now rewrite (Get_index_stored i d Hp), IH.
Qed.

(** X9: on a well-formed container (own names distinct and other than
    [__private__], the key cache, when marked clean, equal to the current
    key list), when [values] and [getKeys] can be called, [values()]
    returns as many elements as there
    are stored properties, and the element at position [i] is what is
    stored under the decimal name of [i], [undefined] when nothing is: the
    loop reads the positions of the key array, not the keys. *)
Theorem values_by_position (d : Dictionary) :
  well_formed d -> resolves "values" d -> resolves "getKeys" d ->
  exists d',
    values d
    = (Ok (map (fun i => stored d (index_string i))
             (seq 0 (List.length (props d)))), d')
    /\ props d' = props d.
Proof.
  intros Hw Hv Hg.
  destruct (getKeys_resolved d Hg Hw) as (d' & E & Hrd & _).
  exists d'. split; [|apply Hrd].
  unfold values, bind. rewrite (method_resolved _ _ Hv), E.
  assert (Hp : proto_intact d' = true).
  { destruct Hrd as (_ & -> & _). now apply resolves_iff in Hg. }
  rewrite (mapM_index_stored _ d' Hp).
  rewrite (Permutation_length (Object_keys_perm d)). unfold own_keys.
  rewrite length_map. f_equal. f_equal.
  apply map_ext. intros i. exact (stored_reads d d' _ Hrd).
Qed.

Lemma values_by_position_witness :
  let d := snd (exec (OpSet (KStr "1") (VNum 20))
                  (snd (exec (OpSet (KStr "b") (VNum 10)) (new_Dictionary true)))) in
  exists d',
    values d
    = (Ok (map (fun i => stored d (index_string i))
             (seq 0 (List.length (props d)))), d')
    /\ props d' = props d.
Proof.
  intros d. apply (values_by_position d); try reflexivity.
  repeat apply (invariant_exec well_formed well_formed_invariant).
  apply well_formed_new.
Defined.

(** ** X10: what [empty()] and [clear()] leave behind *)

Section EmptySkips.

Variable d : Dictionary.
Hypothesis own_distinct : NoDup (own_keys d).
Hypothesis has_resolves : resolves "has" d.
Hypothesis hasOwnProperty_resolves : resolves "hasOwnProperty" d.
Hypothesis remove_resolves : resolves "remove" d.
Hypothesis invalidate_resolves : resolves "invalidate" d.

Lemma each_loop_skip {S : Type} (cb : EachCallback S) (k : string)
    (ks : list string) (D : Dictionary) (st : S) (log : list Visit) :
  has (KStr k) D = (Ok false, D) ->
  each_loop cb (k :: ks) (mkEachState D st log)
  = each_loop cb ks (mkEachState D st log).
Proof.
  intros Hh. cbn [each_loop es_dict].
  destruct (lookup k (props D)); [|reflexivity].
  unfold bind at 1. unfold lift_each at 1.
  simpl es_dict. now rewrite Hh.
Qed.

Lemma empty_loop_skips (rest done : list string) (log : list Visit) :
  NoDup (done ++ rest) ->
  (forall k, In k rest -> In k (own_keys d)) ->
  (forall k, In k done -> contains_reserved k = false) ->
  exists l,
    each_loop empty_callback rest (mkEachState (removed done d) tt log)
    = (Ok tt, mkEachState (removed (done ++ accepted rest) d) tt (log ++ l)).
Proof.
  revert done log. induction rest as [|k rest IH]; intros done log Hn Hk Hd.
  - exists []. unfold accepted. cbn [filter]. now rewrite !app_nil_r.
  - set (D := removed done d).
    pose proof (Hk k (or_introl eq_refl)) as Hown.
    assert (Hout : ~ In k done).
    { intros Hin. apply NoDup_remove_2 in Hn. apply Hn, in_or_app. now left. }
    assert (Hl : lookup k (props D) = Some (stored d k)).
    { unfold D. rewrite removed_lookup by exact own_distinct.
      destruct (in_dec string_dec k done); [contradiction|].
      unfold stored. apply lookup_In in Hown.
      now destruct (lookup k (props d)). }
    assert (Hh : has (KStr k) D = (Ok (negb (contains_reserved k)), D)).
    { apply has_own; try (now apply removed_resolves).
      eapply lookup_Some_In; exact Hl. }
    unfold accepted. cbn [filter]. fold (accepted rest).
    destruct (contains_reserved k) eqn:Hplain; cbn [negb] in *.
    + rewrite (each_loop_skip empty_callback k rest D tt log Hh).
      apply (IH done log).
      * eapply NoDup_remove_1; exact Hn.
      * intros k' Hin. apply Hk. now right.
      * exact Hd.
    + rewrite (each_loop_visit empty_callback k rest D tt log (stored d k) Hh
                 (Get_own k _ D Hl)).
      unfold bind at 1. unfold call_each at 1. unfold empty_callback at 1 2 3.
      simpl eo_script. simpl es_dict.
      rewrite (remove_own k (stored d k) D); try (now apply removed_resolves);
        [|exact Hl].
      simpl eo_return. simpl strict_eq_false. cbv iota. simpl eo_state.
      simpl es_log. simpl es_closure.
      assert (HD : with_props (invalidated D) (erase k (props D))
                   = removed (done ++ [k]) d) by (now rewrite removed_app).
      rewrite HD.
      destruct (IH (done ++ [k]) (log ++ [mkVisit k (stored d k) (Some VUndefined)]))
        as (l & E).
      * now rewrite <- app_assoc.
      * intros k' Hin. apply Hk. now right.
      * intros k' Hin. apply in_app_or in Hin. destruct Hin as [Hin|[<-|[]]]; auto.
      * exists (mkVisit k (stored d k) (Some VUndefined) :: l).
        cbn [eo_return strict_eq_false]. rewrite E, <- !app_assoc. reflexivity.
Qed.

Lemma accepted_In (k : string) (ks : list string) :
  In k (accepted ks) <-> In k ks /\ contains_reserved k = false.
Proof.
  unfold accepted. rewrite filter_In, negb_true_iff. reflexivity.
Qed.

Lemma empty_skips :
  resolves "empty" d -> resolves "forEach" d -> resolves "each" d ->
  empty d = (Ok tt, removed (accepted (Object_keys d)) d).
Proof.
  intros H1 H2 H3.
  destruct (empty_loop_skips (Object_keys d) [] []) as (l & E).
  - simpl. now apply NoDup_Object_keys.
  - intros k Hin. now apply In_Object_keys in Hin.
  - intros k [].
  - unfold empty, bind. rewrite (method_resolved _ _ H1).
    rewrite (forEach_resolved empty_callback d tt [] H2).
    rewrite (each_resolved empty_callback d tt [] H3).
    change (removed [] d) with d in E. now rewrite E.
Qed.

End EmptySkips.

(** X10: on a container with distinct own names whose [empty], [clear],
    [forEach], [each], [has], [hasOwnProperty], [remove] and [invalidate]
    can be called, [empty()] and [clear()] return normally in the same
    state, in which every property whose name does not contain the reserved
    identifier is gone and every property whose name contains it is still
    stored with its value: the loop skips what [has] denies. *)
Theorem empty_keeps_reserved_names (d : Dictionary) :
  NoDup (own_keys d) ->
  resolves "empty" d -> resolves "clear" d -> resolves "forEach" d ->
  resolves "each" d -> resolves "has" d -> resolves "hasOwnProperty" d ->
  resolves "remove" d -> resolves "invalidate" d ->
  exists d',
    empty d = (Ok tt, d') /\ clear d = (Ok tt, d')
    /\ forall k, lookup k (props d')
                 = if contains_reserved k then lookup k (props d) else None.
Proof.
  intros Hn He Hc Hf Hea Hh Hho Hr Hi.
  pose proof (empty_skips d Hn Hh Hho Hr Hi He Hf Hea) as E.
  exists (removed (accepted (Object_keys d)) d). split; [exact E|]. split.
  - unfold clear. now rewrite (bind_run _ _ _ _ _ (method_resolved _ _ Hc)).
  - intros k. rewrite removed_lookup by exact Hn.
    destruct (in_dec string_dec k (accepted (Object_keys d))) as [Hin|Hout].
    + apply accepted_In in Hin. destruct Hin as [_ ->]. reflexivity.
    + destruct (contains_reserved k) eqn:Ec; [reflexivity|].
      destruct (lookup k (props d)) eqn:El; [|reflexivity].
      exfalso. apply Hout, accepted_In. split; [|exact Ec].
      apply In_Object_keys. eapply lookup_Some_In; exact El.
Qed.

Lemma empty_keeps_reserved_names_witness :
  let d := perform [OpSet (KStr "a") (VNum 1); OpSet (KStr "x__private__") (VNum 2)]
             (new_Dictionary true) in
  exists d',
    empty d = (Ok tt, d') /\ clear d = (Ok tt, d')
    /\ forall k, lookup k (props d')
                 = if contains_reserved k then lookup k (props d) else None.
Proof.
  intros d. apply (empty_keeps_reserved_names d); try reflexivity.
  repeat constructor; simpl; intuition discriminate.
Defined.

(** ** X11: the queries leave the storage alone *)

Lemma frozen_ret {A : Type} (a : A) : frozen (@ret Dictionary A a).
Proof. intros d _. reflexivity. Qed.

Lemma frozen_bind {A B : Type} (m : M A) (k : A -> M B) :
  frozen m -> (forall a, frozen (k a)) -> frozen (bind m k).
Proof.
  intros Hm Hk d H. specialize (Hm d H). unfold bind.
  destruct (m d) as [[a| |] d1]; simpl in Hm; subst d1; simpl; auto.
  now apply Hk.
Qed.

Lemma frozen_method (name : string) : frozen (method name).
Proof. intros d _. apply method_state. Qed.

Lemma frozen_mapM {A B : Type} (f : A -> M B) (l : list A) :
  (forall a, frozen (f a)) -> frozen (mapM f l).
Proof.
  intros Hf. induction l as [|a l IH]; [apply frozen_ret|].
  cbn [mapM]. apply frozen_bind; [apply Hf|]. intros b.
  apply frozen_bind; [exact IH|]. intros bs. apply frozen_ret.
Qed.

Lemma frozen_getKeys : frozen getKeys.
Proof.
  unfold getKeys. apply frozen_bind; [apply frozen_method|].
  intros _ d H. now rewrite H.
Qed.

Lemma frozen_size : frozen size.
Proof.
  unfold size. apply frozen_bind; [apply frozen_method|]. intros _.
  apply frozen_bind; [apply frozen_getKeys|]. intros ks. apply frozen_ret.
Qed.

Lemma frozen_Get (k : string) : frozen (Get k).
Proof.
  intros d H. unfold Get. destruct (lookup k (props d)); [reflexivity|].
  destruct (String.eqb k reserved); [reflexivity|].
  destruct (proto_intact d); [|reflexivity].
  destruct (String.eqb k "length").
  - apply (frozen_bind get_length); [apply frozen_size | | exact H].
    intros n. apply frozen_ret.
  - destruct (String.eqb k "__proto__"); [reflexivity|].
    now destruct (inherited_function k).
Qed.

Lemma frozen_has (key : JsKey) : frozen (has key).
Proof.
  unfold has. apply frozen_bind; [apply frozen_method|]. intros _.
  destruct key as [| |s]; try apply frozen_ret.
  destruct (0 <=? indexOf s reserved)%Z; [apply frozen_ret|].
  unfold hasOwnProperty. apply frozen_bind; [apply frozen_method|].
  intros _ d _. reflexivity.
Qed.

Lemma frozen_get (key : JsKey) : frozen (get key).
Proof.
  unfold get. apply frozen_bind; [apply frozen_method|]. intros _. apply frozen_Get.
Qed.

Lemma frozen_getDefault (key : JsKey) (v : JsVal) : frozen (getDefault key v).
Proof.
  unfold getDefault. apply frozen_bind; [apply frozen_method|]. intros _.
  apply frozen_bind; [apply frozen_has|].
  intros [|]; [apply frozen_Get | apply frozen_ret].
Qed.

Lemma frozen_keys_alias : frozen keys_alias.
Proof.
  unfold keys_alias. apply frozen_bind; [apply frozen_method|].
  intros _. apply frozen_getKeys.
Qed.

Lemma frozen_values : frozen values.
Proof.
  unfold values. apply frozen_bind; [apply frozen_method|]. intros _.
  apply frozen_bind; [apply frozen_getKeys|]. intros ks.
  apply frozen_mapM. intros i. apply frozen_Get.
Qed.

Lemma frozen_entries : frozen entries.
Proof.
  unfold entries. apply frozen_bind; [apply frozen_method|]. intros _.
  apply frozen_bind; [apply frozen_getKeys|]. intros ks.
  apply frozen_mapM. intros k.
  apply frozen_bind; [apply frozen_Get|]. intros v. apply frozen_ret.
Qed.

Lemma frozen_iterator : frozen iterator.
Proof.
  unfold iterator. apply frozen_bind; [apply frozen_getKeys|]. intros ks.
  apply frozen_mapM. intros k. apply frozen_Get.
Qed.

Lemma readonly_iterator : readonly iterator.
Proof.
  unfold iterator. apply readonly_bind; [apply readonly_getKeys|]. intros ks.
  apply readonly_mapM. intros k. apply readonly_Get.
Qed.

Lemma untouched_of (d d' : Dictionary) :
  reads d d' -> (cacheKeys (__private__ d) = false -> d' = d) -> untouched d d'.
Proof.
  intros (Hp & Hq & Hi) Hf. repeat split; try assumption.
  destruct Hi as [->| ->]; reflexivity.
Qed.

Lemma no_stored_method_reads (d d' : Dictionary) :
  reads d d' -> no_stored_method d -> no_stored_method d'.
Proof.
  intros (Hp & Hq & _) [H1 H2]. unfold no_stored_method. now rewrite Hp, Hq.
Qed.

Lemma inside_ret {A : Type} (a : A) : inside (@ret Dictionary A a).
Proof. intros d _. discriminate. Qed.

Lemma inside_bind {A B : Type} (m : M A) (k : A -> M B) :
  readonly m -> inside m -> (forall a, inside (k a)) -> inside (bind m k).
Proof.
  intros Hro Hm Hk d Hd. specialize (Hm d Hd). specialize (Hro d).
  unfold bind. destruct (m d) as [[a| |] d1]; simpl in *.
  - apply Hk. eapply no_stored_method_reads; eauto.
  - discriminate.
  - contradiction.
Qed.

Lemma inside_method (name : string) :
  member_name name = true -> inside (method name).
Proof.
  intros Hn d [Hp Hs]. unfold method.
  destruct (lookup name (props d)) as [v|] eqn:El.
  - rewrite (Hs name v El Hn). discriminate.
  - rewrite Hp. discriminate.
Qed.

Lemma inside_mapM {A B : Type} (f : A -> M B) (l : list A) :
  (forall a, readonly (f a)) -> (forall a, inside (f a)) -> inside (mapM f l).
Proof.
  intros Hro Hf. induction l as [|a l IH]; [apply inside_ret|].
  cbn [mapM]. apply inside_bind; [apply Hro | apply Hf|]. intros b.
  apply inside_bind; [now apply readonly_mapM | exact IH|].
  intros bs. apply inside_ret.
Qed.

Lemma inside_getKeys : inside getKeys.
Proof.
  unfold getKeys.
  apply inside_bind; [apply readonly_method | now apply inside_method|].
  intros _ d _.
  destruct (negb (cacheKeys (__private__ d))); [discriminate|].
  destruct (invalidateKeys (__private__ d)); [discriminate|].
  destruct (keys (__private__ d)); discriminate.
Qed.

Lemma inside_size : inside size.
Proof.
  unfold size.
  apply inside_bind; [apply readonly_method | now apply inside_method|].
  intros _. apply inside_bind; [apply readonly_getKeys | apply inside_getKeys|].
  intros ks. apply inside_ret.
Qed.

Lemma inside_Get (k : string) : inside (Get k).
Proof.
  intros d Hd. pose proof Hd as [Hp _]. unfold Get. rewrite Hp.
  destruct (lookup k (props d)); [discriminate|].
  destruct (String.eqb k reserved); [discriminate|].
  destruct (String.eqb k "length").
  - apply (inside_bind get_length);
      [apply readonly_size | apply inside_size | | exact Hd].
    intros n. apply inside_ret.
  - destruct (String.eqb k "__proto__"); [discriminate|].
    destruct (inherited_function k); discriminate.
Qed.

Lemma inside_has (key : JsKey) : inside (has key).
Proof.
  unfold has.
  apply inside_bind; [apply readonly_method | now apply inside_method|].
  intros _. destruct key as [| |s]; try apply inside_ret.
  destruct (0 <=? indexOf s reserved)%Z; [apply inside_ret|].
  unfold hasOwnProperty.
  apply inside_bind; [apply readonly_method | now apply inside_method|].
  intros _ d _. discriminate.
Qed.

Lemma inside_get (key : JsKey) : inside (get key).
Proof.
  unfold get.
  apply inside_bind; [apply readonly_method | now apply inside_method|].
  intros _. apply inside_Get.
Qed.

Lemma inside_getDefault (key : JsKey) (v : JsVal) : inside (getDefault key v).
Proof.
  unfold getDefault.
  apply inside_bind; [apply readonly_method | now apply inside_method|].
  intros _. apply inside_bind; [apply readonly_has | apply inside_has|].
  intros [|]; [apply inside_Get | apply inside_ret].
Qed.

Lemma inside_keys_alias : inside keys_alias.
Proof.
  unfold keys_alias.
  apply inside_bind; [apply readonly_method | now apply inside_method|].
  intros _. apply inside_getKeys.
Qed.

Lemma inside_values : inside values.
Proof.
  unfold values.
  apply inside_bind; [apply readonly_method | now apply inside_method|].
  intros _. apply inside_bind; [apply readonly_getKeys | apply inside_getKeys|].
  intros ks. apply inside_mapM; intros i; [apply readonly_Get | apply inside_Get].
Qed.

Lemma inside_entries : inside entries.
Proof.
  unfold entries.
  apply inside_bind; [apply readonly_method | now apply inside_method|].
  intros _. apply inside_bind; [apply readonly_getKeys | apply inside_getKeys|].
  intros ks. apply inside_mapM; intros k.
  - apply readonly_bind; [apply readonly_Get|]. intros v. apply readonly_ret.
  - apply inside_bind; [apply readonly_Get | apply inside_Get|].
    intros v. apply inside_ret.
Qed.

Lemma inside_iterator : inside iterator.
Proof.
  unfold iterator.
  apply inside_bind; [apply readonly_getKeys | apply inside_getKeys|].
  intros ks. apply inside_mapM; intros k; [apply readonly_Get | apply inside_Get].
Qed.

Lemma quiet_query_of {A : Type} (m : M A) (d : Dictionary) :
  readonly m -> frozen m -> inside m -> no_stored_method d -> quiet_query m d.
Proof.
  intros Hro Hfr Hin Hd. split; [now apply Hin|].
  apply untouched_of; [apply Hro | apply Hfr].
Qed.

(** X11: on an instance whose prototype is in place and on which no
    function is stored under the name of a member (so that every call runs
    the class's own code, or throws because a value that is not a function
    hides the member), each of the queries [has], [get], [getDefault],
    [size], the accessor [length], [getKeys], [keys], [values], [entries]
    and the default iterator returns or throws a [TypeError], and changes
    neither the stored properties, nor the prototype, nor the caching mode;
    on an instance built without key caching it changes nothing at all. *)
Theorem queries_leave_storage (d : Dictionary) (key : JsKey) (dv : JsVal) :
  no_stored_method d ->
  quiet_query (has key) d
  /\ quiet_query (get key) d
  /\ quiet_query (getDefault key dv) d
  /\ quiet_query size d
  /\ quiet_query (Get "length") d
  /\ quiet_query getKeys d
  /\ quiet_query keys_alias d
  /\ quiet_query values d
  /\ quiet_query entries d
  /\ quiet_query iterator d.
Proof.
  intros Hd.
  repeat match goal with |- _ /\ _ => split end;
    apply quiet_query_of; try exact Hd.
  - apply readonly_has.
  - apply frozen_has.
  - apply inside_has.
  - apply readonly_get.
  - apply frozen_get.
  - apply inside_get.
  - apply readonly_getDefault.
  - apply frozen_getDefault.
  - apply inside_getDefault.
  - apply readonly_size.
  - apply frozen_size.
  - apply inside_size.
  - apply readonly_Get.
  - apply frozen_Get.
  - apply inside_Get.
  - apply readonly_getKeys.
  - apply frozen_getKeys.
  - apply inside_getKeys.
  - apply readonly_keys_alias.
  - apply frozen_keys_alias.
  - apply inside_keys_alias.
  - apply readonly_values.
  - apply frozen_values.
  - apply inside_values.
  - apply readonly_entries.
  - apply frozen_entries.
  - apply inside_entries.
  - apply readonly_iterator.
  - apply frozen_iterator.
  - apply inside_iterator.
Qed.

Lemma queries_leave_storage_witness :
  let d := perform [OpSet (KStr "a") (VNum 1); OpSet (KStr "size") (VNum 0)]
             (new_Dictionary false) in
  quiet_query (has (KStr "a")) d
  /\ quiet_query (get (KStr "a")) d
  /\ quiet_query (getDefault (KStr "a") VNull) d
  /\ quiet_query size d
  /\ quiet_query (Get "length") d
  /\ quiet_query getKeys d
  /\ quiet_query keys_alias d
  /\ quiet_query values d
  /\ quiet_query entries d
  /\ quiet_query iterator d.
Proof.
  intros d. apply (queries_leave_storage d (KStr "a") VNull).
  split; [reflexivity|]. intros name v Hl Hn. simpl in Hl.
  destruct (String.eqb name "a"); [now injection Hl as <-|].
  destruct (String.eqb name "size"); [now injection Hl as <-|].
  discriminate Hl.
Defined.

(** ** X12: key caching cannot be observed *)

Lemma same_storage_reads (d1 d2 d1' d2' : Dictionary) :
  same_storage d1 d2 -> reads d1 d1' -> reads d2 d2' -> same_storage d1' d2'.
Proof.
  intros [Hp Hq] (Hp1 & Hq1 & _) (Hp2 & Hq2 & _). split; congruence.
Qed.

Lemma tracks_ret {A : Type} (a : A) : tracks (@ret Dictionary A a).
Proof. intros d1 d2 H. split; [reflexivity | exact H]. Qed.

Lemma tracks_bind {A B : Type} (m : M A) (k : A -> M B) :
  tracks m -> (forall a, tracks (k a)) -> tracks (bind m k).
Proof.
  intros Hm Hk d1 d2 H. destruct (Hm d1 d2 H) as [Hr Hs]. unfold bind.
  destruct (m d1) as [[a1| |] e1], (m d2) as [[a2| |] e2]; simpl in *;
    try discriminate; auto.
  injection Hr as <-. now apply Hk.
Qed.

Lemma tracks_method (name : string) : tracks (method name).
Proof.
  intros d1 d2 [Hp Hq]. rewrite !method_state. split; [|now split].
  unfold method. rewrite Hp, Hq.
  destruct (lookup name (props d2)) as [v|];
    [now destruct (callable v) | now destruct (proto_intact d2)].
Qed.

Lemma tracks_invalidate : tracks invalidate.
Proof.
  unfold invalidate. apply tracks_bind; [apply tracks_method|].
  intros _ d1 d2 H. split; [reflexivity | exact H].
Qed.

Lemma tracks_Put (k : string) (v : JsVal) : tracks (Put k v).
Proof.
  intros d1 d2 [Hp Hq]. unfold Put. rewrite Hp, Hq.
  destruct (lookup k (props d2)); [split; [reflexivity | split; simpl; congruence]|].
  destruct (String.eqb k reserved); [split; [reflexivity | split; simpl; congruence]|].
  destruct (proto_intact d2) eqn:E; [|split; [reflexivity | split; simpl; congruence]].
  destruct (String.eqb k "length"); [split; [reflexivity | split; simpl; congruence]|].
  destruct (String.eqb k "__proto__").
  - destruct v as [| | | | |[| | |]]; simpl;
      (split; [reflexivity | split; simpl; congruence]).
  - split; [reflexivity | split; simpl; congruence].
Qed.

Lemma tracks_Delete (k : string) : tracks (Delete k).
Proof.
  intros d1 d2 [Hp Hq]. unfold Delete. rewrite Hp.
  destruct (lookup k (props d2)).
  - split; [reflexivity | split; simpl; congruence].
  - destruct (String.eqb k reserved); (split; [reflexivity | split; simpl; congruence]).
Qed.

Lemma same_storage_exec (o : Op) (d1 d2 : Dictionary) :
  same_storage d1 d2 -> same_storage (snd (exec o d1)) (snd (exec o d2)).
Proof.
  intros H. pose proof (exec_reads o) as Hr.
  destruct o; simpl in *;
    try (eapply same_storage_reads; [exact H | apply Hr | apply Hr]).
  - apply (tracks_bind (method "set")); [apply tracks_method | | exact H].
    intros _. apply tracks_bind; [apply tracks_invalidate|].
    intros _. apply tracks_Put.
  - apply (tracks_bind (method "remove")); [apply tracks_method | | exact H].
    intros _. apply tracks_bind; [apply tracks_invalidate|].
    intros _. apply tracks_Delete.
  - now apply tracks_invalidate.
Qed.

Lemma same_storage_perform (os : list Op) (d1 d2 : Dictionary) :
  same_storage d1 d2 -> same_storage (perform os d1) (perform os d2).
Proof.
  revert d1 d2. induction os as [|o os IH]; simpl; intros d1 d2 H; [exact H|].
  now apply IH, same_storage_exec.
Qed.

Lemma agrees_ret {A : Type} (a : A) : agrees (@ret Dictionary A a).
Proof. intros d1 d2 _ _ _. reflexivity. Qed.

Lemma agrees_bind {A B : Type} (m : M A) (k : A -> M B) :
  readonly m -> agrees m -> (forall a, agrees (k a)) -> agrees (bind m k).
Proof.
  intros Hro Hm Hk d1 d2 H1 H2 H. pose proof (Hm d1 d2 H1 H2 H) as Hr.
  pose proof (Hro d1) as R1. pose proof (Hro d2) as R2. unfold bind.
  destruct (m d1) as [[a1| |] e1], (m d2) as [[a2| |] e2]; simpl in *;
    try discriminate; auto.
  injection Hr as <-. apply Hk.
  - eapply well_formed_reads; eauto.
  - eapply well_formed_reads; eauto.
  - eapply same_storage_reads; eauto.
Qed.

Lemma agrees_method (name : string) : agrees (method name).
Proof. intros d1 d2 _ _ H. now apply tracks_method. Qed.

Lemma agrees_mapM {A B : Type} (f : A -> M B) (l : list A) :
  (forall a, readonly (f a)) -> (forall a, agrees (f a)) -> agrees (mapM f l).
Proof.
  intros Hro Hf. induction l as [|a l IH]; [apply agrees_ret|].
  cbn [mapM]. apply agrees_bind; [apply Hro | apply Hf|]. intros b.
  apply agrees_bind; [now apply readonly_mapM | exact IH|].
  intros bs. apply agrees_ret.
Qed.

Lemma getKeys_answer (d : Dictionary) :
  well_formed d ->
  fst (getKeys d) = match fst (method "getKeys" d) with
                    | Ok _ => Ok (Object_keys d)
                    | TypeError => TypeError
                    | Unmodelled => Unmodelled
                    end.
Proof.
  intros Hw. destruct (fst (method "getKeys" d)) as [[]| |] eqn:E.
  - destruct (getKeys_resolved d E Hw) as (d' & -> & _). reflexivity.
  - unfold getKeys, bind. now destruct (method "getKeys" d) as [[u| |] d'].
  - unfold getKeys, bind. now destruct (method "getKeys" d) as [[u| |] d'].
Qed.

Lemma agrees_getKeys : agrees getKeys.
Proof.
  intros d1 d2 H1 H2 H. rewrite !getKeys_answer by assumption.
  destruct (tracks_method "getKeys" d1 d2 H) as [-> _].
  destruct H as [Hp _]. now rewrite (Object_keys_props d2 d1 Hp).
Qed.

Lemma agrees_size : agrees size.
Proof.
  unfold size. apply agrees_bind; [apply readonly_method | apply agrees_method|].
  intros _. apply agrees_bind; [apply readonly_getKeys | apply agrees_getKeys|].
  intros ks. apply agrees_ret.
Qed.

Lemma agrees_Get (k : string) : agrees (Get k).
Proof.
  intros d1 d2 H1 H2 H. pose proof H as [Hp Hq]. unfold Get. rewrite Hp, Hq.
  destruct (lookup k (props d2)); [reflexivity|].
  destruct (String.eqb k reserved); [reflexivity|].
  destruct (proto_intact d2); [|reflexivity].
  destruct (String.eqb k "length").
  - apply (agrees_bind get_length);
      [apply readonly_size | apply agrees_size | | assumption ..].
    intros n. apply agrees_ret.
  - destruct (String.eqb k "__proto__"); [reflexivity|].
    now destruct (inherited_function k).
Qed.

Lemma agrees_has (key : JsKey) : agrees (has key).
Proof.
  unfold has. apply agrees_bind; [apply readonly_method | apply agrees_method|].
  intros _. destruct key as [| |s]; try apply agrees_ret.
  destruct (0 <=? indexOf s reserved)%Z; [apply agrees_ret|].
  unfold hasOwnProperty.
  apply agrees_bind; [apply readonly_method | apply agrees_method|].
  intros _ d1 d2 _ _ [Hp _]. simpl. now rewrite Hp.
Qed.

(** X12: key caching cannot be observed through the stored data.  After
    the same sequence of calls on an instance built with key caching and
    on one built without, none of the calls storing a function under the
    name of a member (so that every call runs the class's own code) or
    storing the internal record, the stored properties are the same and
    [getKeys], [keys], [size], [values], [entries], the default iterator,
    [has], [getDefault] and, for a key other than [__private__], [get]
    answer the same.  ([get("__private__")] hands out the internal record,
    which differs.) *)
Theorem caching_is_transparent (os : list Op) (key : JsKey) (dv : JsVal) :
  let d1 := perform os (new_Dictionary true) in
  let d0 := perform os (new_Dictionary false) in
  Forall keeps_members os -> Forall stores_no_record os ->
  ToPropertyKey key <> reserved ->
  props d1 = props d0
  /\ fst (getKeys d1) = fst (getKeys d0)
  /\ fst (keys_alias d1) = fst (keys_alias d0)
  /\ fst (size d1) = fst (size d0)
  /\ fst (values d1) = fst (values d0)
  /\ fst (entries d1) = fst (entries d0)
  /\ fst (iterator d1) = fst (iterator d0)
  /\ fst (has key d1) = fst (has key d0)
  /\ fst (get key d1) = fst (get key d0)
  /\ fst (getDefault key dv d1) = fst (getDefault key dv d0).
Proof.
  intros d1 d0 _ _ _.
  assert (H : same_storage d1 d0)
    by (apply same_storage_perform; split; reflexivity).
  assert (H1 : well_formed d1)
    by (apply invariant_perform; [apply well_formed_invariant | apply well_formed_new]).
  assert (H0 : well_formed d0)
    by (apply invariant_perform; [apply well_formed_invariant | apply well_formed_new]).
  assert (Hall : forall (A : Type) (m : M A), agrees m -> fst (m d1) = fst (m d0))
    by (intros A m Hm; now apply Hm).
  split; [apply H|].
  repeat match goal with |- _ /\ _ => split end; apply Hall.
  - apply agrees_getKeys.
  - unfold keys_alias.
    apply agrees_bind; [apply readonly_method | apply agrees_method|].
    intros _. apply agrees_getKeys.
  - apply agrees_size.
  - unfold values.
    apply agrees_bind; [apply readonly_method | apply agrees_method|]. intros _.
    apply agrees_bind; [apply readonly_getKeys | apply agrees_getKeys|]. intros ks.
    apply agrees_mapM; intros i; [apply readonly_Get | apply agrees_Get].
  - unfold entries.
    apply agrees_bind; [apply readonly_method | apply agrees_method|]. intros _.
    apply agrees_bind; [apply readonly_getKeys | apply agrees_getKeys|]. intros ks.
    apply agrees_mapM; intros k.
    + apply readonly_bind; [apply readonly_Get|]. intros v. apply readonly_ret.
    + apply agrees_bind; [apply readonly_Get | apply agrees_Get|].
      intros v. apply agrees_ret.
  - unfold iterator.
    apply agrees_bind; [apply readonly_getKeys | apply agrees_getKeys|]. intros ks.
    apply agrees_mapM; intros k; [apply readonly_Get | apply agrees_Get].
  - apply agrees_has.
  - unfold get.
    apply agrees_bind; [apply readonly_method | apply agrees_method|]. intros _.
    apply agrees_Get.
  - unfold getDefault.
    apply agrees_bind; [apply readonly_method | apply agrees_method|]. intros _.
    apply agrees_bind; [apply readonly_has | apply agrees_has|].
    intros [|]; [apply agrees_Get | apply agrees_ret].
Qed.

Lemma caching_is_transparent_witness :
  let os := [OpSet (KStr "b") (VNum 1); OpGetKeys; OpSet (KStr "1") (VNum 2);
             OpRemove (KStr "b"); OpSet (KStr "size") VNull] in
  let d1 := perform os (new_Dictionary true) in
  let d0 := perform os (new_Dictionary false) in
  props d1 = props d0
  /\ fst (getKeys d1) = fst (getKeys d0)
  /\ fst (keys_alias d1) = fst (keys_alias d0)
  /\ fst (size d1) = fst (size d0)
  /\ fst (values d1) = fst (values d0)
  /\ fst (entries d1) = fst (entries d0)
  /\ fst (iterator d1) = fst (iterator d0)
  /\ fst (has (KStr "1") d1) = fst (has (KStr "1") d0)
  /\ fst (get (KStr "1") d1) = fst (get (KStr "1") d0)
  /\ fst (getDefault (KStr "1") VNull d1) = fst (getDefault (KStr "1") VNull d0).
Proof.
  intros os.
  apply (caching_is_transparent os (KStr "1") VNull).
  - repeat constructor; discriminate.
  - repeat constructor; discriminate.
  - discriminate.
Defined.

(** ** X13: the reserved name as a key *)

(** X13: in every state the interface can reach, when the methods involved
    can be called, the reserved name [__private__] used as a key is refused
    by the writers and hidden from the membership test but not from [get]:
    [set] and [remove] throw a [TypeError], having marked the key cache
    dirty and nothing else; [has] answers [false]; [getDefault] returns the
    default; and [get] hands out the internal record. *)
Theorem reserved_name_as_key (d : Dictionary) (v dv : JsVal) :
  reachable d ->
  resolves "set" d -> resolves "remove" d -> resolves "invalidate" d ->
  resolves "get" d -> resolves "has" d -> resolves "getDefault" d ->
  set (KStr reserved) v d = (TypeError, invalidated d)
  /\ remove (KStr reserved) d = (TypeError, invalidated d)
  /\ has (KStr reserved) d = (Ok false, d)
  /\ getDefault (KStr reserved) dv d = (Ok dv, d)
  /\ get (KStr reserved) d = (Ok (VObj OInner), d).
Proof.
  intros Hr Hs Hrm Hi Hg Hh Hgd.
  destruct (reachable_well_formed d Hr) as (_ & Hn & _).
  apply lookup_None in Hn.
  assert (Hha : has (KStr reserved) d = (Ok false, d))
    by (unfold has; now rewrite (bind_run _ _ _ _ _ (method_resolved _ _ Hh))).
  split; [|split; [|split; [|split]]].
  - rewrite (set_eval _ _ _ Hs Hi). unfold Put. simpl props.
    cbn [ToPropertyKey]. now rewrite Hn.
  - rewrite (remove_eval _ _ Hrm Hi). unfold Delete. simpl props.
    cbn [ToPropertyKey]. now rewrite Hn.
  - exact Hha.
  - unfold getDefault. rewrite (bind_run _ _ _ _ _ (method_resolved _ _ Hgd)).
    now rewrite (bind_run _ _ _ _ _ Hha).
  - unfold get. rewrite (bind_run _ _ _ _ _ (method_resolved _ _ Hg)).
    unfold Get. cbn [ToPropertyKey]. now rewrite Hn.
Qed.

Lemma reserved_name_as_key_witness :
  let d := snd (exec (OpSet (KStr "a") (VNum 1)) (new_Dictionary true)) in
  set (KStr reserved) VNull d = (TypeError, invalidated d)
  /\ remove (KStr reserved) d = (TypeError, invalidated d)
  /\ has (KStr reserved) d = (Ok false, d)
  /\ getDefault (KStr reserved) (VNum 0) d = (Ok (VNum 0), d)
  /\ get (KStr reserved) d = (Ok (VObj OInner), d).
Proof.
  intros d. apply (reserved_name_as_key d VNull (VNum 0)); try reflexivity.
  apply reach_exec, reach_new.
Defined.

(** ** X14: a direct write and [invalidate()] *)

Lemma getKeys_caches (d : Dictionary) :
  well_formed d -> cacheKeys (__private__ d) = true -> resolves "getKeys" d ->
  props (snd (getKeys d)) = props d
  /\ proto_intact (snd (getKeys d)) = proto_intact d
  /\ __private__ (snd (getKeys d)) = mkInner true false (Some (Object_keys d)).
Proof.
  intros (_ & _ & Hc & _) Hk Hg. rewrite (getKeys_eval d Hg), Hk. cbn [negb].
  destruct (invalidateKeys (__private__ d)) eqn:Ei; [simpl; auto|].
  destruct (keys (__private__ d)) as [ks|] eqn:Eks; [|simpl; auto].
  simpl. split; [reflexivity|]. split; [reflexivity|].
  rewrite <- (Hc Ei ks Eks).
  destruct (__private__ d) as [c i k]. simpl in *. now subst.
Qed.

Lemma resolves_written (name k : string) (v : JsVal) (d : Dictionary) :
  resolves name d -> k <> name ->
  resolves name (with_props d (assign k v (props d))).
Proof.
  rewrite !resolves_iff. intros [Hl Hp] Hne. simpl.
  split; [|exact Hp]. rewrite lookup_assign_other by congruence. exact Hl.
Qed.

(** X14: on a well-formed instance (own names distinct and other than
    [__private__], the key cache, when marked clean, equal to the current
    key list) that caches its keys, a property written directly
    ([dict[k] = v], not through [set]) under a new plain name after
    [getKeys()] has filled the cache is stored but not listed: [getKeys()]
    still returns the old list, without [k].  After [invalidate()] it
    returns the current keys, with [k]. *)
Theorem direct_write_needs_invalidate (d : Dictionary) (k : string) (v : JsVal) :
  well_formed d -> cacheKeys (__private__ d) = true ->
  resolves "getKeys" d -> resolves "invalidate" d ->
  plain_name k = true -> lookup k (props d) = None ->
  let d1 := snd (getKeys d) in
  let d2 := snd (Put k v d1) in
  lookup k (props d2) = Some v
  /\ fst (getKeys d2) = Ok (Object_keys d)
  /\ ~ In k (Object_keys d)
  /\ fst (getKeys (snd (invalidate d2))) = Ok (Object_keys d2)
  /\ In k (Object_keys d2).
Proof.
  intros Hw Hc Hg Hi Hk Hl d1 d2.
  destruct (getKeys_caches d Hw Hc Hg) as (Hp1 & Hq1 & Hi1). fold d1 in Hp1, Hq1, Hi1.
  pose proof (plain_name_not_member k Hk) as Hm.
  assert (Hproto : proto_intact d1 = true)
    by (rewrite Hq1; now apply resolves_iff in Hg).
  assert (Hkr : k <> reserved).
  { unfold plain_name in Hk. rewrite andb_true_iff, negb_true_iff in Hk.
    now apply not_reserved_of_plain. }
  assert (E2 : d2 = with_props d1 (assign k v (props d1))).
  { unfold d2, Put. rewrite Hp1, Hl, Hproto.
    apply String.eqb_neq in Hkr. rewrite Hkr.
    unfold member_name in Hm. rewrite !orb_false_iff in Hm.
    destruct Hm as [[_ ->] ->]. reflexivity. }
  assert (Hres : forall name, member_name name = true -> resolves name d ->
                              resolves name d2).
  { intros name Hn Hres. rewrite E2. apply resolves_written.
    - apply resolves_iff. apply resolves_iff in Hres. now rewrite Hp1, Hq1.
    - intros ->. congruence. }
  assert (Hg2 : resolves "getKeys" d2) by (now apply Hres).
  assert (Hi2 : resolves "invalidate" d2) by (now apply Hres).
  split; [|split; [|split; [|split]]].
  - rewrite E2. simpl. apply lookup_assign_same.
  - rewrite (getKeys_eval d2 Hg2). rewrite E2. simpl. now rewrite Hi1.
  - rewrite In_Object_keys. now apply lookup_None.
  - rewrite (invalidate_resolved d2 Hi2).
    rewrite getKeys_eval by (now apply resolves_with_private).
    simpl. rewrite E2. simpl. rewrite Hi1. simpl. f_equal.
  - rewrite In_Object_keys, E2. unfold own_keys. simpl.
    apply In_keys_assign. now left.
Qed.

Lemma direct_write_needs_invalidate_witness :
  let d := snd (exec (OpSet (KStr "a") (VNum 1)) (new_Dictionary true)) in
  let d1 := snd (getKeys d) in
  let d2 := snd (Put "b" (VNum 2) d1) in
  lookup "b" (props d2) = Some (VNum 2)
  /\ fst (getKeys d2) = Ok (Object_keys d)
  /\ ~ In "b" (Object_keys d)
  /\ fst (getKeys (snd (invalidate d2))) = Ok (Object_keys d2)
  /\ In "b" (Object_keys d2).
Proof.
  intros d. apply (direct_write_needs_invalidate d "b" (VNum 2)); try reflexivity.
  apply (invariant_exec well_formed well_formed_invariant), well_formed_new.
Defined.

(** * Further properties of [asyncForEach] *)

(** ** X15: a step callback that never calls [next] *)

(** X15: on a non-empty well-formed container (own names distinct and
    other than [__private__], the key cache, when marked clean, equal to the
    current key list) whose [asyncForEach] and [getKeys] can be called, a
    step callback that returns a value not loosely equal to [false] without
    calling [next] is invoked once, on the first key with its stored
    value, within the call of [asyncForEach]; nothing is queued, and
    however many ticks pass no other key is visited and the completion is
    never notified. *)
Theorem forgotten_next_stalls (S : Type) (cb : StepCallback S)
    (cbComplete : option CompleteCallback) (st : S) (d : Dictionary) :
  well_formed d -> resolves "asyncForEach" d -> resolves "getKeys" d ->
  props d <> [] ->
  (forall st0 d0 k v, so_acts (cb st0 d0 k v) = []) ->
  (forall st0 d0 k v, loose_eq_false (so_return (cb st0 d0 k v)) = false) ->
  forall n,
    let t := ticks cb cbComplete n (asyncForEach cb cbComplete st d) in
    t_trace t = [EvStep (hd "" (Object_keys d)) (stored d (hd "" (Object_keys d)))]
    /\ t_queue t = []
    /\ props (t_dict t) = props d.
Proof.
  intros Hw Ha Hg Hne Hacts Hret n.
  destruct (getKeys_resolved d Hg Hw) as (d' & E & Hrd & _).
  destruct (Object_keys d) as [|k ks] eqn:Ek.
  { exfalso. apply Hne.
    pose proof (Permutation_length (Object_keys_perm d)) as Hl.
    rewrite Ek in Hl. unfold own_keys in Hl. rewrite length_map in Hl.
    now destruct (props d). }
  assert (Hin : In k (own_keys d'))
    by (unfold own_keys; destruct Hrd as [-> _]; apply In_Object_keys;
        rewrite Ek; now left).
  destruct (Get_own_key k d' Hin) as (v & Hget & Hl).
  assert (Hv : v = stored d k).
  { unfold stored. destruct Hrd as [<- _]. now rewrite Hl. }
  set (t0 := mkTraversal d' st (k :: ks) 0 [] []).
  assert (Hstep : step cb cbComplete t0
                  = (Ok tt, entered t0 v d' (so_state (cb st d' k v)))).
  { rewrite (step_calls S cb cbComplete t0 v d' eq_refl Hget).
    simpl t_closure. cbn [t_counter t_keys t0 nth].
    rewrite Hacts, Hret. reflexivity. }
  assert (Hstart : asyncForEach cb cbComplete st d
                   = entered t0 v d' (so_state (cb st d' k v))).
  { unfold asyncForEach. rewrite (method_resolved _ _ Ha), E.
    fold t0. now rewrite Hstep. }
  intros t. subst t. rewrite Hstart, ticks_idle by reflexivity.
  simpl. subst v. split; [reflexivity|]. split; [reflexivity | apply Hrd].
Qed.

Lemma forgotten_next_stalls_witness :
  let d := snd (exec (OpSet (KStr "a") (VNum 1)) (new_Dictionary false)) in
  let cb : StepCallback unit := fun _ _ _ _ => mkStepOut tt [] VUndefined in
  let t := ticks cb None 3 (asyncForEach cb None tt d) in
  t_trace t = [EvStep "a" (VNum 1)] /\ t_queue t = []
  /\ props (t_dict t) = props d.
Proof.
  intros d cb.
  refine (forgotten_next_stalls unit cb None tt d _ _ _ _ _ _ 3);
    try reflexivity.
  - apply (invariant_exec well_formed well_formed_invariant), well_formed_new.
  - discriminate.
Defined.

(** ** Traversals that go on up to a key, and stop there *)

Section Staged.

Variable S : Type.
Variable cb : StepCallback S.
Variable cbComplete : option CompleteCallback.
Hypothesis completion_returns : completes_quietly cbComplete.

Variable d : Dictionary.
Variable ks : list string.
Hypothesis keys_own : forall k, In k ks -> In k (own_keys d).

(** On the keys before position [m] the callback calls [next] once and
    returns a value not loosely equal to [false]; on the key at [m], if
    there is one, it works on the container at most, does not call [next]
    and returns a value loosely equal to [false]. *)
Variable m : nat.
Hypothesis goes_on : forall j st0 d0 v,
  j < m -> j < List.length ks ->
  so_acts (cb st0 d0 (nth j ks "") v) = [ActAdvance]
  /\ loose_eq_false (so_return (cb st0 d0 (nth j ks "") v)) = false.
Hypothesis stops : forall st0 d0 v,
  m < List.length ks ->
  exists os d2,
    so_acts (cb st0 d0 (nth m ks "") v) = map ActOp os
    /\ run_script os d0 = (Ok tt, d2)
    /\ loose_eq_false (so_return (cb st0 d0 (nth m ks "") v)) = true.

Variable total : nat.
Hypothesis total_visits : total = Nat.min (Datatypes.S m) (List.length ks).

Lemma complete_returns (t : Traversal S) :
  exists t', complete cbComplete t = (Ok tt, t')
             /\ t_keys t' = t_keys t /\ t_counter t' = t_counter t
             /\ t_queue t' = t_queue t
             /\ t_trace t' = t_trace t ++ [notification cbComplete].
Proof.
  unfold complete. destruct cbComplete as [c|]; simpl.
  - unfold bind, emit, lift_async. simpl.
    pose proof (completion_returns (t_dict t)) as H. simpl in H.
    destruct (run_script (c (t_dict t)) (t_dict t)) as [r d1]. simpl in H.
    subst r. eexists. split; [reflexivity|]. simpl. auto.
  - unfold emit. eexists. split; [reflexivity|]. simpl. auto.
Qed.

Lemma staged_step (j : nat) (st : S) (q : list Task) (tr : list Event) :
  j < total ->
  exists t',
    step cb cbComplete (mkTraversal d st ks j q tr) = (Ok tt, t')
    /\ t_keys t' = ks /\ t_counter t' = Datatypes.S j
    /\ if Nat.ltb (Datatypes.S j) total
       then t_dict t' = d /\ t_queue t' = q ++ [TStep]
            /\ t_trace t' = tr ++ [EvStep (nth j ks "") (stored d (nth j ks ""))]
       else t_queue t' = q
            /\ t_trace t' = tr ++ [EvStep (nth j ks "") (stored d (nth j ks ""));
                                   notification cbComplete].
Proof.
  intros Hj. set (key := nth j ks ""). set (t := mkTraversal d st ks j q tr).
  assert (Hjn : j < List.length ks) by lia.
  assert (Hin : In key (own_keys d)) by (apply keys_own, nth_In, Hjn).
  destruct (Get_own_key key d Hin) as (v & Hget & Hl).
  assert (Hv : stored d key = v) by (unfold stored; now rewrite Hl).
  rewrite Hv.
  assert (Hlt : Nat.ltb (t_counter t) (List.length (t_keys t)) = true)
    by (now apply Nat.ltb_lt).
  destruct (Nat.ltb j m) eqn:Ejm.
  - apply Nat.ltb_lt in Ejm.
    destruct (goes_on j st d v Ejm Hjn) as [Hacts Hret].
    rewrite (step_advance S cb cbComplete t v d d [] Hlt Hget Hacts eq_refl Hret).
    cbn [t_counter t_keys t].
    assert (Et : Nat.ltb (Datatypes.S j) total
                 = Nat.ltb (Datatypes.S j) (List.length ks)).
    { destruct (Nat.ltb_spec (Datatypes.S j) (List.length ks));
        [apply Nat.ltb_lt | apply Nat.ltb_ge]; lia. }
    rewrite Et.
    destruct (Nat.ltb (Datatypes.S j) (List.length ks)).
    + eexists. split; [reflexivity|]. simpl. auto.
    + destruct (complete_returns
                  (entered t v d (so_state (cb (t_closure t) d key v))))
        as (t' & E & Hk & Hc & Hq & Ht).
      exists t'. unfold bind. fold key. rewrite E. split; [reflexivity|].
      rewrite Hk, Hc, Hq, Ht. simpl. rewrite <- app_assoc. auto.
  - apply Nat.ltb_ge in Ejm.
    assert (Em : j = m) by lia. subst j.
    destruct (stops st d v Hjn) as (os & d2 & Hacts & Hrun & Hret).
    rewrite (step_short_circuit S cb cbComplete t v d d2 os Hlt Hget
               Hacts Hrun Hret).
    assert (Et : Nat.ltb (Datatypes.S m) total = false)
      by (apply Nat.ltb_ge; lia).
    rewrite Et.
    match goal with
    | |- context [complete cbComplete ?x] =>
        destruct (complete_returns x) as (t' & E & Hk & Hc & Hq & Ht)
    end.
    exists t'. rewrite E. split; [reflexivity|].
    rewrite Hk, Hc, Hq, Ht. simpl. rewrite <- app_assoc. auto.
Qed.

Lemma steps_of_succ (j : nat) :
  j < List.length ks ->
  steps_of d (firstn (Datatypes.S j) ks)
  = steps_of d (firstn j ks) ++ [EvStep (nth j ks "") (stored d (nth j ks ""))].
Proof.
  intros Hj. unfold steps_of. now rewrite (firstn_succ ks j Hj), map_app.
Qed.

Lemma stage_of_step (j : nat) (st : S) (tr : list Event) :
  j < total -> tr = steps_of d (firstn j ks) ->
  exists t', step cb cbComplete (mkTraversal d st ks j [] tr) = (Ok tt, t')
             /\ at_stage d ks cbComplete total (Datatypes.S j) t'.
Proof.
  intros Hj ->.
  assert (Hjn : j < List.length ks) by lia.
  destruct (staged_step j st [] (steps_of d (firstn j ks)) Hj)
    as (t' & E & Hk & Hc & H).
  exists t'. split; [exact E|]. split; [exact Hk|]. split; [exact Hc|].
  destruct (Nat.ltb (Datatypes.S j) total) eqn:Elt.
  - destruct H as (Hd & Hq & Ht). rewrite (steps_of_succ j Hjn). auto.
  - destruct H as (Hq & Ht). split; [exact Hq|]. rewrite Ht.
    apply Nat.ltb_ge in Elt.
    assert (Hlen : total = Datatypes.S j) by lia.
    rewrite Hlen, (steps_of_succ j Hjn). now rewrite <- app_assoc.
Qed.

Lemma staged_start (st : S) :
  at_stage d ks cbComplete total (Nat.min 1 total)
    (end_of_executor (step cb cbComplete (mkTraversal d st ks 0 [] []))).
Proof.
  destruct (Nat.ltb 0 total) eqn:E0.
  - apply Nat.ltb_lt in E0.
    destruct (stage_of_step 0 st [] E0 eq_refl) as (t' & -> & H).
    now replace (Nat.min 1 total) with 1 by lia.
  - apply Nat.ltb_ge in E0.
    assert (Htot : total = 0) by lia.
    assert (Hlen : List.length ks = 0) by lia.
    assert (Eend : Nat.ltb 0 (List.length ks) = false)
      by (apply Nat.ltb_ge; lia).
    rewrite (step_at_end S cb cbComplete (mkTraversal d st ks 0 [] []) Eend).
    destruct (complete_returns (mkTraversal d st ks 0 [] []))
      as (t' & -> & Hk & Hc & Hq & Ht).
    rewrite Htot. simpl Nat.min. simpl end_of_executor.
    split; [exact Hk|]. split; [exact Hc|]. simpl.
    split; [exact Hq | exact Ht].
Qed.

Lemma staged_tick (i : nat) (t : Traversal S) :
  at_stage d ks cbComplete total (Nat.min (Datatypes.S i) total) t ->
  at_stage d ks cbComplete total (Nat.min (Datatypes.S (Datatypes.S i)) total)
    (tick cb cbComplete t).
Proof.
  intros (Hk & Hc & H).
  destruct (Nat.ltb (Nat.min (Datatypes.S i) total) total) eqn:Elt.
  - apply Nat.ltb_lt in Elt. destruct H as (Hd & Hq & Ht).
    assert (Hi : Datatypes.S i < total) by lia.
    rewrite Nat.min_l in Hc, Ht by lia.
    replace (Nat.min (Datatypes.S (Datatypes.S i)) total)
      with (Datatypes.S (Datatypes.S i)) by lia.
    unfold tick. rewrite Hq, Hd, Hk, Hc, Ht.
    destruct (stage_of_step (Datatypes.S i) (t_closure t) _ Hi eq_refl)
      as (t' & -> & Hs).
    exact Hs.
  - apply Nat.ltb_ge in Elt. destruct H as (Hq & Ht).
    assert (Hmin : Nat.min (Datatypes.S (Datatypes.S i)) total
                   = Nat.min (Datatypes.S i) total) by lia.
    unfold tick. rewrite Hq, Hmin.
    split; [exact Hk|]. split; [exact Hc|].
    apply Nat.ltb_ge in Elt. rewrite Elt. auto.
Qed.

Lemma ticks_succ (i : nat) (t : Traversal S) :
  ticks cb cbComplete (Datatypes.S i) t = tick cb cbComplete (ticks cb cbComplete i t).
Proof.
  revert t. induction i as [|i IH]; intros t; [reflexivity|].
  change (ticks cb cbComplete (Datatypes.S (Datatypes.S i)) t)
    with (ticks cb cbComplete (Datatypes.S i) (tick cb cbComplete t)).
  now rewrite IH.
Qed.

Lemma staged_ticks (i : nat) (t : Traversal S) :
  at_stage d ks cbComplete total (Nat.min 1 total) t ->
  at_stage d ks cbComplete total (Nat.min (Datatypes.S i) total)
    (ticks cb cbComplete i t).
Proof.
  intros H. induction i as [|i IH]; [exact H|].
  rewrite ticks_succ. now apply staged_tick.
Qed.

End Staged.

(** The whole run of such a traversal from the call of [asyncForEach]. *)
Lemma staged_traversal (S : Type) (cb : StepCallback S)
    (cbComplete : option CompleteCallback) (st : S) (d : Dictionary) (m i : nat) :
  well_formed d -> resolves "asyncForEach" d -> resolves "getKeys" d ->
  completes_quietly cbComplete ->
  (forall j st0 d0 v,
     j < m -> j < List.length (Object_keys d) ->
     so_acts (cb st0 d0 (nth j (Object_keys d) "") v) = [ActAdvance]
     /\ loose_eq_false (so_return (cb st0 d0 (nth j (Object_keys d) "") v)) = false) ->
  (forall st0 d0 v,
     m < List.length (Object_keys d) ->
     exists os d2,
       so_acts (cb st0 d0 (nth m (Object_keys d) "") v) = map ActOp os
       /\ run_script os d0 = (Ok tt, d2)
       /\ loose_eq_false (so_return (cb st0 d0 (nth m (Object_keys d) "") v)) = true) ->
  let t := ticks cb cbComplete i (asyncForEach cb cbComplete st d) in
  let total := Nat.min (Datatypes.S m) (List.length (Object_keys d)) in
  let j := Nat.min (Datatypes.S i) total in
  t_trace t
  = steps_of d (firstn j (Object_keys d))
    ++ (if Nat.ltb j total then [] else [notification cbComplete])
  /\ t_queue t = (if Nat.ltb j total then [TStep] else []).
Proof.
  intros Hw Ha Hg Hq Hgo Hstop t total j.
  destruct (getKeys_resolved d Hg Hw) as (d' & E & Hrd & _).
  set (ks := Object_keys d) in *.
  assert (Hown : forall k, In k ks -> In k (own_keys d'))
    by (intros k Hin; unfold own_keys; destruct Hrd as [-> _];
        now apply In_Object_keys).
  assert (Hsteps : forall l, steps_of d' l = steps_of d l).
  { intros l. unfold steps_of. apply map_ext. intros k.
    now rewrite (stored_reads d d' k Hrd). }
  assert (Hstage : at_stage d' ks cbComplete total j t).
  { unfold j, t.
    apply (staged_ticks S cb cbComplete Hq d' ks Hown m Hgo Hstop total eq_refl).
    unfold asyncForEach. rewrite (method_resolved _ _ Ha), E.
    apply (staged_start S cb cbComplete Hq d' ks Hown m Hgo Hstop total eq_refl). }
  destruct Hstage as (_ & _ & H).
  destruct (Nat.ltb j total) eqn:Elt.
  - destruct H as (_ & -> & ->). now rewrite app_nil_r, Hsteps.
  - destruct H as (-> & ->). rewrite Hsteps. split; [|reflexivity].
    apply Nat.ltb_ge in Elt.
    replace j with total by (unfold j in *; lia). reflexivity.
Qed.

(** ** X16: a step callback that calls [next] once each time *)

(** X16: on a well-formed container (own names distinct, the key cache,
    when marked clean, equal to the current key list) whose [asyncForEach]
    and [getKeys] can be called, with a step callback that each time calls
    [next] once, does nothing else and returns a value not loosely equal to
    [false], and a completion callback (when there is one) that returns
    normally, [asyncForEach] visits the keys of [getKeys()] in order, each
    with its stored value, the first within the call and one more per tick;
    with the last visit it notifies the completion, once, and nothing is
    queued any more. *)
Theorem cooperative_traversal (S : Type) (cb : StepCallback S)
    (cbComplete : option CompleteCallback) (st : S) (d : Dictionary) (i : nat) :
  well_formed d -> resolves "asyncForEach" d -> resolves "getKeys" d ->
  (forall st0 d0 k v, so_acts (cb st0 d0 k v) = [ActAdvance]) ->
  (forall st0 d0 k v, loose_eq_false (so_return (cb st0 d0 k v)) = false) ->
  completes_quietly cbComplete ->
  let t := ticks cb cbComplete i (asyncForEach cb cbComplete st d) in
  let n := List.length (props d) in
  let j := Nat.min (Datatypes.S i) n in
  t_trace t
  = steps_of d (firstn j (Object_keys d))
    ++ (if Nat.ltb j n then [] else [notification cbComplete])
  /\ t_queue t = (if Nat.ltb j n then [TStep] else []).
Proof.
  intros Hw Ha Hg Hacts Hret Hq t n j.
  assert (Hlen : List.length (Object_keys d) = n).
  { unfold n. rewrite (Permutation_length (Object_keys_perm d)).
    unfold own_keys. apply length_map. }
  pose proof (staged_traversal S cb cbComplete st d n i Hw Ha Hg Hq) as H.
  cbv zeta in H. rewrite Hlen in H.
  replace (Nat.min (Datatypes.S n) n) with n in H by lia.
  apply H.
  - intros j0 st0 d0 v _ _. split; [apply Hacts | apply Hret].
  - intros st0 d0 v Hlt. lia.
Qed.

Lemma cooperative_traversal_witness :
  let d := perform [OpSet (KStr "b") (VNum 1); OpSet (KStr "a") (VNum 2)]
             (new_Dictionary false) in
  let cb : StepCallback unit := fun _ _ _ _ => mkStepOut tt [ActAdvance] VUndefined in
  let t := ticks cb None 1 (asyncForEach cb None tt d) in
  t_trace t = [EvStep "b" (VNum 1); EvStep "a" (VNum 2); EvResolve]
  /\ t_queue t = [].
Proof.
  intros d cb.
  apply (cooperative_traversal unit cb None tt d 1);
    try reflexivity; try exact I.
  apply invariant_perform; [apply well_formed_invariant | apply well_formed_new].
Defined.



(** ** C10: a return value loosely equal to [false] *)




(** ** X17: the keys a traversal visits, whatever the callbacks do *)

Section Course.

Variable S : Type.
Variable cb : StepCallback S.
Variable cbComplete : option CompleteCallback.

Lemma keys_visited_app (l1 l2 : list Event) :
  keys_visited (l1 ++ l2) = keys_visited l1 ++ keys_visited l2.
Proof. apply flat_map_app. Qed.

Lemma steady_ret {A : Type} (a : A) : steady (@ret (Traversal S) A a).
Proof. intros t. simpl. auto. Qed.

Lemma steady_bind {A B : Type} (m : StateM (Traversal S) A)
    (k : A -> StateM (Traversal S) B) :
  steady m -> (forall a, steady (k a)) -> steady (bind m k).
Proof.
  intros Hm Hk t. destruct (Hm t) as (H1 & H2 & H3). unfold bind.
  destruct (m t) as [[a| |] t1]; simpl in *; auto.
  destruct (Hk a t1) as (K1 & K2 & K3). rewrite K1, K2, K3. auto.
Qed.

Lemma steady_lift_async {A : Type} (m : M A) : steady (S := S) (lift_async m).
Proof. intros t. unfold lift_async. destruct (m (t_dict t)). simpl. auto. Qed.

Lemma steady_emit (e : Event) : is_step e = false -> steady (S := S) (emit e).
Proof.
  intros He t. unfold emit. simpl. rewrite keys_visited_app.
  destruct e; try discriminate He; simpl; rewrite app_nil_r; auto.
Qed.

Lemma steady_nextTick (task : Task) : steady (S := S) (nextTick task).
Proof. intros t. unfold nextTick. simpl. auto. Qed.

Lemma steady_complete : steady (S := S) (complete cbComplete).
Proof.
  unfold complete. destruct cbComplete as [c|].
  - apply steady_bind; [now apply steady_emit|].
    intros _ t. apply steady_lift_async.
  - now apply steady_emit.
Qed.

Lemma steady_next : steady (S := S) (next cbComplete).
Proof.
  intros t. unfold next.
  destruct (Nat.ltb (t_counter t) (List.length (t_keys t)));
    [apply steady_nextTick | apply steady_complete].
Qed.

Lemma steady_run_acts (acts : list Act) : steady (S := S) (run_acts cbComplete acts).
Proof.
  induction acts as [|[o| |] acts IH]; cbn [run_acts].
  - apply steady_ret.
  - apply steady_bind; [apply steady_lift_async | intros _; exact IH].
  - apply steady_bind; [apply steady_next | intros _; exact IH].
  - apply steady_bind; [apply steady_nextTick | intros _; exact IH].
Qed.

Lemma call_iterator_course (k : string) (v : JsVal) (t : Traversal S) :
  t_keys (snd (call_iterator cb cbComplete k v t)) = t_keys t
  /\ t_counter (snd (call_iterator cb cbComplete k v t)) = t_counter t
  /\ keys_visited (t_trace (snd (call_iterator cb cbComplete k v t)))
     = keys_visited (t_trace t) ++ [k].
Proof.
  unfold call_iterator.
  set (out := cb (t_closure t) (t_dict t) k v).
  set (t1 := mkTraversal (t_dict t) (so_state out) (t_keys t) (t_counter t)
               (t_queue t) (t_trace t ++ [EvStep k v])).
  assert (E : forall B (f : unit -> StateM (Traversal S) B),
            bind (emit (EvStep k v)) f
              (mkTraversal (t_dict t) (so_state out) (t_keys t) (t_counter t)
                 (t_queue t) (t_trace t))
            = f tt t1) by reflexivity.
  rewrite E.
  assert (Hs : steady (run_acts cbComplete (so_acts out) ;; ret (so_return out)))
    by (apply steady_bind; [apply steady_run_acts | intros _; apply steady_ret]).
  destruct (Hs t1) as (H1 & H2 & H3). rewrite H1, H2, H3.
  unfold t1. simpl. rewrite keys_visited_app. auto.
Qed.

(** One run of [step] from a traversal on course: it stays on course, or
    it failed before entering the callback, having queued and visited
    nothing. *)
Lemma step_course (t : Traversal S) :
  on_course t ->
  t_keys (snd (step cb cbComplete t)) = t_keys t
  /\ (on_course (snd (step cb cbComplete t))
      \/ (t_queue (snd (step cb cbComplete t)) = t_queue t
          /\ keys_visited (t_trace (snd (step cb cbComplete t)))
             = keys_visited (t_trace t)
          /\ match fst (step cb cbComplete t) with Ok _ => False | _ => True end)).
Proof.
  unfold on_course. intros H.
  remember (step cb cbComplete t) as o eqn:Eo.
  destruct (Nat.ltb (t_counter t) (List.length (t_keys t))) eqn:Elt.
  - rewrite (step_before_end S cb cbComplete t Elt) in Eo.
    set (key := nth (t_counter t) (t_keys t) "") in Eo.
    unfold bind at 1 in Eo. unfold lift_async at 1 in Eo.
    cbn [t_dict t_closure t_keys t_counter t_queue t_trace] in Eo.
    destruct (Get key (t_dict t)) as [[v| |] d1];
      try (subst o; simpl; split; [reflexivity | right; auto]).
    set (t2 := mkTraversal d1 (t_closure t) (t_keys t) (Datatypes.S (t_counter t))
                 (t_queue t) (t_trace t)) in Eo.
    destruct (call_iterator_course key v t2) as (K1 & K2 & K3).
    assert (Hon : keys_visited (t_trace (snd (call_iterator cb cbComplete key v t2)))
                  = firstn (t_counter (snd (call_iterator cb cbComplete key v t2)))
                      (t_keys (snd (call_iterator cb cbComplete key v t2)))).
    { rewrite K1, K2, K3. unfold t2. cbn [t_keys t_counter t_trace].
      apply Nat.ltb_lt in Elt. now rewrite (firstn_succ _ _ Elt), H. }
    unfold bind in Eo.
    destruct (call_iterator cb cbComplete key v t2) as [[r| |] t3];
      cbn [snd] in K1, K2, K3, Hon;
      try (subst o; cbn [snd]; split; [exact K1 | left; exact Hon]).
    destruct (loose_eq_false r); subst o.
    + destruct (steady_complete t3) as (C1 & C2 & C3).
      split; [now rewrite C1|]. left. now rewrite C1, C2, C3.
    + cbn [snd ret]. split; [exact K1 | left; exact Hon].
  - rewrite (step_at_end S cb cbComplete t Elt) in Eo. subst o.
    destruct (steady_complete t) as (C1 & C2 & C3).
    split; [exact C1|]. left. now rewrite C1, C2, C3.
Qed.

Lemma end_of_task_course (o : Result unit * Traversal S) (ks : list string) :
  t_keys (snd o) = ks ->
  on_course (snd o)
  \/ (match fst o with Ok _ => False | _ => True end
      /\ exists c, keys_visited (t_trace (snd o)) = firstn c ks) ->
  t_keys (end_of_task o) = ks /\ on_course_or_at_rest (end_of_task o).
Proof.
  unfold on_course_or_at_rest, on_course.
  intros Hk H. destruct o as [[u| |] t]; simpl in *.
  - split; [exact Hk|]. destruct H as [H|[[] _]]. now left.
  - split; [exact Hk|]. right. split; [reflexivity|].
    rewrite keys_visited_app, app_nil_r, Hk.
    destruct H as [H|[_ H]]; [|exact H]. rewrite Hk in H. eauto.
  - split; [exact Hk|]. right. split; [reflexivity|].
    rewrite keys_visited_app, app_nil_r, Hk.
    destruct H as [H|[_ H]]; [|exact H]. rewrite Hk in H. eauto.
Qed.

Lemma tick_course (t : Traversal S) :
  on_course_or_at_rest t ->
  t_keys (tick cb cbComplete t) = t_keys t
  /\ on_course_or_at_rest (tick cb cbComplete t).
Proof.
  intros H. unfold tick.
  destruct (t_queue t) as [|task q] eqn:Eq; [auto|].
  destruct H as [H|[Hq _]]; [|congruence].
  set (t' := mkTraversal (t_dict t) (t_closure t) (t_keys t) (t_counter t) q
               (t_trace t)).
  assert (H' : on_course t') by exact H.
  destruct task.
  - destruct (step_course t' H') as (Hk & Hs).
    apply end_of_task_course; [exact Hk|].
    destruct Hs as [Hs|(_ & Hv & Hf)]; [now left|].
    right. split; [exact Hf|]. rewrite Hv. unfold on_course in H'.
    rewrite H'. eauto.
  - destruct (steady_next t') as (N1 & N2 & N3).
    apply end_of_task_course; [exact N1|].
    left. unfold on_course. now rewrite N1, N2, N3.
Qed.

Lemma ticks_course (n : nat) (t : Traversal S) :
  on_course_or_at_rest t ->
  t_keys (ticks cb cbComplete n t) = t_keys t
  /\ on_course_or_at_rest (ticks cb cbComplete n t).
Proof.
  revert t. induction n as [|n IH]; intros t H; [auto|].
  destruct (tick_course t H) as (Hk & Ht).
  destruct (IH _ Ht) as (Hk' & Ht').
  cbn [ticks]. split; [congruence | exact Ht'].
Qed.

Lemma asyncForEach_course (st : S) (d : Dictionary) :
  on_course_or_at_rest (asyncForEach cb cbComplete st d)
  /\ (t_keys (asyncForEach cb cbComplete st d) = []
      \/ fst (getKeys d) = Ok (t_keys (asyncForEach cb cbComplete st d))).
Proof.
  unfold asyncForEach.
  destruct (method "asyncForEach" d) as [[u| |] d0];
    try (split; [left; reflexivity | left; reflexivity]).
  destruct (getKeys d) as [[ks| |] d'];
    try (split; [left; reflexivity | left; reflexivity]).
  set (t0 := mkTraversal d' st ks 0 [] []).
  destruct (step_course t0 eq_refl) as (Hk & Hs).
  destruct (end_of_executor_trace (step cb cbComplete t0)) as (Ek & _).
  split; [|right; simpl; now rewrite Ek, Hk].
  unfold on_course_or_at_rest, on_course in *.
  destruct (step cb cbComplete t0) as [[u'| |] t1]; simpl in *.
  - destruct Hs as [Hs|(_ & _ & [])]. now left.
  - rewrite keys_visited_app, app_nil_r.
    destruct Hs as [Hs|(Hq & Hv & _)]; [now left|].
    right. split; [exact Hq|]. exists 0. now rewrite Hv.
  - right. split; [reflexivity|]. rewrite keys_visited_app, app_nil_r.
    destruct Hs as [Hs|(_ & Hv & _)]; [eauto|]. exists 0. now rewrite Hv.
Qed.

End Course.

(** X17: whatever the step callback and the completion callback do (call
    [next] several times or later, change the container, throw), and
    however long the traversal runs, the keys on which [asyncForEach] has
    invoked the step callback are, in order, the first keys of the list
    [getKeys()] returned when [asyncForEach] was called: no position is
    visited twice or skipped, and a key added meanwhile is not visited. *)
Theorem asyncForEach_visits_prefix (S : Type) (cb : StepCallback S)
    (cbComplete : option CompleteCallback) (st : S) (d : Dictionary) (n : nat) :
  exists c,
    keys_visited (t_trace (ticks cb cbComplete n (asyncForEach cb cbComplete st d)))
    = firstn c match fst (getKeys d) with
               | Ok ks => ks
               | _ => []
               end.
Proof.
  destruct (asyncForEach_course S cb cbComplete st d) as (H0 & Hk0).
  destruct (ticks_course S cb cbComplete n _ H0) as (Hk & H).
  assert (Hc : exists c,
            keys_visited (t_trace (ticks cb cbComplete n
                                     (asyncForEach cb cbComplete st d)))
            = firstn c (t_keys (asyncForEach cb cbComplete st d))).
  { rewrite <- Hk. destruct H as [H|(_ & H)]; [|exact H].
    unfold on_course in H. eauto. }
  destruct Hc as (c & Hc). destruct Hk0 as [E|E].
  - exists 0. rewrite Hc, E. now destruct c.
  - exists c. now rewrite E.
Qed.

(** * A stored value under the name of a method *)

Lemma method_hidden (name : string) (v : JsVal) (d : Dictionary) :
  lookup name (props d) = Some v -> callable v = false ->
  method name d = (TypeError, d).
Proof. intros Hl Hc. unfold method. now rewrite Hl, Hc. Qed.

Lemma set_hides (name : string) (v : JsVal) (d : Dictionary) :
  plain_state d -> inherited_function name = true ->
  set (KStr name) v d
  = (Ok tt, with_props (invalidated d) (assign name v (props d))).
Proof.
  intros Hp Hn.
  assert (Hm : forall m, member_name m = true -> resolves m d)
    by (intros m; now apply plain_state_resolves).
  assert (Hmem : member_name name = true)
    by (unfold member_name; now rewrite Hn).
  rewrite (set_eval _ _ _ (Hm "set" eq_refl) (Hm "invalidate" eq_refl)).
  cbn [ToPropertyKey]. unfold Put. simpl props. simpl proto_intact.
  destruct (proj1 (resolves_iff name d) (Hm name Hmem)) as [-> ->].
  assert (H1 : String.eqb name reserved = false)
    by (apply String.eqb_neq; intros ->; discriminate Hn).
  assert (H2 : String.eqb name "length" = false)
    by (apply String.eqb_neq; intros ->; discriminate Hn).
  assert (H3 : String.eqb name "__proto__" = false)
    by (apply String.eqb_neq; intros ->; discriminate Hn).
  now rewrite H1, H2, H3.
Qed.

Lemma bind_fails {St A B : Type} (m : StateM St A) (k : A -> StateM St B)
    (s s1 : St) :
  m s = (TypeError, s1) -> bind m k s = (TypeError, s1).
Proof. intros H. unfold bind. now rewrite H. Qed.

(** X18: storing a value that is not a function under the name of a method
    hides the method.  On a container none of whose members is hidden yet:
    after [set("invalidate", v)] every [set] and every [remove] throws a
    [TypeError] and changes nothing, so the stored properties can no
    longer be changed through the interface; after [set("getKeys", v)],
    [getKeys], [keys], [size], [values], [entries] and the default iterator
    throw; after [set("has", v)], [has] and [getDefault] throw. *)
Theorem stored_value_hides_method (d : Dictionary) (v : JsVal) :
  plain_state d -> callable v = false ->
  (let d1 := snd (set (KStr "invalidate") v d) in
   lookup "invalidate" (props d1) = Some v
   /\ forall key w, set key w d1 = (TypeError, d1)
                    /\ remove key d1 = (TypeError, d1))
  /\ (let d2 := snd (set (KStr "getKeys") v d) in
      getKeys d2 = (TypeError, d2) /\ keys_alias d2 = (TypeError, d2)
      /\ size d2 = (TypeError, d2) /\ values d2 = (TypeError, d2)
      /\ entries d2 = (TypeError, d2) /\ iterator d2 = (TypeError, d2))
  /\ (let d3 := snd (set (KStr "has") v d) in
      forall key dv, has key d3 = (TypeError, d3)
                     /\ getDefault key dv d3 = (TypeError, d3)).
Proof.
  intros Hp Hc.
  assert (Hm : forall m, member_name m = true -> resolves m d)
    by (intros m; now apply plain_state_resolves).
  assert (Hres : forall name m, inherited_function name = true ->
                   member_name m = true -> m <> name ->
                   resolves m (snd (set (KStr name) v d))).
  { intros name m Hn Hmem Hne. rewrite (set_hides name v d Hp Hn). cbn [snd].
    apply (resolves_written m name v (invalidated d)); [|congruence].
    apply resolves_with_private. now apply Hm. }
  assert (Hhid : forall name, inherited_function name = true ->
                   method name (snd (set (KStr name) v d))
                   = (TypeError, snd (set (KStr name) v d))).
  { intros name Hn. apply (method_hidden name v); [|exact Hc].
    rewrite (set_hides name v d Hp Hn). simpl. apply lookup_assign_same. }
  split; [|split].
  - intros d1.
    pose proof (Hhid "invalidate" eq_refl) as Hi. fold d1 in Hi.
    assert (Hinv : invalidate d1 = (TypeError, d1))
      by (unfold invalidate; now apply bind_fails).
    split.
    + unfold d1. rewrite (set_hides "invalidate" v d Hp eq_refl). simpl.
      apply lookup_assign_same.
    + intros key w. split.
      * unfold set.
        rewrite (bind_run _ _ _ _ _
                   (method_resolved _ _
                      (Hres "invalidate" "set" eq_refl eq_refl ltac:(discriminate)))).
        now apply bind_fails.
      * unfold remove.
        rewrite (bind_run _ _ _ _ _
                   (method_resolved _ _
                      (Hres "invalidate" "remove" eq_refl eq_refl ltac:(discriminate)))).
        now apply bind_fails.
  - intros d2.
    pose proof (Hhid "getKeys" eq_refl) as Hg. fold d2 in Hg.
    assert (Hgk : getKeys d2 = (TypeError, d2))
      by (unfold getKeys; now apply bind_fails).
    assert (Hr : forall m, member_name m = true -> m <> "getKeys" ->
                           method m d2 = (Ok tt, d2))
      by (intros m H1 H2; apply method_resolved; now apply Hres).
    repeat split.
    + exact Hgk.
    + unfold keys_alias.
      now rewrite (bind_run _ _ _ _ _ (Hr "keys" eq_refl ltac:(discriminate))).
    + unfold size.
      rewrite (bind_run _ _ _ _ _ (Hr "size" eq_refl ltac:(discriminate))).
      now apply bind_fails.
    + unfold values.
      rewrite (bind_run _ _ _ _ _ (Hr "values" eq_refl ltac:(discriminate))).
      now apply bind_fails.
    + unfold entries.
      rewrite (bind_run _ _ _ _ _ (Hr "entries" eq_refl ltac:(discriminate))).
      now apply bind_fails.
    + unfold iterator. now apply bind_fails.
  - intros d3 key dv.
    pose proof (Hhid "has" eq_refl) as Hh. fold d3 in Hh.
    assert (Hhas : has key d3 = (TypeError, d3))
      by (unfold has; now apply bind_fails).
    split; [exact Hhas|].
    unfold getDefault.
    rewrite (bind_run _ _ _ _ _
               (method_resolved _ _
                  (Hres "has" "getDefault" eq_refl eq_refl ltac:(discriminate)))).
    now apply bind_fails.
Qed.

Lemma stored_value_hides_method_witness :
  let d := new_Dictionary true in
  let v := VNum 1 in
  (let d1 := snd (set (KStr "invalidate") v d) in
   lookup "invalidate" (props d1) = Some v
   /\ forall key w, set key w d1 = (TypeError, d1)
                    /\ remove key d1 = (TypeError, d1))
  /\ (let d2 := snd (set (KStr "getKeys") v d) in
      getKeys d2 = (TypeError, d2) /\ keys_alias d2 = (TypeError, d2)
      /\ size d2 = (TypeError, d2) /\ values d2 = (TypeError, d2)
      /\ entries d2 = (TypeError, d2) /\ iterator d2 = (TypeError, d2))
  /\ (let d3 := snd (set (KStr "has") v d) in
      forall key dv, has key d3 = (TypeError, d3)
                     /\ getDefault key dv d3 = (TypeError, d3)).
Proof.
  intros d v.
  exact (stored_value_hides_method d v (plain_state_new true) eq_refl).
Defined.

(** * The keys a synchronous loop visits, whatever the callback does *)

Lemma loop_log_subsequence (ks : list string) (l : list Visit) :
  loop_log ks l -> subsequence (map visit_key l) (accepted ks).
Proof.
  induction 1 as [ks|k ks l H IH|k ks v r Hk Hr|k ks v x l Hk Hx H IH];
    unfold accepted in *; cbn [filter map visit_key].
  - constructor.
  - destruct (negb (contains_reserved k)); [now apply sub_skip | exact IH].
  - rewrite Hk. cbn [negb]. apply sub_take, sub_nil.
  - rewrite Hk. cbn [negb]. now apply sub_take.
Qed.

Lemma each_loop_keys {S : Type} (cb : EachCallback S) (s : EachState S) :
  es_log s = [] ->
  exists l, es_log (snd (each cb s)) = l
            /\ (l = [] \/ loop_log (Object_keys (es_dict s)) l).
Proof.
  intros Hs. unfold each, bind.
  destruct (lift_each_log S (method "each") s) as [E1 _].
  assert (Ed : es_dict (snd (lift_each (method "each") s)) = es_dict s).
  { unfold lift_each. pose proof (method_state "each" (es_dict s)) as Hm.
    destruct (method "each" (es_dict s)). simpl in *. exact Hm. }
  destruct (lift_each (method "each") s) as [[u| |] s1]; simpl in E1, Ed;
    try solve [eexists; split; [reflexivity|]; left; simpl; congruence].
  destruct (each_loop_log S cb (Object_keys (es_dict s1)) s1) as (l & E & Hl).
  exists l. rewrite E, E1, Hs, <- Ed. split; [reflexivity | now right].
Qed.

Lemma no_stored_method_plain (d : Dictionary) :
  plain_state d -> no_stored_method d.
Proof.
  intros [Hp Hk]. split; [exact Hp|]. intros name v Hl Hn.
  apply lookup_Some_In in Hl. rewrite Forall_forall in Hk.
  apply Hk, plain_name_not_member in Hl. congruence.
Qed.

(** X19: on an instance whose prototype is in place and on which no
    function is stored under the name of a member, with a callback that
    stores no function under such a name either (so that every call runs
    the class's own code), whatever else the callback does to the container
    and whatever it returns or throws, the keys on which [each] (and
    [forEach]) invokes it are, in the order of the enumeration at the start
    of the loop, some of the own names that do not contain the reserved
    identifier: a name added during the loop is not visited, and no name is
    visited out of order. *)
Theorem each_visits_subsequence (S : Type) (cb : EachCallback S) (st : S)
    (d : Dictionary) :
  no_stored_method d ->
  (forall st0 d0 k v, Forall keeps_members (eo_script (cb st0 d0 k v))) ->
  subsequence
    (map visit_key (es_log (snd (each cb (mkEachState d st [])))))
    (accepted (Object_keys d))
  /\ subsequence
       (map visit_key (es_log (snd (forEach cb (mkEachState d st [])))))
       (accepted (Object_keys d)).
Proof.
  intros _ _.
  assert (He : forall s, es_log s = [] ->
                 subsequence (map visit_key (es_log (snd (each cb s))))
                   (accepted (Object_keys (es_dict s)))).
  { intros s Hs. destruct (each_loop_keys cb s Hs) as (l & -> & [->|Hl]).
    - constructor.
    - now apply loop_log_subsequence. }
  split; [exact (He (mkEachState d st []) eq_refl)|].
  unfold forEach, bind.
  destruct (lift_each_log S (method "forEach") (mkEachState d st [])) as [E1 _].
  assert (Ed : es_dict (snd (lift_each (method "forEach") (mkEachState d st []))) = d).
  { unfold lift_each. simpl. pose proof (method_state "forEach" d) as Hm.
    destruct (method "forEach" d). simpl in *. exact Hm. }
  destruct (lift_each (method "forEach") (mkEachState d st [])) as [[u| |] s1];
    simpl in E1, Ed; try (simpl; rewrite E1; constructor).
  rewrite <- Ed. now apply He.
Qed.

Lemma each_visits_subsequence_witness :
  let d := perform [OpSet (KStr "a") (VNum 1); OpSet (KStr "b") (VNum 2);
                    OpSet (KStr "c") (VNum 3)] (new_Dictionary false) in
  let drop_b : EachCallback unit :=
    fun _ _ k _ =>
      mkEachOut tt (if String.eqb k "a" then [OpRemove (KStr "b")] else [])
        VUndefined in
  subsequence
    (map visit_key (es_log (snd (each drop_b (mkEachState d tt [])))))
    (accepted (Object_keys d))
  /\ subsequence
       (map visit_key (es_log (snd (forEach drop_b (mkEachState d tt [])))))
       (accepted (Object_keys d)).
Proof.
  intros d drop_b. apply (each_visits_subsequence unit drop_b tt d).
  - apply no_stored_method_plain, plain_state_perform;
      [repeat constructor | apply plain_state_new].
  - intros st0 d0 k v. unfold drop_b. simpl.
    destruct (String.eqb k "a"); repeat constructor.
Defined.
